(** * Cortex chunk store and ruler: a shallow embedding

    The definitions below follow [src/chunk/chunk_store.go] and
    [src/ruler/ruler.go] function by function.  Go values are modelled as
    follows.

    - [int64] (and [model.Time], [time.Duration]) is [Z].  No operation of
      the embedded code can leave the 64-bit range on 64-bit inputs (the
      only arithmetic is division by positive constants, multiplication of
      an already divided value by the same constant or by 24, and [i++]
      below a divided bound), so no wrap-around has to be written out.
      [int] is taken to be 64 bits wide.
    - Go's integer division truncates towards zero ([Z.quot]) and panics on
      a zero divisor.
    - A Go [error] result is a value ([option error], [result]); a run-time
      panic is the [Panic] outcome of [res].
    - Effects on the outside world (S3, DynamoDB, the chunk cache, the
      Prometheus histograms fed with explicit counts) are recorded in a
      trace of [event]s threaded through the monad [M].  Log lines and the
      wall-clock request timer are not recorded.
    - A fan-out over goroutines whose results are collected from an
      unbuffered channel is a fold over the tasks in their order of
      arrival; that order is a parameter (a [schedule]) and every theorem
      quantifies over it. *)

From Stdlib Require Import ZArith Lia Ascii.
From stdpp Require Import base list strings gmap pretty sorting.

Local Open Scope Z_scope.

(** ** Outcomes *)

Definition error := string.
Definition bytes := string.

Inductive result (A : Type) : Type :=
| Ok (a : A)
| Err (e : error).
Arguments Ok {A} a.
Arguments Err {A} e.

Inductive res (A : Type) : Type :=
| Ret (a : A)
| Panic (msg : string).
Arguments Ret {A} a.
Arguments Panic {A} msg.

Global Instance res_ret : MRet res := λ A a, Ret a.
Global Instance res_bind : MBind res := λ A B f m,
  match m with
  | Ret a => f a
  | Panic msg => Panic msg
  end.

(** Go's [a / b] on [int64]. *)
Definition go_div (a b : Z) : res Z :=
  if decide (b = 0) then Panic "integer divide by zero" else Ret (Z.quot a b).

(** ** Data model (chunk_store.go, lines 25-132) *)

Definition hashKey : string := "h".
Definition rangeKey : string := "r".
Definition chunkKey : string := "c".

Definition secondsInHour : Z := 3600.
Definition secondsInDay : Z := 86400.

(** [model.Time] is milliseconds since the epoch; [Unix] is
    [int64(t) / 1000]. *)
Definition Time_Unix (t : Z) : Z := Z.quot t 1000.

(** [time.Second] in [time.Duration] units (nanoseconds). *)
Definition time_Second : Z := 1000000000.

(** The fields of [Chunk] the store touches ([chunk.go] is not part of the
    sources; [Data] stands for the encoded samples). *)
Record Chunk := mkChunk {
  ID : string;
  From : Z;
  Through : Z;
  Metric : gmap string string;
  Data : bytes;
  metadataInIndex : bool
}.

Definition MetricNameLabel : string := "__name__".

Record AttributeValue := mkAttr {
  attr_S : option string;
  attr_B : option bytes
}.

Record WriteRequest := mkWriteRequest {
  PutRequest_Item : gmap string AttributeValue
}.

Inductive ComparisonOperator := EQ | BEGINS_WITH.

Record Condition := mkCondition {
  AttributeValueList : list AttributeValue;
  Operator : ComparisonOperator
}.

Record QueryInput := mkQueryInput {
  q_TableName : string;
  KeyConditions : gmap string Condition
}.

(** One page of a DynamoDB query: its rows, or the provider's error. *)
Record QueryOutput := mkQueryOutput {
  Items : list (gmap string AttributeValue)
}.

Record S3Client := mkS3 {
  PutObject : string → string → bytes → option error;
  GetObject : string → string → result bytes
}.

Record DynamoDBClient := mkDynamo {
  BatchWriteItem : gmap string (list WriteRequest) → option error;
  Query : QueryInput → list (result QueryOutput)
}.

(** The chunk cache ([*Cache]), by the three methods the store calls. *)
Record Cache := mkCache {
  StoreChunkData : string → Chunk → option error;
  FetchChunkData : string → list Chunk → list Chunk * list Chunk * option error;
  StoreChunks : string → list Chunk → option error
}.

Record PeriodicTableConfig := mkPeriodic {
  UsePeriodicTables : bool;
  TablePrefix : string;
  TablePeriod : Z;            (* time.Duration, nanoseconds *)
  PeriodicTableStartAt : Z    (* time.Time, by its Unix() seconds *)
}.

Record StoreConfig := mkStoreConfig {
  S3 : S3Client;
  BucketName : string;
  DynamoDB : DynamoDBClient;
  TableName : string;
  ChunkCache : option Cache;
  DailyBucketsFrom : Z;
  periodic : PeriodicTableConfig
}.

Record bucketSpec := mkBucketSpec {
  tableName : string;
  bucket : string
}.

Global Instance bucketSpec_eq_dec : EqDecision bucketSpec.
Proof. solve_decision. Defined.

(** ** The bucket planner (chunk_store.go, lines 141-183) *)

Definition tableForBucket (cfg : StoreConfig) (bucketStart : Z) : res string :=
  if negb (UsePeriodicTables (periodic cfg))
     || bool_decide (bucketStart < PeriodicTableStartAt (periodic cfg))
  then Ret (TableName cfg)
  else
    idx ← go_div bucketStart (Z.quot (TablePeriod (periodic cfg)) time_Second);
    Ret (TablePrefix (periodic cfg) +:+ pretty idx).

(** [for i := fromHour; i <= throughHour; i++], with its [break]. *)
Fixpoint hourlyLoop (cfg : StoreConfig) (n : nat) (i throughHour lastHourlyBucket : Z)
    (result : list bucketSpec) : res (list bucketSpec) :=
  match n with
  | O => Ret result
  | S n' =>
      if bool_decide (i <= throughHour) then
        if bool_decide (i >= lastHourlyBucket) then Ret result
        else
          t ← tableForBucket cfg (i * secondsInHour);
          hourlyLoop cfg n' (i + 1) throughHour lastHourlyBucket
            (result ++ [mkBucketSpec t (pretty i)])
      else Ret result
  end.

(** [for i := fromDay; i <= throughDay; i++], with its [continue]. *)
Fixpoint dailyLoop (cfg : StoreConfig) (n : nat) (i throughDay firstDailyBucket : Z)
    (result : list bucketSpec) : res (list bucketSpec) :=
  match n with
  | O => Ret result
  | S n' =>
      if bool_decide (i <= throughDay) then
        if bool_decide (i < firstDailyBucket)
        then dailyLoop cfg n' (i + 1) throughDay firstDailyBucket result
        else
          t ← tableForBucket cfg (i * secondsInDay);
          dailyLoop cfg n' (i + 1) throughDay firstDailyBucket
            (result ++ [mkBucketSpec t ("d" +:+ pretty i)])
      else Ret result
  end.

(** Number of iterations after which [i <= bound] has become false. *)
Definition trips (from bound : Z) : nat := Z.to_nat (bound - from + 1).

Definition bigBuckets (cfg : StoreConfig) (from through : Z) : res (list bucketSpec) :=
  let fromHour := Z.quot (Time_Unix from) secondsInHour in
  let throughHour := Z.quot (Time_Unix through) secondsInHour in
  let fromDay := Z.quot (Time_Unix from) secondsInDay in
  let throughDay := Z.quot (Time_Unix through) secondsInDay in
  let firstDailyBucket := Z.quot (Time_Unix (DailyBucketsFrom cfg)) secondsInDay in
  let lastHourlyBucket := firstDailyBucket * 24 in
  result ← hourlyLoop cfg (trips fromHour throughHour) fromHour throughHour lastHourlyBucket [];
  dailyLoop cfg (trips fromDay throughDay) fromDay throughDay firstDailyBucket result.

(** ** Collaborators that are not under [src/]

    Code of this repository and of its libraries that the store calls but
    whose text is not part of the sources is taken as a parameter: one
    field per function, with the function's Go signature. *)

Inductive MatchType := Equal | NotEqual | RegexMatch | RegexNoMatch.

Global Instance MatchType_eq_dec : EqDecision MatchType.
Proof. solve_decision. Defined.

Record LabelMatcher := mkMatcher {
  m_Type : MatchType;
  m_Name : string;
  m_Value : string
}.

Record Deps := mkDeps {
  (* chunk.go *)
  reader : Chunk → result bytes;
  decode : Chunk → bytes → result Chunk;
  parseChunkID : string → result (Z * Z * Z);
  merge : list Chunk → list Chunk → list Chunk;
  nWayIntersect : list (list Chunk) → list Chunk;
  unique : list Chunk → list Chunk;
  (* github.com/sburnett/lexicographic-tuples *)
  lex_Encode : list string → result bytes;
  lex_Decode3 : bytes → result (string * string * string);
  (* encoding/json, into an existing chunk *)
  json_Unmarshal : bytes → Chunk → result Chunk;
  (* metric.LabelMatcher.Match *)
  Match : LabelMatcher → string → bool
}.

(** The request context, by the one value the store reads from it. *)
Record Context := mkContext {
  ctx_userID : option string
}.

(** Modelled from the spec: [user.GetID] (package [user] is not under
    [src/]).  "Extract tenant from the ambient request context; fail with
    ErrNoTenant if absent." *)
Definition user_GetID (ctx : Context) : result string :=
  match ctx_userID ctx with
  | Some u => Ok u
  | None => Err "ErrNoTenant"
  end.

(** ** Events and the trace monad *)

Inductive event :=
| EvS3Put (bucketName key : string) (body : bytes)
| EvS3Get (bucketName key : string)
| EvCacheStoreData (userID : string) (c : Chunk)
| EvCacheFetch (userID : string) (cs : list Chunk)
| EvCacheStore (userID : string) (cs : list Chunk)
| EvBatchWrite (writes : gmap string (list WriteRequest))
| EvQuery (input : QueryInput)
| EvObserve (histogram : string) (v : Z).

Definition trace := list event.

Definition M (A : Type) : Type := trace → res A * trace.

Global Instance M_ret : MRet M := λ A a tr, (Ret a, tr).
Global Instance M_bind : MBind M := λ A B f m tr,
  match m tr with
  | (Ret a, tr') => f a tr'
  | (Panic msg, tr') => (Panic msg, tr')
  end.

Definition emit (e : event) : M unit := λ tr, (Ret tt, tr ++ [e]).
Definition lift_res {A} (r : res A) : M A := λ tr, (r, tr).

(** The order in which the results of a fan-out reach the collecting loop. *)
Definition schedule : Type := ∀ A : Type, list A → list A.

Definition fair (s : schedule) : Prop := ∀ (A : Type) (l : list A), s A l ≡ₚ l.

Record Scheds := mkScheds {
  put_sched : schedule;
  bucket_sched : schedule;
  matcher_sched : bucketSpec → schedule;
  fetch_sched : schedule
}.

(** ** Keys (chunk_store.go, lines 185-202) *)

Definition chunkName (userID chunkID : string) : string :=
  userID +:+ "/" +:+ chunkID.

Definition hashValue (userID bucket metricName : string) : string :=
  userID +:+ ":" +:+ bucket +:+ ":" +:+ metricName.

Definition rangeValue (D : Deps) (label value chunkID : string) : result bytes :=
  lex_Encode D [label; value; chunkID].

Definition parseRangeValue (D : Deps) (v : bytes) : result (string * string * string) :=
  lex_Decode3 D v.

(** ** Put (chunk_store.go, lines 204-313) *)

Definition putChunk (D : Deps) (cfg : StoreConfig) (userID : string) (chunk : Chunk)
    : M (option error) :=
  match reader D chunk with
  | Err e => mret (Some e)
  | Ok body =>
      let key := chunkName userID (ID chunk) in
      _ ← emit (EvS3Put (BucketName cfg) key body);
      match PutObject (S3 cfg) (BucketName cfg) key body with
      | Some e => mret (Some e)
      | None =>
          match ChunkCache cfg with
          | Some cache =>
              (* the cache's error is logged and dropped *)
              _ ← emit (EvCacheStoreData userID chunk);
              mret None
          | None => mret None
          end
      end
  end.

(** The receiving loop of [putChunks]: one result per task, in the order
    of arrival.  The calls of a task are recorded where its result is
    received.  The goroutines run concurrently, so among the events of
    one fan-out only which events there are is meaningful, not their
    order; all of them precede what follows the loop, which ends only
    when every task has reported. *)
Fixpoint putChunks_recv (D : Deps) (cfg : StoreConfig) (userID : string)
    (arrivals : list Chunk) (lastErr : option error) : M (option error) :=
  match arrivals with
  | [] => mret lastErr
  | chunk :: rest =>
      err ← putChunk D cfg userID chunk;
      putChunks_recv D cfg userID rest
        (match err with Some e => Some e | None => lastErr end)
  end.

Definition putChunks (s : Scheds) (D : Deps) (cfg : StoreConfig) (userID : string)
    (chunks : list Chunk) : M (option error) :=
  putChunks_recv D cfg userID (put_sched s Chunk chunks) None.

Definition writeMap : Type := gmap string (list WriteRequest).

(** [for label, value := range chunk.Metric] (in the order of
    [map_to_list]; Go leaves the order open). *)
Fixpoint labelLoop (D : Deps) (hv : string) (b : bucketSpec) (chunk : Chunk)
    (labels : list (string * string)) (writeReqs : writeMap) (entries : Z)
    : result (writeMap * Z) :=
  match labels with
  | [] => Ok (writeReqs, entries)
  | (label, value) :: rest =>
      if decide (label = MetricNameLabel)
      then labelLoop D hv b chunk rest writeReqs entries
      else
        match rangeValue D label value (ID chunk) with
        | Err e => Err e
        | Ok rv =>
            let req := mkWriteRequest
              {[ hashKey := mkAttr (Some hv) None; rangeKey := mkAttr None (Some rv) ]} in
            labelLoop D hv b chunk rest
              (<[ tableName b := default [] (writeReqs !! tableName b) ++ [req] ]> writeReqs)
              (entries + 1)
        end
  end.

(** [for _, bucket := range c.bigBuckets(chunk.From, chunk.Through)] *)
Fixpoint bucketLoop (D : Deps) (userID metricName : string) (chunk : Chunk)
    (buckets : list bucketSpec) (writeReqs : writeMap) (entries : Z)
    : result (writeMap * Z) :=
  match buckets with
  | [] => Ok (writeReqs, entries)
  | b :: rest =>
      match labelLoop D (hashValue userID (bucket b) metricName) b chunk
              (map_to_list (Metric chunk)) writeReqs entries with
      | Err e => Err e
      | Ok (writeReqs', entries') =>
          bucketLoop D userID metricName chunk rest writeReqs' entries'
      end
  end.

(** [for _, chunk := range chunks] *)
Fixpoint chunkLoop (D : Deps) (cfg : StoreConfig) (userID : string)
    (chunks : list Chunk) (writeReqs : writeMap) : M (result writeMap) :=
  match chunks with
  | [] => mret (Ok writeReqs)
  | chunk :: rest =>
      match Metric chunk !! MetricNameLabel with
      | None => mret (Err "no MetricNameLabel for chunk")
      | Some metricName =>
          buckets ← lift_res (bigBuckets cfg (From chunk) (Through chunk));
          match bucketLoop D userID metricName chunk buckets writeReqs 0 with
          | Err e => mret (Err e)
          | Ok (writeReqs', entries) =>
              _ ← emit (EvObserve "cortex_chunk_store_index_entries_per_chunk" entries);
              chunkLoop D cfg userID rest writeReqs'
          end
      end
  end.

Definition calculateDynamoWrites (D : Deps) (cfg : StoreConfig) (userID : string)
    (chunks : list Chunk) : M (result writeMap) :=
  chunkLoop D cfg userID chunks ∅.

(** Modelled from the spec: [dynamoDBBackoffClient.batchWriteDynamo] (the
    backoff client is not under [src/]).  "batchWrite(writes): chunks
    writes into provider-allowed batch sizes; [...] retries the unprocessed
    subset [...]; returns the first non-retriable error."  The batching and
    the retries are the provider's business: one event, one verdict. *)
Definition batchWriteDynamo (cfg : StoreConfig) (writes : writeMap) : M (option error) :=
  _ ← emit (EvBatchWrite writes);
  mret (BatchWriteItem (DynamoDB cfg) writes).

Definition updateIndex (D : Deps) (cfg : StoreConfig) (userID : string)
    (chunks : list Chunk) : M (option error) :=
  r ← calculateDynamoWrites D cfg userID chunks;
  match r with
  | Err e => mret (Some e)
  | Ok writeReqs => batchWriteDynamo cfg writeReqs
  end.

Definition Put (s : Scheds) (D : Deps) (cfg : StoreConfig) (ctx : Context)
    (chunks : list Chunk) : M (option error) :=
  match user_GetID ctx with
  | Err e => mret (Some e)
  | Ok userID =>
      err ← putChunks s D cfg userID chunks;
      match err with
      | Some e => mret (Some e)
      | None => updateIndex D cfg userID chunks
      end
  end.

(** ** Get (chunk_store.go, lines 315-623) *)

(** A [*metric.LabelMatcher] is nil or an address in a heap of matchers.
    The variadic [matchers] of [Get] is the caller's slice: its backing
    array is passed along and handed back as it stands on return. *)
Definition ptr : Type := option nat.
Definition heap : Type := gmap nat LabelMatcher.

Definition deref (h : heap) (p : ptr) : res LabelMatcher :=
  match p with
  | None => Panic "nil pointer dereference"
  | Some l =>
      match h !! l with
      | Some m => Ret m
      | None => Panic "invalid memory address"
      end
  end.

(** [copy(a[dlo:], a[slo:])] on one backing array [a]: the source elements
    are read before any is written (memmove); returns the array and the
    number of elements copied. *)
Definition go_copy {A} (a : list A) (dlo slo : nat) : list A * nat :=
  let src := drop slo a in
  let n := Nat.min (length (drop dlo a)) (length src) in
  (take dlo a ++ take n src ++ drop (dlo + n)%nat a, n).

(** The result of [extractMetricName], with the backing array after it. *)
Record extracted := mkExtracted {
  ex_metricName : string;
  ex_matchers : list ptr;
  ex_err : option error;
  ex_array : list ptr
}.

Fixpoint extractMetricName_from (h : heap) (a : list ptr) (i : nat) (rest : list ptr)
    : res extracted :=
  match rest with
  | [] => Ret (mkExtracted "" [] (Some "no matcher for MetricNameLabel") a)
  | p :: rest' =>
      matcher ← deref h p;
      if bool_decide (m_Name matcher ≠ MetricNameLabel)
      then extractMetricName_from h a (S i) rest'
      else if bool_decide (m_Type matcher ≠ Equal)
      then Ret (mkExtracted "" [] (Some "must have equality matcher for MetricNameLabel") a)
      else
        let '(a', n) := go_copy a i (S i) in
        Ret (mkExtracted (m_Value matcher) (take (i + n)%nat a') None a')
  end.

Definition extractMetricName (h : heap) (matchers : list ptr) : res extracted :=
  extractMetricName_from h matchers 0%nat matchers.

(** Modelled from the spec: [sort.Sort(ByID(...))] ([ByID] is declared in
    [chunk.go], not under [src/]).  "Results are returned sorted by chunk
    ID." *)
Definition ByID_le (c1 c2 : Chunk) : Prop := String.leb (ID c1) (ID c2) = true.

Global Instance ByID_le_dec : RelDecision ByID_le.
Proof. intros c1 c2. unfold ByID_le. apply _. Defined.

Definition sortByID (cs : list Chunk) : list Chunk := merge_sort ByID_le cs.

(** [item[chunkKey]] with a non-nil [B]: the inlined chunk metadata. *)
Definition inlinedChunk (item : gmap string AttributeValue) : option bytes :=
  match item !! chunkKey with
  | Some chunkValue => attr_B chunkValue
  | None => None
  end.

(** [processResponse], with [*chunkSet] passed in and handed back. *)
Fixpoint processResponse_items (D : Deps) (items : list (gmap string AttributeValue))
    (chunkSet : list Chunk) (matcher : option LabelMatcher) (dropped : Z)
    : res (Z * option error * list Chunk) :=
  match items with
  | [] => Ret (dropped, None, chunkSet)
  | item :: rest =>
      match item !! rangeKey with
      | None => Panic "nil pointer dereference"
      | Some rv =>
          match attr_B rv with
          | None => Ret (dropped, Some "invalid item", chunkSet)
          | Some rangeValue =>
              match parseRangeValue D rangeValue with
              | Err e => Ret (dropped, Some e, chunkSet)
              | Ok (label, value, chunkID) =>
                  let chunk := mkChunk chunkID 0 0 ∅ "" false in
                  let decoded :=
                    match inlinedChunk item with
                    | Some b =>
                        match json_Unmarshal D b chunk with
                        | Err e => Err e
                        | Ok c => Ok (mkChunk (ID c) (From c) (Through c) (Metric c) (Data c) true)
                        end
                    | None => Ok chunk
                    end in
                  match decoded with
                  | Err e => Ret (dropped, Some e, chunkSet)
                  | Ok chunk =>
                      match matcher with
                      | Some m =>
                          if bool_decide (label ≠ m_Name m) || negb (Match D m value)
                          then processResponse_items D rest chunkSet matcher (dropped + 1)
                          else processResponse_items D rest (chunkSet ++ [chunk]) matcher dropped
                      | None =>
                          processResponse_items D rest (chunkSet ++ [chunk]) matcher dropped
                      end
                  end
              end
          end
      end
  end.

Definition processResponse (D : Deps) (resp : QueryOutput) (chunkSet : list Chunk)
    (matcher : option LabelMatcher) : res (Z * option error * list Chunk) :=
  processResponse_items D (Items resp) chunkSet matcher 0.

(** The variables the page visitor closes over. *)
Record lookupState := mkLookupState {
  chunkSet : list Chunk;
  processingError : option error;
  pages : Z;
  totalDropped : Z
}.

(** The closure passed to [queryPages] (lines 474-480 and 531-537; the two
    have the same body up to the matcher handed to [processResponse]). *)
Definition pageVisitor (D : Deps) (matcher : option LabelMatcher)
    (st : lookupState) (resp : QueryOutput) (lastPage : bool) : res (lookupState * bool) :=
  '(dropped, perr, cs) ← processResponse D resp (chunkSet st) matcher;
  Ret (mkLookupState cs perr (pages st + 1) (totalDropped st + dropped),
       bool_decide (perr ≠ None) && negb lastPage).

(** Modelled from the spec: [dynamoDBBackoffClient.queryPages] (not under
    [src/]).  "queryPages(input, visit(page, lastPage) → shouldContinue):
    drives pagination; stops when visitor returns false or no continuation
    token remains; propagates provider errors verbatim."  The provider's
    answer to [input] is its list of pages. *)
Fixpoint queryPages_from {S : Type} (input : QueryInput) (remaining : list (result QueryOutput))
    (visit : S → QueryOutput → bool → res (S * bool)) (st : S) : M (S * option error) :=
  match remaining with
  | [] => mret (st, None)
  | r :: rest =>
      _ ← emit (EvQuery input);
      match r with
      | Err e => mret (st, Some e)
      | Ok resp =>
          let lastPage := match rest with [] => true | _ => false end in
          visited ← lift_res (visit st resp lastPage);
          let st' : S := visited.1 in
          let shouldContinue : bool := visited.2 in
          if shouldContinue then queryPages_from input rest visit st'
          else mret (st', None)
      end
  end.

Definition queryPages {S : Type} (cfg : StoreConfig) (input : QueryInput)
    (visit : S → QueryOutput → bool → res (S * bool)) (st : S) : M (S * option error) :=
  queryPages_from input (Query (DynamoDB cfg) input) visit st.

(** The two deferred histogram observations. *)
Definition observeLookup (st : lookupState) : M unit :=
  _ ← emit (EvObserve "cortex_query_dynamo_request_pages" (pages st));
  emit (EvObserve "cortex_query_dynamo_dropped_matches_total" (totalDropped st)).

Definition lookupChunksForMetricName (D : Deps) (cfg : StoreConfig) (userID : string)
    (b : bucketSpec) (metricName : string) : M (list Chunk * Z * option error) :=
  let hv := hashValue userID (bucket b) metricName in
  let input := mkQueryInput (tableName b)
    {[ hashKey := mkCondition [mkAttr (Some hv) None] EQ ]} in
  '(st, err) ← queryPages cfg input (pageVisitor D None) (mkLookupState [] None 0 0);
  _ ← observeLookup st;
  match err with
  | Some e => mret ([], 1, Some e)
  | None =>
      match processingError st with
      | Some e => mret ([], 1, Some e)
      | None => mret (unique D (sortByID (chunkSet st)), 1, None)
      end
  end.

Definition lookupChunksForMatcher (D : Deps) (cfg : StoreConfig) (h : heap) (userID : string)
    (b : bucketSpec) (metricName : string) (p : ptr) : M (list Chunk * option error) :=
  let hv := hashValue userID (bucket b) metricName in
  matcher ← lift_res (deref h p);
  match (if decide (m_Type matcher = Equal)
         then lex_Encode D [m_Name matcher; m_Value matcher]
         else lex_Encode D [m_Name matcher]) with
  | Err e => mret ([], Some e)
  | Ok rangePrefix =>
      let input := mkQueryInput (tableName b)
        {[ hashKey := mkCondition [mkAttr (Some hv) None] EQ;
           rangeKey := mkCondition [mkAttr None (Some rangePrefix)] BEGINS_WITH ]} in
      '(st, err) ← queryPages cfg input (pageVisitor D (Some matcher)) (mkLookupState [] None 0 0);
      _ ← observeLookup st;
      match err with
      | Some e => mret ([], Some e)
      | None =>
          match processingError st with
          | Some e => mret ([], Some e)
          | None => mret (sortByID (chunkSet st), None)
          end
      end
  end.

(** The receiving loop of [lookupChunksFor]: one result per matcher. *)
Fixpoint lookupChunksFor_recv (D : Deps) (cfg : StoreConfig) (h : heap) (userID : string)
    (b : bucketSpec) (metricName : string) (arrivals : list ptr)
    (chunkSets : list (list Chunk)) (lastErr : option error)
    : M (list (list Chunk) * option error) :=
  match arrivals with
  | [] => mret (chunkSets, lastErr)
  | p :: rest =>
      '(incoming, err) ← lookupChunksForMatcher D cfg h userID b metricName p;
      match err with
      | Some e => lookupChunksFor_recv D cfg h userID b metricName rest chunkSets (Some e)
      | None =>
          lookupChunksFor_recv D cfg h userID b metricName rest (chunkSets ++ [incoming]) lastErr
      end
  end.

Definition lookupChunksFor (s : Scheds) (D : Deps) (cfg : StoreConfig) (h : heap)
    (userID : string) (b : bucketSpec) (metricName : string) (matchers : list ptr)
    : M (list Chunk * Z * option error) :=
  match matchers with
  | [] => lookupChunksForMetricName D cfg userID b metricName
  | _ =>
      '(chunkSets, lastErr) ←
        lookupChunksFor_recv D cfg h userID b metricName
          (matcher_sched s b ptr matchers) [] None;
      mret (nWayIntersect D chunkSets, Z.of_nat (length matchers), lastErr)
  end.

(** The receiving loop of [lookupChunks]: one result per bucket. *)
Fixpoint lookupChunks_recv (s : Scheds) (D : Deps) (cfg : StoreConfig) (h : heap)
    (userID : string) (metricName : string) (matchers : list ptr)
    (arrivals : list bucketSpec) (chunks : list Chunk) (lastErr : option error)
    (totalLookups : Z) : M (list Chunk * option error * Z) :=
  match arrivals with
  | [] => mret (chunks, lastErr, totalLookups)
  | b :: rest =>
      '(incoming, lookups, err) ← lookupChunksFor s D cfg h userID b metricName matchers;
      match err with
      | Some e =>
          lookupChunks_recv s D cfg h userID metricName matchers rest chunks (Some e)
            (totalLookups + lookups)
      | None =>
          lookupChunks_recv s D cfg h userID metricName matchers rest
            (merge D chunks incoming) lastErr (totalLookups + lookups)
      end
  end.

(** The time filter of [lookupChunks] (lines 402-413). *)
Fixpoint filterByTime (D : Deps) (from through : Z) (chunks filtered : list Chunk)
    : result (list Chunk) :=
  match chunks with
  | [] => Ok filtered
  | chunk :: rest =>
      match parseChunkID D (ID chunk) with
      | Err e => Err e
      | Ok (_, chunkFrom, chunkThrough) =>
          if bool_decide (chunkThrough < from) || bool_decide (through < chunkFrom)
          then filterByTime D from through rest filtered
          else filterByTime D from through rest (filtered ++ [chunk])
      end
  end.

(** [lookupChunks]; the third component is the caller's backing array. *)
Definition lookupChunks (s : Scheds) (D : Deps) (cfg : StoreConfig) (h : heap)
    (userID : string) (from through : Z) (matchers : list ptr)
    : M (list Chunk * option error * list ptr) :=
  ex ← lift_res (extractMetricName h matchers);
  match ex_err ex with
  | Some e => mret ([], Some e, ex_array ex)
  | None =>
      buckets ← lift_res (bigBuckets cfg from through);
      '(chunks, lastErr, totalLookups) ←
        lookupChunks_recv s D cfg h userID (ex_metricName ex) (ex_matchers ex)
          (bucket_sched s bucketSpec buckets) [] None 0;
      match filterByTime D from through chunks [] with
      | Err e => mret ([], Some e, ex_array ex)
      | Ok filtered =>
          _ ← emit (EvObserve "cortex_query_dynamo_lookups" totalLookups);
          mret (filtered, lastErr, ex_array ex)
      end
  end.

(** One task of [fetchChunkData]. *)
Definition fetchChunk (D : Deps) (cfg : StoreConfig) (userID : string) (chunk : Chunk)
    : M (result Chunk) :=
  let key := chunkName userID (ID chunk) in
  _ ← emit (EvS3Get (BucketName cfg) key);
  match GetObject (S3 cfg) (BucketName cfg) key with
  | Err e => mret (Err e)
  | Ok body => mret (decode D chunk body)
  end.

(** The receiving loop of [fetchChunkData]: one chunk or one error per
    task, in the order of arrival.  As in [putChunks_recv], the S3 GET
    of a task is recorded where its result is received, and only which
    GETs there are is meaningful, not their order. *)
Fixpoint fetchChunkData_recv (D : Deps) (cfg : StoreConfig) (userID : string)
    (arrivals : list Chunk) (chunks : list Chunk) (errors : list error)
    : M (list Chunk * list error) :=
  match arrivals with
  | [] => mret (chunks, errors)
  | chunk :: rest =>
      r ← fetchChunk D cfg userID chunk;
      match r with
      | Ok c => fetchChunkData_recv D cfg userID rest (chunks ++ [c]) errors
      | Err e => fetchChunkData_recv D cfg userID rest chunks (errors ++ [e])
      end
  end.

Definition fetchChunkData (s : Scheds) (D : Deps) (cfg : StoreConfig) (userID : string)
    (chunkSet : list Chunk) : M (list Chunk * option error) :=
  '(chunks, errors) ← fetchChunkData_recv D cfg userID (fetch_sched s Chunk chunkSet) [] [];
  match errors with
  | e :: _ => mret ([], Some e)
  | [] => mret (chunks, None)
  end.

(** What [Get] hands back: its two results and the caller's slice. *)
Record getResult := mkGetResult {
  got : list Chunk;
  got_err : option error;
  caller_matchers : list ptr
}.

Definition Get (s : Scheds) (D : Deps) (cfg : StoreConfig) (h : heap) (ctx : Context)
    (from through : Z) (matchers : list ptr) : M getResult :=
  match user_GetID ctx with
  | Err e => mret (mkGetResult [] (Some e) matchers)
  | Ok userID =>
      '(missing, err, arr) ← lookupChunks s D cfg h userID from through matchers;
      match err with
      | Some e => mret (mkGetResult [] (Some e) arr)
      | None =>
          _ ← emit (EvObserve "cortex_query_chunks" (Z.of_nat (length missing)));
          '(fromCache, missing) ←
            match ChunkCache cfg with
            | Some cache =>
                _ ← emit (EvCacheFetch userID missing);
                let '(found, missing', _) := FetchChunkData cache userID missing in
                mret (found, missing')
            | None => mret ([], missing)
            end;
          '(fromS3, err) ← fetchChunkData s D cfg userID missing;
          match err with
          | Some e => mret (mkGetResult [] (Some e) arr)
          | None =>
              _ ← match ChunkCache cfg with
                  | Some cache => emit (EvCacheStore userID fromS3)
                  | None => mret tt
                  end;
              mret (mkGetResult (sortByID (fromCache ++ fromS3)) None arr)
          end
      end
  end.

(** ** The ruler (ruler.go)

    Channels are nil or an address in a store that records, per channel,
    whether it has been closed.  A goroutine is followed on its own: its
    outcome says whether it returned, panicked, is parked on a receive that
    only another goroutine can release, or is still in its loop when the
    supplied answers of the scheduler run out. *)

Definition chan : Type := option nat.
Definition chanStore : Type := gmap nat bool.

Definition go_close (c : chan) (σ : chanStore) : res chanStore :=
  match c with
  | None => Panic "close of nil channel"
  | Some l =>
      match σ !! l with
      | Some false => Ret (<[l := true]> σ)
      | Some true => Panic "close of closed channel"
      | None => Panic "invalid memory address"
      end
  end.

(** Whether [<-c] can proceed at once: never on a nil channel, and on a
    channel nobody sends on only once it is closed. *)
Definition recv_ready (c : chan) (σ : chanStore) : bool :=
  match c with
  | None => false
  | Some l => bool_decide (σ !! l = Some true)
  end.

Inductive outcome :=
| Returned
| Panicked (msg : string)
| Parked
| InLoop.

Record workItem := mkWorkItem {
  userID : string;
  rules : list string
}.

Inductive rulerEvent :=
| EvNextWorkItem (item : option workItem)
| EvEvaluate (tenant : string) (rs : list string)
| EvRulesProcessed (n : nat)
| EvWorkItemDone (item : workItem)
| EvSchedulerStop.

Record Config := mkConfig {
  ConfigsAPIURL : string;
  ExternalURL : string;
  EvaluationInterval : Z;
  NumWorkers : Z
}.

(** The fields of [worker] that are channels; the scheduler is reached
    through the events, the ruler through [Evaluate]. *)
Record worker := mkWorker {
  done : chan;
  terminated : chan
}.

(** What one turn of the worker's loop meets: whether [w.done] is closed
    by then, and the answer of [scheduler.nextWorkItem].  Other
    goroutines may close [done] between two turns, so the flag is given
    turn by turn; [turnsFrom] below gives the turns of a worker that
    runs against an unchanging channel store. *)
Record turn := mkTurn {
  done_closed : bool;
  next : option workItem
}.

(** [Ruler.Evaluate]: the group evaluation and the counter update. *)
Definition Evaluate (tenant : string) (rs : list string) : list rulerEvent :=
  [EvEvaluate tenant rs; EvRulesProcessed (length rs)].

(** [select { case <-w.done: return; default: }] *)
Definition done_selected (w : worker) (t : turn) : bool :=
  match done w with
  | None => false
  | Some _ => done_closed t
  end.

(** [defer close(w.terminated)] at the return of [Run]. *)
Definition run_exit (w : worker) (σ : chanStore) (tr : list rulerEvent)
    : outcome * chanStore * list rulerEvent :=
  match go_close (terminated w) σ with
  | Ret σ' => (Returned, σ', tr)
  | Panic msg => (Panicked msg, σ, tr)
  end.

Module Ruler.

(** [src/ruler/ruler.go], lines 87-174. *)

Record server := mkServer {
  workers : list worker
}.

Definition newWorker : worker := mkWorker None None.

(** [url_Parse] stands for [net/url.Parse]; [newScheduler] (scheduler.go,
    not under [src/]) only builds the scheduler the workers share. *)
Definition NewServer (url_Parse : string → option error) (cfg : Config) : result server :=
  match url_Parse (ConfigsAPIURL cfg) with
  | Some e => Err e
  | None =>
      if bool_decide (NumWorkers cfg <= 0)
      then Err "Must have at least 1 worker"
      else Ok (mkServer (replicate (Z.to_nat (NumWorkers cfg)) newWorker))
  end.

Fixpoint Run (w : worker) (turns : list turn) (σ : chanStore) (tr : list rulerEvent)
    : outcome * chanStore * list rulerEvent :=
  match turns with
  | [] => (InLoop, σ, tr)
  | t :: rest =>
      if done_selected w t then run_exit w σ tr
      else
        match next t with
        | None => run_exit w σ (tr ++ [EvNextWorkItem None])
        | Some item =>
            Run w rest σ
              (tr ++ [EvNextWorkItem (Some item)] ++ Evaluate (userID item) (rules item))
        end
  end.

Definition worker_Stop (w : worker) (σ : chanStore) : outcome * chanStore :=
  match go_close (done w) σ with
  | Panic msg => (Panicked msg, σ)
  | Ret σ' => if recv_ready (terminated w) σ' then (Returned, σ') else (Parked, σ')
  end.

(** [for _, w := range s.workers { w.Stop() }], then [s.scheduler.Stop()]. *)
Fixpoint Stop_workers (ws : list worker) (σ : chanStore) : outcome * chanStore :=
  match ws with
  | [] => (Returned, σ)
  | w :: rest =>
      match worker_Stop w σ with
      | (Returned, σ') => Stop_workers rest σ'
      | stuck => stuck
      end
  end.

Definition Stop (s : server) (σ : chanStore) : outcome * chanStore * list rulerEvent :=
  match Stop_workers (workers s) σ with
  | (Returned, σ') => (Returned, σ', [EvSchedulerStop])
  | (o, σ') => (o, σ', [])
  end.

End Ruler.

Module RulerRev.

(** The revision of [ruler.go] carried at the end of
    [src/chunk/chunk_store.go] (lines 624-801): [worker.Run] there acks
    each item; [newWorker] and [Stop] read as in [Ruler]. *)

Definition newWorker : worker := mkWorker None None.

Fixpoint Run (w : worker) (turns : list turn) (σ : chanStore) (tr : list rulerEvent)
    : outcome * chanStore * list rulerEvent :=
  match turns with
  | [] => (InLoop, σ, tr)
  | t :: rest =>
      if done_selected w t then run_exit w σ tr
      else
        match next t with
        | None => run_exit w σ (tr ++ [EvNextWorkItem None])
        | Some item =>
            Run w rest σ
              (tr ++ [EvNextWorkItem (Some item)] ++ Evaluate (userID item) (rules item)
                  ++ [EvWorkItemDone item])
        end
  end.

End RulerRev.

(** * Vocabulary of the statements *)

(** The bucket numbers the planner assigns to an instant, by the
    expressions [bigBuckets] applies to [from] and [through]. *)
Definition hourOf (t : Z) : Z := Z.quot (Time_Unix t) secondsInHour.
Definition dayOf (t : Z) : Z := Z.quot (Time_Unix t) secondsInDay.

Definition firstDailyBucket (cfg : StoreConfig) : Z := dayOf (DailyBucketsFrom cfg).
Definition lastHourlyBucket (cfg : StoreConfig) : Z := firstDailyBucket cfg * 24.

(** The hours of [fromHour, throughHour] below the cutover, ascending. *)
Definition hourlyRange (cfg : StoreConfig) (from through : Z) : list Z :=
  filter (λ h, h < lastHourlyBucket cfg) (seqZ (hourOf from) (hourOf through - hourOf from + 1)).

(** The days of [fromDay, throughDay] from the cutover on, ascending. *)
Definition dailyRange (cfg : StoreConfig) (from through : Z) : list Z :=
  filter (λ d, firstDailyBucket cfg <= d) (seqZ (dayOf from) (dayOf through - dayOf from + 1)).

Definition isHourly (cfg : StoreConfig) (b : bucketSpec) (h : Z) : Prop :=
  bucket b = pretty h ∧ tableForBucket cfg (h * secondsInHour) = Ret (tableName b).

Definition isDaily (cfg : StoreConfig) (b : bucketSpec) (d : Z) : Prop :=
  bucket b = "d" +:+ pretty d ∧ tableForBucket cfg (d * secondsInDay) = Ret (tableName b).

(** The range of Go's [int64]. *)
Definition int64 (z : Z) : Prop := -9223372036854775808 <= z <= 9223372036854775807.

(** The table period is usable: [tableForBucket] divides by it only when
    periodic tables are on. *)
Definition periodOK (cfg : StoreConfig) : Prop :=
  UsePeriodicTables (periodic cfg) = true →
  Z.quot (TablePeriod (periodic cfg)) time_Second ≠ 0.

(** Two configurations that agree on the fields of the bucketing scheme. *)
Definition sameScheme (cfg cfg' : StoreConfig) : Prop :=
  TableName cfg = TableName cfg' ∧ DailyBucketsFrom cfg = DailyBucketsFrom cfg' ∧
  periodic cfg = periodic cfg'.

(** ** Sample collaborators and configurations *)

Definition s3_ok : S3Client := mkS3 (λ _ _ _, None) (λ _ _, Ok "").
Definition dynamo_empty : DynamoDBClient := mkDynamo (λ _, None) (λ _, []).

Definition noPeriodic : PeriodicTableConfig := mkPeriodic false "" 0 0.

(** Daily buckets from the epoch on ([DailyBucketsFrom]'s zero value). *)
Definition cfg_epoch : StoreConfig :=
  mkStoreConfig s3_ok "chunks" dynamo_empty "base" None 0 noPeriodic.

(** Periodic tables switched on with the zero [TablePeriod]. *)
Definition cfg_zero_period : StoreConfig :=
  mkStoreConfig s3_ok "chunks" dynamo_empty "base" None 0 (mkPeriodic true "week" 0 0).

(** Daily buckets from day 2 on, weekly tables from the epoch on. *)
Definition cfg_weekly : StoreConfig :=
  mkStoreConfig s3_ok "chunks" dynamo_empty "base" None 172800000
    (mkPeriodic true "week" 604800000000000 0).

(** ** Vocabulary for Put *)

(** Running a computation on the empty trace. *)
Definition value_of {A} (m : M A) : res A := (m []).1.
Definition events_of {A} (m : M A) : trace := (m []).2.

(** A computation that returns [r] after emitting [evs], from any trace. *)
Definition runs {A} (m : M A) (r : res A) (evs : trace) : Prop :=
  ∀ tr, m tr = (r, tr ++ evs).

(** What the blob-write task of a chunk returns, and what it does. *)
Definition blobResult (D : Deps) (cfg : StoreConfig) (u : string) (c : Chunk) : option error :=
  match reader D c with
  | Err e => Some e
  | Ok body => PutObject (S3 cfg) (BucketName cfg) (chunkName u (ID c)) body
  end.

Definition blobEvents (D : Deps) (cfg : StoreConfig) (u : string) (c : Chunk) : trace :=
  match reader D c with
  | Err e => []
  | Ok body =>
      EvS3Put (BucketName cfg) (chunkName u (ID c)) body ::
      match PutObject (S3 cfg) (BucketName cfg) (chunkName u (ID c)) body, ChunkCache cfg with
      | None, Some _ => [EvCacheStoreData u c]
      | _, _ => []
      end
  end.


(** The blob-write task of chunk [c] has run: its S3 PUT is in the trace
    unless the chunk's body could not be read. *)
Definition blobTaskRan (D : Deps) (cfg : StoreConfig) (u : string) (c : Chunk)
    (tr : trace) : Prop :=
  ∀ body, reader D c = Ok body →
    EvS3Put (BucketName cfg) (chunkName u (ID c)) body ∈ tr.

Definition isObserve (e : event) : Prop :=
  match e with EvObserve _ _ => True | _ => False end.

Definition isBatchWrite (e : event) : Prop :=
  match e with EvBatchWrite _ => True | _ => False end.

(** The error the receiving loops keep: the last one of the sequence. *)
Definition lastError (lastErr : option error) (results : list (option error)) : option error :=
  match last (omap id results) with
  | Some e => Some e
  | None => lastErr
  end.

(** Schedules: results arrive in spawn order, or in the reverse order. *)
Definition sched_id : schedule := λ A l, l.
Definition sched_rev : schedule := λ A l, reverse l.

Definition scheds_id : Scheds := mkScheds sched_id sched_id (λ _, sched_id) sched_id.
Definition scheds_rev : Scheds := mkScheds sched_rev sched_rev (λ _, sched_rev) sched_rev.

(** ** Sample collaborators, chunks and contexts *)

(** Fields separated by a bar: a stand-in for the tuple encoding. *)
Fixpoint split_bar (s acc : string) : list string :=
  match s with
  | EmptyString => [String.rev acc]
  | String c s' =>
      if decide (c = "|"%char) then String.rev acc :: split_bar s' ""
      else split_bar s' (String c acc)
  end.

Definition sample_Encode (l : list string) : result bytes := Ok (String.concat "|" l).

Definition sample_Decode3 (b : bytes) : result (string * string * string) :=
  match split_bar b "" with
  | [x; y; z] => Ok (x, y, z)
  | _ => Err "lex: malformed tuple"
  end.

(** Chunk IDs [a], [b], [n] cover [0, 64000]; [late] covers
    [300000, 400000]; anything else does not parse. *)
Definition sample_parseChunkID (id : string) : result (Z * Z * Z) :=
  if decide (id = "late") then Ok (4, 300000, 400000)
  else if decide (id ∈ ["a"; "b"; "n"]) then Ok (1, 0, 64000)
  else Err "invalid chunk ID".

Definition sample_Match (m : LabelMatcher) (v : string) : bool :=
  match m_Type m with
  | Equal => bool_decide (v = m_Value m)
  | NotEqual => bool_decide (v ≠ m_Value m)
  | _ => true
  end.

Definition deps_sample : Deps := {|
  reader := λ c, Ok (Data c);
  decode := λ c body, Ok (mkChunk (ID c) (From c) (Through c) (Metric c) body (metadataInIndex c));
  parseChunkID := sample_parseChunkID;
  merge := λ a b, a ++ b;
  nWayIntersect := λ sets, match sets with s :: _ => s | [] => [] end;
  unique := λ cs, cs;
  lex_Encode := sample_Encode;
  lex_Decode3 := sample_Decode3;
  json_Unmarshal := λ _ c, Ok c;
  Match := sample_Match
|}.

Definition chunk_a : Chunk :=
  mkChunk "a" 0 64000 {[ "__name__" := "up"; "job" := "api" ]} "samples-a" false.
Definition chunk_b : Chunk :=
  mkChunk "b" 0 64000 {[ "__name__" := "up"; "job" := "db" ]} "samples-b" false.
(** A chunk without the [__name__] label. *)
Definition chunk_n : Chunk :=
  mkChunk "n" 0 64000 {[ "job" := "api" ]} "samples-n" false.

Definition ctx_u1 : Context := mkContext (Some "u1").
Definition ctx_anonymous : Context := mkContext None.

(** An S3 that refuses every PUT, naming the key in its error. *)
Definition s3_refusing : S3Client :=
  mkS3 (λ _ key _, Some ("refused " +:+ key)) (λ _ _, Err "no such key").

Definition cfg_refusing : StoreConfig :=
  mkStoreConfig s3_refusing "chunks" dynamo_empty "base" None 0 noPeriodic.

(** ** Vocabulary for Get *)

(** Events of the lookup phase, and events of the fetch phase. *)
Definition isLookupEvent (e : event) : Prop :=
  match e with EvQuery _ | EvObserve _ _ => True | _ => False end.

Definition isFetchEvent (e : event) : Prop :=
  match e with EvS3Get _ _ | EvCacheFetch _ _ | EvCacheStore _ _ => True | _ => False end.

(** A computation whose events all satisfy [P], from any trace. *)
Definition emits {A} (P : event → Prop) (m : M A) : Prop :=
  (∀ tr, m tr = (value_of m, tr ++ events_of m)) ∧ Forall P (events_of m).

(** What the lookup task of a bucket reports. *)
Definition bucketLookup (s : Scheds) (D : Deps) (cfg : StoreConfig) (h : heap) (u : string)
    (name : string) (ms : list ptr) (b : bucketSpec) : res (list Chunk * Z * option error) :=
  value_of (lookupChunksFor s D cfg h u b name ms).

(** The chunk sets of the successful buckets, merged in order of arrival. *)
Fixpoint mergeLookups (D : Deps) (rs : list (list Chunk * Z * option error))
    (chunks : list Chunk) : list Chunk :=
  match rs with
  | [] => chunks
  | (incoming, _, None) :: rest => mergeLookups D rest (merge D chunks incoming)
  | (_, _, Some _) :: rest => mergeLookups D rest chunks
  end.

Definition overlaps (D : Deps) (from through : Z) (c : Chunk) : Prop :=
  ∃ fp chunkFrom chunkThrough,
    parseChunkID D (ID c) = Ok (fp, chunkFrom, chunkThrough) ∧
    from <= chunkThrough ∧ chunkFrom <= through.

(** What the store relies on in its collaborators on the read path:
    decoding a body into a chunk keeps the chunk's ID, and the cache hands
    back (as hits or as misses) only chunks it was asked for. *)
Definition decode_keeps_ID (D : Deps) : Prop :=
  ∀ c body c', decode D c body = Ok c' → ID c' = ID c.

Definition cache_answers_request (cfg : StoreConfig) : Prop :=
  ∀ cache u req found missing err,
    ChunkCache cfg = Some cache →
    FetchChunkData cache u req = (found, missing, err) →
    ∀ c, c ∈ found ++ missing → ∃ c', c' ∈ req ∧ ID c = ID c'.

(** The caller's array after the matcher at [p] has been cut out: the
    tail moves one place to the left, the last slot keeps its element. *)
Definition shifted (pre : list ptr) (p : ptr) (post : list ptr) : list ptr :=
  pre ++ post ++ [default p (last post)].

Definition isOtherMatcher (h : heap) (p : ptr) : Prop :=
  ∃ m, deref h p = Ret m ∧ m_Name m ≠ MetricNameLabel.

(** ** Sample index, matchers and configurations for Get *)

Definition queriedHash (q : QueryInput) : string :=
  match KeyConditions q !! hashKey with
  | Some c =>
      match AttributeValueList c with
      | av :: _ => default "" (attr_S av)
      | [] => ""
      end
  | None => ""
  end.

Definition row (label value chunkID : string) : gmap string AttributeValue :=
  {[ rangeKey := mkAttr None (Some (label +:+ "|" +:+ value +:+ "|" +:+ chunkID)) ]}.

(** Every query is answered in two pages of one row each. *)
Definition dynamo_two_pages : DynamoDBClient :=
  mkDynamo (λ _, None)
    (λ _, [Ok (mkQueryOutput [row "job" "api" "a"]); Ok (mkQueryOutput [row "job" "db" "b"])]).

(** Hour 0 of tenant [u1] answers with chunk [a]; every other bucket is
    refused by the provider. *)
Definition dynamo_flaky : DynamoDBClient :=
  mkDynamo (λ _, None)
    (λ q, if decide (queriedHash q = "u1:0:up")
          then [Ok (mkQueryOutput [row "job" "api" "a"])]
          else [Err "throttled"]).

(** Hour 0 holds chunk [a] (in [0, 64000]) and chunk [late]. *)
Definition dynamo_hour0 : DynamoDBClient :=
  mkDynamo (λ _, None)
    (λ q, [Ok (mkQueryOutput [row "job" "api" "a"; row "job" "api" "late"])]).

(** Hourly buckets throughout (daily buckets from day 10 on). *)
Definition cfg_two_pages : StoreConfig :=
  mkStoreConfig s3_ok "chunks" dynamo_two_pages "base" None 864000000 noPeriodic.
Definition cfg_flaky : StoreConfig :=
  mkStoreConfig s3_ok "chunks" dynamo_flaky "base" None 864000000 noPeriodic.
Definition cfg_hour0 : StoreConfig :=
  mkStoreConfig s3_ok "chunks" dynamo_hour0 "base" None 864000000 noPeriodic.

Definition name_up : LabelMatcher := mkMatcher Equal "__name__" "up".
Definition job_api : LabelMatcher := mkMatcher Equal "job" "api".
Definition job_not_db : LabelMatcher := mkMatcher NotEqual "job" "db".

Definition heap_sample : heap := {[ 1%nat := name_up; 2%nat := job_api; 3%nat := job_not_db ]}.

(** What the fetch task of a chunk reports. *)
Definition fetchResult (D : Deps) (cfg : StoreConfig) (u : string) (c : Chunk) : result Chunk :=
  match GetObject (S3 cfg) (BucketName cfg) (chunkName u (ID c)) with
  | Err e => Err e
  | Ok body => decode D c body
  end.

(** The cache step of [Get]: hits and remaining misses. *)
Definition cacheSplit (cfg : StoreConfig) (u : string) (missing : list Chunk)
    : list Chunk * list Chunk :=
  match ChunkCache cfg with
  | Some cache => let '(found, missing', _) := FetchChunkData cache u missing in (found, missing')
  | None => ([], missing)
  end.

(** The chunk the index row of [a] yields, and the two hourly buckets of
    the range [0, 3600000]. *)
Definition indexed_a : Chunk := mkChunk "a" 0 0 ∅ "" false.
Definition hour0 : bucketSpec := mkBucketSpec "base" "0".
Definition hour1 : bucketSpec := mkBucketSpec "base" "1".

(** A cache that misses on every chunk. *)
Definition cache_cold : Cache :=
  mkCache (λ _ _, None) (λ _ req, ([], req, None)) (λ _ _, None).

Definition cfg_cached : StoreConfig :=
  mkStoreConfig s3_ok "chunks" dynamo_hour0 "base" (Some cache_cold) 864000000 noPeriodic.

(** The query [lookupChunksForMetricName] issues for a bucket. *)
Definition metricNameQuery (u : string) (b : bucketSpec) (name : string) : QueryInput :=
  mkQueryInput (tableName b)
    {[ hashKey := mkCondition [mkAttr (Some (hashValue u (bucket b) name)) None] EQ ]}.

(** ** Sample ruler configuration and work items *)

Definition cfg_two_workers : Config := mkConfig "http://configs" "http://alerts" 15000000000 2.

Definition item_A : workItem := mkWorkItem "A" ["rule-1"; "rule-2"].
Definition item_B : workItem := mkWorkItem "B" ["rule-3"].

(** The scheduler hands out [A], then [B], then reports the closed queue. *)
Definition turns_A_B_closed : list turn :=
  [mkTurn false (Some item_A); mkTurn false (Some item_B); mkTurn false None].

Definition isAck (e : rulerEvent) : Prop :=
  match e with EvWorkItemDone _ => True | _ => False end.

(** The events of one full turn of the revised worker on [item]. *)
Definition ackedTurn (item : workItem) : list rulerEvent :=
  [EvNextWorkItem (Some item); EvEvaluate (userID item) (rules item);
   EvRulesProcessed (length (rules item)); EvWorkItemDone item].

(** * Further vocabulary

    Definitions used by the statements about the rest of the code. *)

(** The starts, in Unix seconds, of the buckets the planner emits. *)
Definition plannedStarts (cfg : StoreConfig) (from through : Z) : list Z :=
  ((λ h, h * secondsInHour) <$> hourlyRange cfg from through) ++
  ((λ d, d * secondsInDay) <$> dailyRange cfg from through).

(** Whether the character [c] occurs in [s]. *)
Fixpoint contains (c : ascii) (s : string) : bool :=
  match s with
  | EmptyString => false
  | String a s' => bool_decide (a = c) || contains c s'
  end.

(** The S3 PUTs, the S3 GETs and the cache stores of a trace, in order. *)
Definition s3Puts (tr : trace) : list (string * string * bytes) :=
  omap (λ e, match e with EvS3Put b k body => Some (b, k, body) | _ => None end) tr.

Definition s3Gets (tr : trace) : list (string * string) :=
  omap (λ e, match e with EvS3Get b k => Some (b, k) | _ => None end) tr.

Definition cacheStores (tr : trace) : list (string * Chunk) :=
  omap (λ e, match e with EvCacheStoreData u c => Some (u, c) | _ => None end) tr.

(** The S3 PUT the blob task of a chunk issues, if it gets that far. *)
Definition expectedPut (D : Deps) (cfg : StoreConfig) (u : string) (c : Chunk)
    : option (string * string * bytes) :=
  match reader D c with
  | Ok body => Some (BucketName cfg, chunkName u (ID c), body)
  | Err _ => None
  end.

(** The configuration with another chunk cache, or none. *)
Definition withCache (cfg : StoreConfig) (cache : option Cache) : StoreConfig :=
  mkStoreConfig (S3 cfg) (BucketName cfg) (DynamoDB cfg) (TableName cfg) cache
    (DailyBucketsFrom cfg) (periodic cfg).

(** The write requests filed under table [t]. *)
Definition rowsOf (w : writeMap) (t : string) : list WriteRequest := default [] (w !! t).

(** The index row of a label: hash key and range key, nothing else. *)
Definition indexRow (hv : string) (rv : bytes) : WriteRequest :=
  mkWriteRequest {[ hashKey := mkAttr (Some hv) None; rangeKey := mkAttr None (Some rv) ]}.

(** The labels of a chunk other than the metric name, as the loop over
    [chunk.Metric] meets them. *)
Definition otherLabels (c : Chunk) : list (string * string) :=
  filter (λ lv, lv.1 ≠ MetricNameLabel) (map_to_list (Metric c)).

(** The buckets of a chunk (none if the planner panics). *)
Definition bucketsOf (cfg : StoreConfig) (c : Chunk) : list bucketSpec :=
  match bigBuckets cfg (From c) (Through c) with
  | Ret buckets => buckets
  | Panic _ => []
  end.

(** [req] is the index row, in table [t], of some label of some chunk of
    [chunks] in some bucket of that chunk. *)
Definition indexed (D : Deps) (cfg : StoreConfig) (u : string) (chunks : list Chunk)
    (t : string) (req : WriteRequest) : Prop :=
  ∃ c name b label value rv,
    c ∈ chunks ∧ Metric c !! MetricNameLabel = Some name ∧
    b ∈ bucketsOf cfg c ∧ tableName b = t ∧
    Metric c !! label = Some value ∧ label ≠ MetricNameLabel ∧
    rangeValue D label value (ID c) = Ok rv ∧
    req = indexRow (hashValue u (bucket b) name) rv.

(** The histogram observation [calculateDynamoWrites] makes for a chunk. *)
Definition entriesObserved (cfg : StoreConfig) (c : Chunk) : event :=
  EvObserve "cortex_chunk_store_index_entries_per_chunk"
    (Z.of_nat (length (bucketsOf cfg c) * length (otherLabels c))).

(** The events of the write path, and the events of the read path. *)
Definition writePathEvent (e : event) : Prop :=
  match e with
  | EvS3Put _ _ _ | EvCacheStoreData _ _ | EvBatchWrite _ | EvObserve _ _ => True
  | _ => False
  end.

Definition readPathEvent (e : event) : Prop :=
  match e with
  | EvQuery _ | EvS3Get _ _ | EvCacheFetch _ _ | EvCacheStore _ _ | EvObserve _ _ => True
  | _ => False
  end.

(** A heap whose matcher 4 is a regular-expression matcher on the name. *)
Definition name_regex : LabelMatcher := mkMatcher RegexMatch "__name__" "u.*".
Definition heap_regex : heap := <[ 4%nat := name_regex ]> heap_sample.

(** The errors and the chunks among the reports of a fan-out, in order. *)
Definition errorsOf {A} (rs : list (result A)) : list error :=
  omap (λ r, match r with Err e => Some e | Ok _ => None end) rs.

Definition valuesOf {A} (rs : list (result A)) : list A :=
  omap (λ r, match r with Ok a => Some a | Err _ => None end) rs.

(** The test of the time filter, by the bounds parsed from the ID. *)
Definition inRangeb (D : Deps) (from through : Z) (c : Chunk) : bool :=
  match parseChunkID D (ID c) with
  | Ok (_, chunkFrom, chunkThrough) =>
      negb (bool_decide (chunkThrough < from) || bool_decide (through < chunkFrom))
  | Err _ => false
  end.

Definition parses (D : Deps) (c : Chunk) : Prop := ∃ x, parseChunkID D (ID c) = Ok x.

(** The S3 GET of a chunk. *)
Definition getOf (cfg : StoreConfig) (u : string) (c : Chunk) : event :=
  EvS3Get (BucketName cfg) (chunkName u (ID c)).

(** The items a worker popped and the evaluations it ran, in order. *)
Definition popped (tr : list rulerEvent) : list (string * list string) :=
  omap (λ e, match e with
             | EvNextWorkItem (Some item) => Some (userID item, rules item)
             | _ => None
             end) tr.

Definition evaluated (tr : list rulerEvent) : list (string * list string) :=
  omap (λ e, match e with EvEvaluate u rs => Some (u, rs) | _ => None end) tr.

(** The turns of a worker that runs while nobody else touches its
    channels: at the select of every turn, [<-w.done] is ready exactly
    when the channel store says so; [answers] are the successive results
    of [nextWorkItem]. *)
Definition turnsFrom (w : worker) (σ : chanStore) (answers : list (option workItem))
    : list turn :=
  mkTurn (recv_ready (done w) σ) <$> answers.

(** A worker whose channels have been made: channel 0 is [done],
    channel 1 is [terminated], both open. *)
Definition worker_made : worker := mkWorker (Some 0%nat) (Some 1%nat).
Definition chans_open : chanStore := {[ 0%nat := false; 1%nat := false ]}.

(** A row whose range key holds no bytes. *)
Definition row_invalid : gmap string AttributeValue := {[ rangeKey := mkAttr None None ]}.

(** The first page holds a faulty row after a good one, the second and
    last page is sound. *)
Definition dynamo_fault_then_ok : DynamoDBClient :=
  mkDynamo (λ _, None)
    (λ _, [Ok (mkQueryOutput [row "job" "api" "a"; row_invalid]);
           Ok (mkQueryOutput [row "job" "db" "b"])]).

Definition cfg_fault_then_ok : StoreConfig :=
  mkStoreConfig s3_ok "chunks" dynamo_fault_then_ok "base" None 864000000 noPeriodic.

(** * Theorems *)

(** ** The bucket planner *)

Lemma bind_Ret {A B} (a : A) (f : A → res B) : (Ret a ≫= f) = f a.
Proof. reflexivity. Qed.

Lemma tableForBucket_total cfg bucketStart :
  periodOK cfg → ∃ t, tableForBucket cfg bucketStart = Ret t.
Proof.
  intros Hok. unfold tableForBucket.
  destruct (UsePeriodicTables (periodic cfg)) eqn:Hu; simpl; [|eauto].
  case_bool_decide; simpl; [eauto|].
  unfold go_div. destruct (decide _) as [Hz|Hz]; [|simpl; eauto].
  exfalso. by apply Hok.
Qed.

Lemma filter_none {A} (P : A → Prop) `{∀ x, Decision (P x)} (l : list A) :
  Forall (λ x, ¬ P x) l → filter P l = [].
Proof.
  induction 1 as [|x l Hx _ IH]; [done|]. by rewrite filter_cons_False.
Qed.

Lemma seqZ_step i n : seqZ i (Z.of_nat (S n)) = i :: seqZ (i + 1) (Z.of_nat n).
Proof.
  rewrite seqZ_cons by lia. f_equal. f_equal; lia.
Qed.

Lemma hourlyLoop_spec cfg thr last n : ∀ i acc,
  periodOK cfg →
  Z.of_nat n = Z.max 0 (thr - i + 1) →
  ∃ hourly,
    hourlyLoop cfg n i thr last acc = Ret (acc ++ hourly) ∧
    Forall2 (isHourly cfg) hourly (filter (λ h, h < last) (seqZ i (Z.of_nat n))).
Proof.
  induction n as [|n IH]; intros i acc Hok Hn.
  - exists []. simpl. rewrite app_nil_r. split; [done|constructor].
  - cbn [hourlyLoop].
    rewrite bool_decide_eq_true_2 by lia.
    rewrite seqZ_step.
    case_bool_decide as Hbreak.
    + exists []. rewrite app_nil_r. split; [done|].
      rewrite filter_none; [constructor|].
      apply Forall_cons. split; [lia|].
      apply Forall_forall. intros x Hx. apply elem_of_seqZ in Hx. lia.
    + destruct (tableForBucket_total cfg (i * secondsInHour) Hok) as [t Ht].
      rewrite Ht, bind_Ret.
      destruct (IH (i + 1) (acc ++ [mkBucketSpec t (pretty i)]) Hok) as (hs & Hrun & Hall);
        [lia|].
      exists (mkBucketSpec t (pretty i) :: hs). split.
      * rewrite Hrun. by rewrite <- app_assoc.
      * rewrite filter_cons_True by lia.
        constructor; [by split|]. exact Hall.
Qed.

Lemma dailyLoop_spec cfg thr first n : ∀ i acc,
  periodOK cfg →
  Z.of_nat n = Z.max 0 (thr - i + 1) →
  ∃ daily,
    dailyLoop cfg n i thr first acc = Ret (acc ++ daily) ∧
    Forall2 (isDaily cfg) daily (filter (λ d, first <= d) (seqZ i (Z.of_nat n))).
Proof.
  induction n as [|n IH]; intros i acc Hok Hn.
  - exists []. simpl. rewrite app_nil_r. split; [done|constructor].
  - cbn [dailyLoop].
    rewrite bool_decide_eq_true_2 by lia.
    rewrite seqZ_step.
    case_bool_decide as Hskip.
    + destruct (IH (i + 1) acc Hok) as (ds & Hrun & Hall); [lia|].
      exists ds. split; [done|].
      rewrite filter_cons_False by lia. exact Hall.
    + destruct (tableForBucket_total cfg (i * secondsInDay) Hok) as [t Ht].
      rewrite Ht, bind_Ret.
      destruct (IH (i + 1) (acc ++ [mkBucketSpec t ("d" +:+ pretty i)]) Hok)
        as (ds & Hrun & Hall); [lia|].
      exists (mkBucketSpec t ("d" +:+ pretty i) :: ds). split.
      * rewrite Hrun. by rewrite <- app_assoc.
      * rewrite filter_cons_True by lia.
        constructor; [by split|]. exact Hall.
Qed.

Lemma seqZ_trips i thr : seqZ i (Z.of_nat (trips i thr)) = seqZ i (thr - i + 1).
Proof.
  unfold trips. destruct (decide (0 <= thr - i + 1)).
  - by rewrite Z2Nat.id.
  - rewrite !seqZ_nil; [done|lia|lia].
Qed.

Lemma bigBuckets_shape cfg from through :
  periodOK cfg →
  ∃ hourly daily,
    bigBuckets cfg from through = Ret (hourly ++ daily) ∧
    Forall2 (isHourly cfg) hourly (hourlyRange cfg from through) ∧
    Forall2 (isDaily cfg) daily (dailyRange cfg from through).
Proof.
  intros Hok.
  destruct (hourlyLoop_spec cfg (hourOf through) (lastHourlyBucket cfg)
              (trips (hourOf from) (hourOf through)) (hourOf from) [] Hok)
    as (hs & Hh & Hhs); [unfold trips; lia|].
  destruct (dailyLoop_spec cfg (dayOf through) (firstDailyBucket cfg)
              (trips (dayOf from) (dayOf through)) (dayOf from) hs Hok)
    as (ds & Hd & Hds); [unfold trips; lia|].
  exists hs, ds.
  change (bigBuckets cfg from through) with
    (hourlyLoop cfg (trips (hourOf from) (hourOf through)) (hourOf from) (hourOf through)
       (lastHourlyBucket cfg) [] ≫= λ result,
     dailyLoop cfg (trips (dayOf from) (dayOf through)) (dayOf from) (dayOf through)
       (firstDailyBucket cfg) result).
  rewrite Hh, bind_Ret. simpl app at 1. rewrite Hd.
  rewrite seqZ_trips in Hhs, Hds. done.
Qed.

Lemma tableForBucket_scheme cfg cfg' bucketStart :
  sameScheme cfg cfg' → tableForBucket cfg' bucketStart = tableForBucket cfg bucketStart.
Proof.
  intros (Ht & _ & Hp). unfold tableForBucket. by rewrite Ht, Hp.
Qed.

Lemma hourlyLoop_scheme cfg cfg' thr last n : ∀ i acc,
  sameScheme cfg cfg' →
  hourlyLoop cfg' n i thr last acc = hourlyLoop cfg n i thr last acc.
Proof.
  induction n as [|n IH]; intros i acc Hs; [done|].
  cbn [hourlyLoop]. rewrite (tableForBucket_scheme cfg cfg') by done.
  repeat case_bool_decide; try done.
  destruct (tableForBucket cfg _); [|done]. rewrite !bind_Ret. by apply IH.
Qed.

Lemma dailyLoop_scheme cfg cfg' thr first n : ∀ i acc,
  sameScheme cfg cfg' →
  dailyLoop cfg' n i thr first acc = dailyLoop cfg n i thr first acc.
Proof.
  induction n as [|n IH]; intros i acc Hs; [done|].
  cbn [dailyLoop]. rewrite (tableForBucket_scheme cfg cfg') by done.
  repeat case_bool_decide; try done; [by apply IH|].
  destruct (tableForBucket cfg _); [|done]. rewrite !bind_Ret. by apply IH.
Qed.

Lemma bigBuckets_scheme cfg cfg' from through :
  sameScheme cfg cfg' → bigBuckets cfg' from through = bigBuckets cfg from through.
Proof.
  intros Hs. unfold bigBuckets.
  destruct Hs as (Ht & Hd & Hp) eqn:E. rewrite <- Hd.
  rewrite (hourlyLoop_scheme cfg cfg') by done.
  destruct (hourlyLoop cfg _ _ _ _ _); [|done].
  rewrite !bind_Ret. by apply dailyLoop_scheme.
Qed.

(** A decimal numeral never starts with the letter of the daily buckets. *)
Lemma pretty_N_go_ne_d x s s' : s ≠ "d" +:+ s' → pretty_N_go x s ≠ "d" +:+ s'.
Proof.
  revert s. induction (N.lt_wf_0 x) as [x _ IH]. intros s Hs.
  destruct (decide (x = 0%N)) as [->|Hx]; [by rewrite pretty_N_go_0|].
  rewrite pretty_N_go_step by lia.
  apply IH; [apply N.div_lt; lia|].
  unfold pretty_N_char. repeat case_match; discriminate.
Qed.

Lemma pretty_Z_ne_d (z : Z) (s : string) : pretty z ≠ "d" +:+ s.
Proof.
  unfold pretty, pretty_Z. destruct z as [|p|p]; [discriminate| |discriminate].
  unfold pretty, pretty_positive, pretty, pretty_N.
  case_decide; [discriminate|]. apply pretty_N_go_ne_d. discriminate.
Qed.

Lemma hourly_names cfg l hs :
  Forall2 (isHourly cfg) l hs → bucket <$> l = pretty <$> hs.
Proof. induction 1 as [|b h l hs [Hb _] _ IH]; [done|]. by rewrite !fmap_cons, Hb, IH. Qed.

Lemma daily_names cfg l ds :
  Forall2 (isDaily cfg) l ds → bucket <$> l = (λ d : Z, "d" +:+ pretty d) <$> ds.
Proof. induction 1 as [|b h l hs [Hb _] _ IH]; [done|]. by rewrite !fmap_cons, Hb, IH. Qed.

Lemma hourly_name_elem (h : Z) (hs ds : list Z) :
  pretty h ∈ (pretty <$> hs) ++ ((λ d : Z, "d" +:+ pretty d) <$> ds) ↔ h ∈ hs.
Proof.
  rewrite elem_of_app, !list_elem_of_fmap. split.
  - intros [(x & Hx & Hin)|(x & Hx & _)].
    + apply pretty_Z_inj in Hx. by subst x.
    + by apply pretty_Z_ne_d in Hx.
  - intros Hin. left. eauto.
Qed.

Lemma daily_name_elem (d : Z) (hs ds : list Z) :
  "d" +:+ pretty d ∈ (pretty <$> hs) ++ ((λ d : Z, "d" +:+ pretty d) <$> ds) ↔ d ∈ ds.
Proof.
  rewrite elem_of_app, !list_elem_of_fmap. split.
  - intros [(x & Hx & _)|(x & Hx & Hin)].
    + symmetry in Hx. by apply pretty_Z_ne_d in Hx.
    + injection Hx as Hx. simpl in Hx. apply pretty_Z_inj in Hx. by subst x.
  - intros Hin. right. eauto.
Qed.

Lemma quot_mono (c a b : Z) : 0 < c → a <= b → Z.quot a c <= Z.quot b c.
Proof. intros. by apply Z.quot_le_mono. Qed.

Lemma hourOf_mono a b : a <= b → hourOf a <= hourOf b.
Proof.
  intros. unfold hourOf, Time_Unix, secondsInHour.
  apply quot_mono; [lia|]. apply quot_mono; lia.
Qed.

Lemma dayOf_mono a b : a <= b → dayOf a <= dayOf b.
Proof.
  intros. unfold dayOf, Time_Unix, secondsInDay.
  apply quot_mono; [lia|]. apply quot_mono; lia.
Qed.

(** From the epoch on, an instant's hour lies below the cutover exactly
    when its day does. *)
Lemma cutover_aligned (t fd : Z) : 0 <= t → hourOf t < fd * 24 ↔ dayOf t < fd.
Proof.
  intros Ht. unfold hourOf, dayOf, Time_Unix, secondsInHour, secondsInDay.
  assert (0 <= Z.quot t 1000) as Hu by (apply Z.quot_pos; lia).
  rewrite !(Z.quot_div_nonneg (Z.quot t 1000)) by lia.
  pose proof (Z.div_mod (Z.quot t 1000) 3600 ltac:(lia)) as E1.
  pose proof (Z.div_mod (Z.quot t 1000) 86400 ltac:(lia)) as E2.
  pose proof (Z.mod_pos_bound (Z.quot t 1000) 3600 ltac:(lia)).
  pose proof (Z.mod_pos_bound (Z.quot t 1000) 86400 ltac:(lia)).
  lia.
Qed.

(** On 64-bit times no value the planner computes leaves the 64-bit
    range: the bounds, the cutover, every value of either loop counter
    (up to the one that ends the loop) and every bucket start. *)
Lemma planner_stays_in_int64 cfg from through i :
  int64 from → int64 through → int64 (DailyBucketsFrom cfg) →
  int64 (lastHourlyBucket cfg) ∧
  (hourOf from <= i <= hourOf through + 1 →
     int64 i ∧ (i <= hourOf through → int64 (i * secondsInHour))) ∧
  (dayOf from <= i <= dayOf through + 1 →
     int64 i ∧ (i <= dayOf through → int64 (i * secondsInDay))).
Proof.
  unfold int64. intros Hf Ht Hd.
  assert (∀ t, -9223372036854775808 <= t <= 9223372036854775807 →
               -2562047788015 <= hourOf t <= 2562047788015 ∧
               -106751991167 <= dayOf t <= 106751991167) as Hb.
  { intros t [Hlo Hhi]. unfold hourOf, dayOf, Time_Unix, secondsInHour, secondsInDay.
    pose proof (quot_mono 1000 _ _ ltac:(lia) Hlo) as L1.
    pose proof (quot_mono 1000 _ _ ltac:(lia) Hhi) as U1.
    pose proof (quot_mono 3600 _ _ ltac:(lia) L1) as L2.
    pose proof (quot_mono 3600 _ _ ltac:(lia) U1) as U2.
    pose proof (quot_mono 86400 _ _ ltac:(lia) L1) as L3.
    pose proof (quot_mono 86400 _ _ ltac:(lia) U1) as U3.
    change (Z.quot (Z.quot (-9223372036854775808) 1000) 3600) with (-2562047788015) in L2.
    change (Z.quot (Z.quot 9223372036854775807 1000) 3600) with 2562047788015 in U2.
    change (Z.quot (Z.quot (-9223372036854775808) 1000) 86400) with (-106751991167) in L3.
    change (Z.quot (Z.quot 9223372036854775807 1000) 86400) with 106751991167 in U3.
    lia. }
  pose proof (Hb from Hf). pose proof (Hb through Ht).
  pose proof (Hb (DailyBucketsFrom cfg) Hd).
  unfold lastHourlyBucket, firstDailyBucket, secondsInHour, secondsInDay. lia.
Qed.

(** C2 (as amended).  Whenever the table period is usable, [bigBuckets]
    returns the hourly buckets of [fromHour, throughHour] below
    [lastHourlyBucket], in ascending order, followed by the daily buckets
    of [fromDay, throughDay] from [firstDailyBucket] on, each with the
    table of its start; the result depends on the bucketing fields of the
    configuration only; and for a range that starts at or after the epoch
    every instant of the range has exactly one of its hourly and its daily
    bucket in the output. *)
Theorem bigBuckets_plan cfg from through :
  periodOK cfg →
  ∃ hourly daily,
    bigBuckets cfg from through = Ret (hourly ++ daily) ∧
    Forall2 (isHourly cfg) hourly (hourlyRange cfg from through) ∧
    Forall2 (isDaily cfg) daily (dailyRange cfg from through) ∧
    (∀ cfg', sameScheme cfg cfg' →
       bigBuckets cfg' from through = bigBuckets cfg from through) ∧
    (0 <= from → ∀ t, from <= t <= through →
       let names := bucket <$> (hourly ++ daily) in
       (pretty (hourOf t) ∈ names ∧ ("d" +:+ pretty (dayOf t)) ∉ names) ∨
       ((pretty (hourOf t) ∉ names) ∧ "d" +:+ pretty (dayOf t) ∈ names)).
Proof.
  intros Hok.
  destruct (bigBuckets_shape cfg from through Hok) as (hourly & daily & Hrun & Hh & Hd).
  exists hourly, daily. repeat split; try done.
  - intros cfg' Hs. by apply bigBuckets_scheme.
  - intros Hfrom t [Hlo Hhi] names. subst names.
    rewrite fmap_app, (hourly_names _ _ _ Hh), (daily_names _ _ _ Hd).
    rewrite hourly_name_elem, daily_name_elem.
    unfold hourlyRange, dailyRange.
    rewrite !list_elem_of_filter, !elem_of_seqZ.
    pose proof (hourOf_mono _ _ Hlo). pose proof (hourOf_mono _ _ Hhi).
    pose proof (dayOf_mono _ _ Hlo). pose proof (dayOf_mono _ _ Hhi).
    pose proof (cutover_aligned t (firstDailyBucket cfg) ltac:(lia)) as Hc.
    unfold lastHourlyBucket.
    destruct (decide (dayOf t < firstDailyBucket cfg)); [left|right]; split; lia.
Qed.

Lemma bigBuckets_plan_witness :
  periodOK cfg_weekly ∧
  ∃ hourly daily,
    bigBuckets cfg_weekly 0 180000000 = Ret (hourly ++ daily) ∧
    Forall2 (isHourly cfg_weekly) hourly (hourlyRange cfg_weekly 0 180000000) ∧
    Forall2 (isDaily cfg_weekly) daily (dailyRange cfg_weekly 0 180000000) ∧
    (∀ cfg', sameScheme cfg_weekly cfg' →
       bigBuckets cfg' 0 180000000 = bigBuckets cfg_weekly 0 180000000) ∧
    (0 <= 0 → ∀ t, 0 <= t <= 180000000 →
       let names := bucket <$> (hourly ++ daily) in
       (pretty (hourOf t) ∈ names ∧ ("d" +:+ pretty (dayOf t)) ∉ names) ∨
       ((pretty (hourOf t) ∉ names) ∧ "d" +:+ pretty (dayOf t) ∈ names)).
Proof.
  split.
  - intros _. vm_compute. discriminate.
  - apply (bigBuckets_plan cfg_weekly 0 180000000). intros _. vm_compute. discriminate.
Defined.

(** C2, as stated, fails on two counts: with periodic tables on and a
    table period below one second the planner panics instead of emitting
    anything; and an instant one hour before the epoch gets both its
    hourly and its daily bucket when daily buckets start at the epoch. *)
Lemma bigBuckets_not_total_nor_disjoint :
  bigBuckets cfg_zero_period 0 0 = Panic "integer divide by zero" ∧
  bigBuckets cfg_epoch (-3600000) (-3600000)
    = Ret [mkBucketSpec "base" "-1"; mkBucketSpec "base" "d0"] ∧
  hourOf (-3600000) = -1 ∧ dayOf (-3600000) = 0.
Proof. vm_compute. done. Qed.

(** ** The trace monad only appends *)

Lemma runs_ret {A} (a : A) : runs (mret a : M A) (Ret a) [].
Proof. intros tr. cbn. by rewrite app_nil_r. Qed.

Lemma runs_emit e : runs (emit e) (Ret tt) [e].
Proof. intros tr. reflexivity. Qed.

Lemma runs_lift_res {A} (r : res A) : runs (lift_res r) r [].
Proof. intros tr. cbn. by rewrite app_nil_r. Qed.

Lemma runs_bind {A B} (m : M A) (f : A → M B) a evs r evs' :
  runs m (Ret a) evs → runs (f a) r evs' → runs (m ≫= f) r (evs ++ evs').
Proof.
  intros Hm Hf tr. unfold mbind, M_bind. rewrite (Hm tr), (Hf (tr ++ evs)).
  by rewrite app_assoc.
Qed.

Lemma runs_bind_panic {A B} (m : M A) (f : A → M B) msg evs :
  runs m (Panic msg) evs → runs (m ≫= f) (Panic msg) evs.
Proof. intros Hm tr. unfold mbind, M_bind. by rewrite (Hm tr). Qed.

Lemma runs_nil {A} (m : M A) r evs : runs m r evs → m [] = (r, evs).
Proof. intros H. by rewrite (H []). Qed.

Lemma runs_inv {A} (m : M A) r evs r' tr :
  runs m r evs → m [] = (r', tr) → r' = r ∧ tr = evs.
Proof. intros H E. rewrite (H []) in E. by injection E as <- <-. Qed.

(** ** Put *)

Lemma putChunk_runs D cfg u c :
  runs (putChunk D cfg u c) (Ret (blobResult D cfg u c)) (blobEvents D cfg u c).
Proof.
  unfold putChunk, blobResult, blobEvents. cbv zeta.
  destruct (reader D c) as [body|e]; [|apply runs_ret].
  destruct (PutObject _ _ _ _) as [e|] eqn:Hput.
  - apply (runs_bind _ _ tt [_] _ []); [apply runs_emit|apply runs_ret].
  - destruct (ChunkCache cfg).
    + apply (runs_bind _ _ tt [_] _ [_]); [apply runs_emit|].
      apply (runs_bind _ _ tt [_] _ []); [apply runs_emit|apply runs_ret].
    + apply (runs_bind _ _ tt [_] _ []); [apply runs_emit|apply runs_ret].
Qed.

Lemma lastError_cons lastErr r rs :
  lastError lastErr (r :: rs)
  = lastError (match r with Some e => Some e | None => lastErr end) rs.
Proof.
  unfold lastError. destruct r as [e|]; [|done].
  change (omap id (Some e :: rs)) with (e :: omap id rs).
  destruct (omap id rs) as [|e' l]; [done|].
  rewrite last_cons_cons.
  destruct (last (e' :: l)) eqn:E; [done|]. by apply last_None in E.
Qed.

Lemma putChunks_recv_runs D cfg u arrivals : ∀ lastErr,
  runs (putChunks_recv D cfg u arrivals lastErr)
       (Ret (lastError lastErr (blobResult D cfg u <$> arrivals)))
       (concat (blobEvents D cfg u <$> arrivals)).
Proof.
  induction arrivals as [|c rest IH]; intros lastErr.
  - apply runs_ret.
  - cbn [putChunks_recv]. rewrite fmap_cons, lastError_cons.
    rewrite fmap_cons. cbn [concat].
    eapply runs_bind; [apply putChunk_runs|apply IH].
Qed.

Lemma chunkLoop_runs D cfg u chunks : ∀ w,
  ∃ r O, runs (chunkLoop D cfg u chunks w) r O ∧ Forall isObserve O.
Proof.
  induction chunks as [|c rest IH]; intros w; cbn [chunkLoop].
  - exists (Ret (Ok w)), []. split; [apply runs_ret|constructor].
  - destruct (Metric c !! MetricNameLabel) as [name|].
    2:{ eexists _, []. split; [apply runs_ret|constructor]. }
    destruct (bigBuckets cfg (From c) (Through c)) as [bs|msg].
    2:{ exists (Panic msg), []. split; [|constructor].
        apply runs_bind_panic, runs_lift_res. }
    destruct (bucketLoop D u name c bs w 0) as [[w' n]|e] eqn:Hb.
    2:{ eexists _, []. split; [|constructor].
        apply (runs_bind _ _ bs [] _ []); [apply runs_lift_res|].
        rewrite Hb. apply runs_ret. }
    destruct (IH w') as (r & O & Hr & HO).
    exists r, (EvObserve "cortex_chunk_store_index_entries_per_chunk" n :: O). split.
    + apply (runs_bind _ _ bs [] _ (_ :: O)); [apply runs_lift_res|].
      rewrite Hb. apply (runs_bind _ _ tt [_] _ O); [apply runs_emit|exact Hr].
    + constructor; [exact I|exact HO].
Qed.

(** The three ways a [Put] with a tenant can go, once the blob tasks are
    in: a blob error, an index computation that does not yield writes, or
    the batch write. *)
Lemma Put_cases s D cfg ctx chunks :
  match ctx_userID ctx with
  | None => runs (Put s D cfg ctx chunks) (Ret (Some "ErrNoTenant")) []
  | Some u =>
      let arrivals := put_sched s Chunk chunks in
      let B := concat (blobEvents D cfg u <$> arrivals) in
      match lastError None (blobResult D cfg u <$> arrivals) with
      | Some e => runs (Put s D cfg ctx chunks) (Ret (Some e)) B
      | None =>
          ∃ rc O, runs (calculateDynamoWrites D cfg u chunks) rc O ∧ Forall isObserve O ∧
            match rc with
            | Panic msg => runs (Put s D cfg ctx chunks) (Panic msg) (B ++ O)
            | Ret (Err e) => runs (Put s D cfg ctx chunks) (Ret (Some e)) (B ++ O)
            | Ret (Ok w) =>
                runs (Put s D cfg ctx chunks) (Ret (BatchWriteItem (DynamoDB cfg) w))
                  (B ++ O ++ [EvBatchWrite w])
            end
      end
  end.
Proof.
  unfold Put, user_GetID. destruct (ctx_userID ctx) as [u|]; [|apply runs_ret].
  cbv zeta.
  pose proof (putChunks_recv_runs D cfg u (put_sched s Chunk chunks) None) as Hblob.
  fold (putChunks s D cfg u chunks) in Hblob.
  destruct (lastError None _) as [e|] eqn:Hlast.
  - rewrite <- (app_nil_r (concat _)). eapply runs_bind; [exact Hblob|apply runs_ret].
  - destruct (chunkLoop_runs D cfg u chunks ∅) as (rc & O & Hrc & HO).
    exists rc, O. split; [exact Hrc|]. split; [exact HO|].
    destruct rc as [[w|e]|msg].
    + eapply runs_bind; [exact Hblob|]. unfold updateIndex.
      eapply runs_bind; [exact Hrc|]. unfold batchWriteDynamo.
      rewrite <- (app_nil_r [EvBatchWrite w]).
      eapply runs_bind; [apply runs_emit|apply runs_ret].
    + eapply runs_bind; [exact Hblob|]. unfold updateIndex.
      rewrite <- (app_nil_r O). eapply runs_bind; [exact Hrc|apply runs_ret].
    + eapply runs_bind; [exact Hblob|]. unfold updateIndex.
      apply runs_bind_panic. exact Hrc.
Qed.


Lemma blobEvents_no_batch D cfg u c : Forall (λ e, ¬ isBatchWrite e) (blobEvents D cfg u c).
Proof.
  unfold blobEvents. destruct (reader D c); [|constructor].
  constructor; [by intros []|].
  destruct (PutObject _ _ _ _), (ChunkCache cfg); repeat constructor; by intros [].
Qed.

Lemma blob_phase_no_batch D cfg u cs :
  Forall (λ e, ¬ isBatchWrite e) (concat (blobEvents D cfg u <$> cs)).
Proof.
  induction cs as [|c cs IH]; [constructor|].
  rewrite fmap_cons. cbn [concat]. apply Forall_app. split; [apply blobEvents_no_batch|done].
Qed.

Lemma observe_no_batch O : Forall isObserve O → Forall (λ e, ¬ isBatchWrite e) O.
Proof. intros H. eapply Forall_impl; [exact H|]. intros e He Hb. by destruct e. Qed.

Lemma blobTaskRan_phase D cfg u cs c :
  c ∈ cs → blobTaskRan D cfg u c (concat (blobEvents D cfg u <$> cs)).
Proof.
  intros Hin body Hbody. apply list_elem_of_In, in_concat.
  exists (blobEvents D cfg u c). split.
  - apply list_elem_of_In, list_elem_of_fmap. eauto.
  - unfold blobEvents. rewrite Hbody. by left.
Qed.




Lemma no_batch_elem l w : Forall (λ e, ¬ isBatchWrite e) l → EvBatchWrite w ∉ l.
Proof. intros H Hin. by apply (proj1 (Forall_forall _ _) H _ Hin). Qed.



Lemma rowsOf_append (w : writeMap) t0 r t :
  rowsOf (<[t0 := default [] (w !! t0) ++ [r]]> w) t
  = if decide (t = t0) then rowsOf w t0 ++ [r] else rowsOf w t.
Proof.
  unfold rowsOf, writeMap in *. destruct (decide (t = t0)) as [->|Hne].
  - by rewrite lookup_insert_eq.
  - by rewrite lookup_insert_ne.
Qed.

Lemma labelLoop_rows D hv b c labels : ∀ w n w' n',
  labelLoop D hv b c labels w n = Ok (w', n') →
  (∀ t req, req ∈ rowsOf w' t ↔
     req ∈ rowsOf w t ∨
     (t = tableName b ∧ ∃ label value rv,
        (label, value) ∈ labels ∧ label ≠ MetricNameLabel ∧
        rangeValue D label value (ID c) = Ok rv ∧ req = indexRow hv rv)) ∧
  n' = n + Z.of_nat (length (filter (λ lv, lv.1 ≠ MetricNameLabel) labels)).
Proof.
  induction labels as [|[label value] rest IH]; intros w n w' n' Hrun; cbn [labelLoop] in Hrun.
  - injection Hrun as <- <-. split; [|cbn; lia].
    intros t req. split; [by left|]. intros [?|(_ & ? & ? & ? & Hin & _)]; [done|].
    by apply elem_of_nil in Hin.
  - destruct (decide (label = MetricNameLabel)) as [->|Hne].
    + destruct (IH _ _ _ _ Hrun) as [Hrows ->]. split.
      * intros t req. rewrite Hrows. split.
        -- intros [?|(-> & l & v & rv & Hin & ?)]; [by left|].
           right. split; [done|]. exists l, v, rv. split; [by right|done].
        -- intros [?|(-> & l & v & rv & Hin & Hl & ?)]; [by left|].
           right. split; [done|]. exists l, v, rv. split; [|done].
           apply elem_of_cons in Hin as [[= -> ->]|Hin]; [done|done].
      * rewrite filter_cons_False; [done|]. cbn. by intros H.
    + destruct (rangeValue D label value (ID c)) as [rv|e] eqn:Hrv; [|done].
      destruct (IH _ _ _ _ Hrun) as [Hrows ->]. split.
      * intros t req. rewrite Hrows, rowsOf_append.
        fold (indexRow hv rv). split.
        -- intros [Hin|(-> & l & v & rv' & Hin & ?)].
           ++ destruct (decide (t = tableName b)) as [->|]; [|by left].
              apply elem_of_app in Hin as [Hin|Hin%list_elem_of_singleton]; [by left|].
              right. split; [done|]. exists label, value, rv. split; [by left|done].
           ++ right. split; [done|]. exists l, v, rv'. split; [by right|done].
        -- intros [Hin|(-> & l & v & rv' & Hin & Hl & Hrv' & ->)].
           ++ left. destruct (decide (t = tableName b)) as [->|]; [|done].
              apply elem_of_app. by left.
           ++ apply elem_of_cons in Hin as [[= -> ->]|Hin].
              ** left. rewrite decide_True by done. rewrite Hrv in Hrv'.
                 injection Hrv' as <-. apply elem_of_app. right. by left.
              ** right. split; [done|]. by exists l, v, rv'.
      * rewrite filter_cons_True by done. cbn [length]. lia.
Qed.

Lemma bucketLoop_rows D u name c buckets : ∀ w n w' n',
  bucketLoop D u name c buckets w n = Ok (w', n') →
  (∀ t req, req ∈ rowsOf w' t ↔
     req ∈ rowsOf w t ∨
     ∃ b label value rv,
       b ∈ buckets ∧ tableName b = t ∧
       Metric c !! label = Some value ∧ label ≠ MetricNameLabel ∧
       rangeValue D label value (ID c) = Ok rv ∧
       req = indexRow (hashValue u (bucket b) name) rv) ∧
  n' = n + Z.of_nat (length buckets * length (otherLabels c)).
Proof.
  induction buckets as [|b rest IH]; intros w n w' n' Hrun; cbn [bucketLoop] in Hrun.
  - injection Hrun as <- <-. split; [|cbn; lia].
    intros t req. split; [by left|]. intros [?|(? & ? & ? & ? & Hin & _)]; [done|].
    by apply elem_of_nil in Hin.
  - destruct (labelLoop D _ b c _ w n) as [[w1 n1]|e] eqn:Hlabels; [|done].
    destruct (labelLoop_rows _ _ _ _ _ _ _ _ _ Hlabels) as [Hrows1 ->].
    destruct (IH _ _ _ _ Hrun) as [Hrows ->]. split.
    + intros t req. rewrite Hrows, Hrows1. split.
      * intros [[?|(-> & l & v & rv & Hin & ?)]|(b' & l & v & rv & Hin & ?)]; [by left|..].
        -- right. exists b, l, v, rv. split; [by left|]. split; [done|].
           split; [by apply elem_of_map_to_list|done].
        -- right. exists b', l, v, rv. split; [by right|done].
      * intros [?|(b' & l & v & rv & Hin & <- & Hl & ?)]; [by left; left|].
        apply elem_of_cons in Hin as [->|Hin].
        -- left. right. split; [done|]. exists l, v, rv.
           split; [by apply elem_of_map_to_list|done].
        -- right. by exists b', l, v, rv.
    + fold (otherLabels c). cbn [length]. lia.
Qed.

Lemma rowsOf_empty t : rowsOf ∅ t = [].
Proof. unfold rowsOf, writeMap. by rewrite lookup_empty. Qed.

Lemma chunkLoop_rows D cfg u chunks : ∀ w tr w' tr',
  chunkLoop D cfg u chunks w tr = (Ret (Ok w'), tr') →
  (∀ t req, req ∈ rowsOf w' t ↔ req ∈ rowsOf w t ∨ indexed D cfg u chunks t req) ∧
  tr' = tr ++ (entriesObserved cfg <$> chunks).
Proof.
  induction chunks as [|c rest IH]; intros w tr w' tr' Hrun; cbn [chunkLoop] in Hrun.
  - injection Hrun as <- <-. split; [|by rewrite app_nil_r].
    intros t req. split; [by left|]. intros [?|(c & ? & ? & ? & ? & ? & Hin & _)]; [done|].
    by apply elem_of_nil in Hin.
  - destruct (Metric c !! MetricNameLabel) as [name|] eqn:Hname; [|done].
    unfold mbind, M_bind, lift_res, emit in Hrun.
    destruct (bigBuckets cfg (From c) (Through c)) as [bs|msg] eqn:Hbs; [|done].
    destruct (bucketLoop D u name c bs w 0) as [[w1 n1]|e] eqn:Hbuckets; [|done].
    destruct (bucketLoop_rows _ _ _ _ _ _ _ _ _ Hbuckets) as [Hrows1 ->].
    destruct (IH _ _ _ _ Hrun) as [Hrows ->]. split.
    + intros t req. rewrite Hrows, Hrows1. split.
      * intros [[?|(b & l & v & rv & Hin & ?)]|(c' & n' & b & l & v & rv & Hin & ?)];
          [by left|..].
        -- right. exists c, name, b, l, v, rv. split; [by left|]. split; [done|].
           unfold bucketsOf. rewrite Hbs. done.
        -- right. exists c', n', b, l, v, rv. split; [by right|done].
      * intros [?|(c' & n' & b & l & v & rv & Hin & Hn' & Hb & ?)]; [by left; left|].
        apply elem_of_cons in Hin as [->|Hin].
        -- left. right. unfold bucketsOf in Hb. rewrite Hbs in Hb.
           rewrite Hname in Hn'. injection Hn' as <-. by exists b, l, v, rv.
        -- right. by exists c', n', b, l, v, rv.
    + rewrite fmap_cons, <- app_assoc. cbn [app]. do 3 f_equal.
      unfold entriesObserved, bucketsOf. rewrite Hbs. f_equal; lia.
Qed.




Lemma fair_id : fair sched_id.
Proof. intros A l. reflexivity. Qed.

Lemma fair_rev : fair sched_rev.
Proof. intros A l. apply reverse_Permutation. Qed.


Lemma omap_id_fmap {A B} (f : A → option B) (l : list A) : omap id (f <$> l) = omap f l.
Proof.
  induction l as [|x l IH]; [done|].
  rewrite fmap_cons. cbn [omap list_omap]. rewrite <- IH. by destruct (f x).
Qed.

(** C3 (as amended).  With a tenant in the context, [Put] returns the
    last blob error to arrive, after the blob task of every chunk has run;
    when no blob task fails it returns what the index update returns: the
    error of the index computation if there is one, else the verdict of
    the batch write. *)
Theorem Put_returns_last_blob_error s D cfg ctx u chunks :
  fair (put_sched s) → ctx_userID ctx = Some u →
  let errors := omap (blobResult D cfg u) (put_sched s Chunk chunks) in
  (∀ e, last errors = Some e →
     value_of (Put s D cfg ctx chunks) = Ret (Some e) ∧
     ∀ c, c ∈ chunks → blobTaskRan D cfg u c (events_of (Put s D cfg ctx chunks))) ∧
  (errors = [] →
     match value_of (calculateDynamoWrites D cfg u chunks) with
     | Ret (Ok w) =>
         value_of (Put s D cfg ctx chunks) = Ret (BatchWriteItem (DynamoDB cfg) w)
     | Ret (Err e) => value_of (Put s D cfg ctx chunks) = Ret (Some e)
     | Panic msg => value_of (Put s D cfg ctx chunks) = Panic msg
     end).
Proof.
  intros Hfair Hu errors. subst errors.
  pose proof (Put_cases s D cfg ctx chunks) as Hc. rewrite Hu in Hc. cbv zeta in Hc.
  unfold lastError in Hc. rewrite omap_id_fmap in Hc.
  split.
  - intros e He. rewrite He in Hc. unfold value_of, events_of.
    rewrite (runs_nil _ _ _ Hc). split; [done|].
    intros c Hin. apply blobTaskRan_phase. by rewrite (Hfair Chunk chunks).
  - intros Hnil. rewrite Hnil in Hc. cbn [last] in Hc.
    destruct Hc as (rc & O & Hrc & _ & Hput).
    unfold value_of. rewrite (runs_nil _ _ _ Hrc). cbn [fst].
    destruct rc as [[w|e]|msg]; by rewrite (runs_nil _ _ _ Hput).
Qed.

Lemma Put_returns_last_blob_error_witness :
  fair (put_sched scheds_rev) ∧ ctx_userID ctx_u1 = Some "u1" ∧
  let errors := omap (blobResult deps_sample cfg_refusing "u1")
                     (put_sched scheds_rev Chunk [chunk_a; chunk_b]) in
  (∀ e, last errors = Some e →
     value_of (Put scheds_rev deps_sample cfg_refusing ctx_u1 [chunk_a; chunk_b])
       = Ret (Some e) ∧
     ∀ c, c ∈ [chunk_a; chunk_b] →
       blobTaskRan deps_sample cfg_refusing "u1" c
         (events_of (Put scheds_rev deps_sample cfg_refusing ctx_u1 [chunk_a; chunk_b]))) ∧
  (errors = [] →
     match value_of (calculateDynamoWrites deps_sample cfg_refusing "u1" [chunk_a; chunk_b]) with
     | Ret (Ok w) =>
         value_of (Put scheds_rev deps_sample cfg_refusing ctx_u1 [chunk_a; chunk_b])
           = Ret (BatchWriteItem (DynamoDB cfg_refusing) w)
     | Ret (Err e) =>
         value_of (Put scheds_rev deps_sample cfg_refusing ctx_u1 [chunk_a; chunk_b])
           = Ret (Some e)
     | Panic msg =>
         value_of (Put scheds_rev deps_sample cfg_refusing ctx_u1 [chunk_a; chunk_b])
           = Panic msg
     end).
Proof.
  split; [apply fair_rev|]. split; [reflexivity|].
  apply (Put_returns_last_blob_error scheds_rev deps_sample cfg_refusing ctx_u1 "u1"
           [chunk_a; chunk_b]); [apply fair_rev|reflexivity].
Defined.

(** C3, as stated, fails on two counts.  Two blob tasks fail, the error
    of [a] arrives first and the error of [b] second: [Put] returns the
    error of [b].  And with every blob written, a chunk without a metric
    name makes [Put] return an error that no batch write produced: none
    was issued. *)
Lemma Put_returns_not_first_error :
  omap (blobResult deps_sample cfg_refusing "u1") (put_sched scheds_id Chunk [chunk_a; chunk_b])
    = ["refused u1/a"; "refused u1/b"] ∧
  Put scheds_id deps_sample cfg_refusing ctx_u1 [chunk_a; chunk_b] []
    = (Ret (Some "refused u1/b"),
       [EvS3Put "chunks" "u1/a" "samples-a"; EvS3Put "chunks" "u1/b" "samples-b"]) ∧
  omap (blobResult deps_sample cfg_epoch "u1") (put_sched scheds_id Chunk [chunk_n]) = [] ∧
  Put scheds_id deps_sample cfg_epoch ctx_u1 [chunk_n] []
    = (Ret (Some "no MetricNameLabel for chunk"), [EvS3Put "chunks" "u1/n" "samples-n"]).
Proof. vm_compute. done. Qed.

Lemma chunkLoop_missing_name D cfg u c0 chunks :
  periodOK cfg → c0 ∈ chunks → Metric c0 !! MetricNameLabel = None →
  ∀ w tr, ∃ e tr', chunkLoop D cfg u chunks w tr = (Ret (Err e), tr').
Proof.
  intros Hok Hin Hname.
  induction chunks as [|c rest IH]; intros w tr; [by apply elem_of_nil in Hin|].
  cbn [chunkLoop].
  destruct (Metric c !! MetricNameLabel) as [name|] eqn:Hc; [|by eexists _, _].
  assert (c0 ∈ rest) as Hrest.
  { apply elem_of_cons in Hin as [->|?]; [congruence|done]. }
  destruct (bigBuckets_shape cfg (From c) (Through c) Hok) as (hs & ds & Hbs & _).
  rewrite Hbs. unfold mbind, M_bind, lift_res.
  destruct (bucketLoop D u name c (hs ++ ds) w 0) as [[w' n]|e]; [|by eexists _, _].
  unfold emit. apply (IH Hrest).
Qed.

(** C9 (as amended).  With a tenant in the context and a usable table
    period, a chunk without the [__name__] label makes [Put] return an
    error after the blob task of every chunk of the call has run and
    reported, and without any batch write. *)
Theorem Put_missing_name s D cfg ctx u chunks c0 :
  fair (put_sched s) → periodOK cfg → ctx_userID ctx = Some u →
  c0 ∈ chunks → Metric c0 !! MetricNameLabel = None →
  ∃ e tr, Put s D cfg ctx chunks [] = (Ret (Some e), tr) ∧
    (∀ c, c ∈ chunks → blobTaskRan D cfg u c tr) ∧
    (∀ w, EvBatchWrite w ∉ tr).
Proof.
  intros Hfair Hok Hu Hin Hname.
  pose proof (Put_cases s D cfg ctx chunks) as Hc. rewrite Hu in Hc. cbv zeta in Hc.
  set (B := concat (blobEvents D cfg u <$> put_sched s Chunk chunks)) in *.
  assert (∀ c, c ∈ chunks → blobTaskRan D cfg u c B) as Hran.
  { intros c Hc'. apply blobTaskRan_phase. by rewrite (Hfair Chunk chunks). }
  assert (Forall (λ e, ¬ isBatchWrite e) B) as HB by apply blob_phase_no_batch.
  destruct (lastError None _) as [e|].
  { exists e, B. split; [by apply runs_nil|]. split; [done|].
    intros w. by apply no_batch_elem. }
  destruct Hc as (rc & O & Hrc & HO & Hput).
  destruct (chunkLoop_missing_name D cfg u c0 chunks Hok Hin Hname ∅ []) as (e & tr' & He).
  destruct (runs_inv _ _ _ _ _ Hrc He) as [<- ->].
  exists e, (B ++ O). split; [by apply runs_nil|]. split.
  - intros c Hc' body Hbody. apply elem_of_app. left. by apply Hran.
  - intros w. apply no_batch_elem, Forall_app. split; [done|]. by apply observe_no_batch.
Qed.

Lemma Put_missing_name_witness :
  fair (put_sched scheds_rev) ∧ periodOK cfg_weekly ∧ ctx_userID ctx_u1 = Some "u1" ∧
  chunk_n ∈ [chunk_a; chunk_n; chunk_b] ∧ Metric chunk_n !! MetricNameLabel = None ∧
  ∃ e tr,
    Put scheds_rev deps_sample cfg_weekly ctx_u1 [chunk_a; chunk_n; chunk_b] []
      = (Ret (Some e), tr) ∧
    (∀ c, c ∈ [chunk_a; chunk_n; chunk_b] → blobTaskRan deps_sample cfg_weekly "u1" c tr) ∧
    (∀ w, EvBatchWrite w ∉ tr).
Proof.
  assert (periodOK cfg_weekly) as Hok by (intros _; vm_compute; discriminate).
  assert (chunk_n ∈ [chunk_a; chunk_n; chunk_b]) as Hin by (right; left).
  split; [apply fair_rev|]. split; [exact Hok|]. split; [reflexivity|].
  split; [exact Hin|]. split; [reflexivity|].
  apply (Put_missing_name scheds_rev deps_sample cfg_weekly ctx_u1 "u1"
           [chunk_a; chunk_n; chunk_b] chunk_n);
    [apply fair_rev|exact Hok|reflexivity|exact Hin|reflexivity].
Defined.

(** C9, as stated, fails on two counts.  Without a tenant in the context
    [Put] returns before any blob task is started.  And with periodic
    tables on and a table period below one second, the index computation
    of a well-formed chunk ahead of the nameless one panics: [Put] does
    not return an error, it does not return. *)
Lemma Put_missing_name_without_blobs_or_error :
  Metric chunk_n !! MetricNameLabel = None ∧
  reader deps_sample chunk_n = Ok "samples-n" ∧
  Put scheds_id deps_sample cfg_epoch ctx_anonymous [chunk_a; chunk_n] []
    = (Ret (Some "ErrNoTenant"), []) ∧
  Put scheds_id deps_sample cfg_zero_period ctx_u1 [chunk_a; chunk_n] []
    = (Panic "integer divide by zero",
       [EvS3Put "chunks" "u1/a" "samples-a"; EvS3Put "chunks" "u1/n" "samples-n"]).
Proof. vm_compute. done. Qed.

(** ** Get: which events the lookup phase emits *)

Lemma emits_ret {A} P (a : A) : emits P (mret a : M A).
Proof.
  split; [|constructor]. intros tr. unfold value_of, events_of. cbn. by rewrite app_nil_r.
Qed.

Lemma emits_emit (P : event → Prop) e : P e → emits P (emit e).
Proof. intros He. split; [done|]. by repeat constructor. Qed.

Lemma emits_lift_res {A} P (r : res A) : emits P (lift_res r).
Proof.
  split; [|constructor]. intros tr. unfold value_of, events_of. cbn. by rewrite app_nil_r.
Qed.

Lemma emits_bind {A B} P (m : M A) (f : A → M B) :
  emits P m → (∀ a, emits P (f a)) → emits P (m ≫= f).
Proof.
  intros [Hm HPm] Hf.
  assert (∀ tr, (m ≫= f) tr
            = (match value_of m with Ret a => value_of (f a) | Panic msg => Panic msg end,
               tr ++ events_of m ++
                 match value_of m with Ret a => events_of (f a) | Panic _ => [] end)) as E.
  { intros tr. unfold mbind, M_bind. rewrite (Hm tr).
    destruct (value_of m) as [a|msg]; [|by rewrite app_nil_r].
    destruct (Hf a) as [Hfa _]. rewrite (Hfa (tr ++ events_of m)). by rewrite app_assoc. }
  split.
  - intros tr. unfold value_of at 1, events_of at 1. by rewrite (E tr), (E []).
  - unfold events_of at 1. rewrite (E []). cbn [snd app].
    apply Forall_app. split; [done|].
    destruct (value_of m) as [a|msg]; [apply Hf|constructor].
Qed.

Ltac emits_steps :=
  repeat first
    [ apply emits_ret
    | apply emits_lift_res
    | apply emits_emit; exact I
    | apply emits_bind; [|intros ?]
    | match goal with
      | |- emits _ (match ?x with _ => _ end) => destruct x
      | |- emits _ (let '_ := ?x in _) => destruct x
      end ].

Lemma queryPages_from_emits {S} input (visit : S → QueryOutput → bool → res (S * bool)) pages :
  ∀ st, emits isLookupEvent (queryPages_from input pages visit st).
Proof.
  induction pages as [|r rest IH]; intros st; cbn [queryPages_from]; [apply emits_ret|].
  apply emits_bind; [by apply emits_emit|intros _].
  destruct r as [resp|e]; [|apply emits_ret].
  apply emits_bind; [apply emits_lift_res|intros [st' c]]. cbn [fst snd].
  destruct c; [apply IH|apply emits_ret].
Qed.

Lemma observeLookup_emits st : emits isLookupEvent (observeLookup st).
Proof. unfold observeLookup. emits_steps. Qed.

Lemma lookupChunksForMetricName_emits D cfg u b name :
  emits isLookupEvent (lookupChunksForMetricName D cfg u b name).
Proof.
  unfold lookupChunksForMetricName, queryPages. cbv zeta.
  apply emits_bind; [apply queryPages_from_emits|intros [st err]].
  apply emits_bind; [apply observeLookup_emits|intros _].
  emits_steps.
Qed.

Lemma lookupChunksForMatcher_emits D cfg h u b name p :
  emits isLookupEvent (lookupChunksForMatcher D cfg h u b name p).
Proof.
  unfold lookupChunksForMatcher, queryPages. cbv zeta.
  apply emits_bind; [apply emits_lift_res|intros matcher].
  destruct (if decide (m_Type matcher = Equal) then _ else _) as [prefix|e];
    [|apply emits_ret].
  apply emits_bind; [apply queryPages_from_emits|intros [st err]].
  apply emits_bind; [apply observeLookup_emits|intros _].
  emits_steps.
Qed.

Lemma lookupChunksFor_recv_emits D cfg h u b name arrivals :
  ∀ sets lastErr,
    emits isLookupEvent (lookupChunksFor_recv D cfg h u b name arrivals sets lastErr).
Proof.
  induction arrivals as [|p rest IH]; intros sets lastErr; cbn [lookupChunksFor_recv];
    [apply emits_ret|].
  apply emits_bind; [apply lookupChunksForMatcher_emits|intros [incoming [e|]]]; apply IH.
Qed.

Lemma lookupChunksFor_emits s D cfg h u b name ms :
  emits isLookupEvent (lookupChunksFor s D cfg h u b name ms).
Proof.
  unfold lookupChunksFor. destruct ms as [|p ms]; [apply lookupChunksForMetricName_emits|].
  apply emits_bind; [apply lookupChunksFor_recv_emits|intros [sets lastErr]].
  apply emits_ret.
Qed.

Lemma lookupChunks_recv_emits s D cfg h u name ms arrivals :
  ∀ chunks lastErr total,
    emits isLookupEvent (lookupChunks_recv s D cfg h u name ms arrivals chunks lastErr total).
Proof.
  induction arrivals as [|b rest IH]; intros chunks lastErr total; cbn [lookupChunks_recv];
    [apply emits_ret|].
  apply emits_bind; [apply lookupChunksFor_emits|intros [[incoming lookups] [e|]]]; apply IH.
Qed.

Lemma lookupChunks_emits s D cfg h u from through ms :
  emits isLookupEvent (lookupChunks s D cfg h u from through ms).
Proof.
  unfold lookupChunks.
  apply emits_bind; [apply emits_lift_res|intros ex].
  destruct (ex_err ex); [apply emits_ret|].
  apply emits_bind; [apply emits_lift_res|intros buckets].
  apply emits_bind; [apply lookupChunks_recv_emits|intros [[chunks lastErr] total]].
  emits_steps.
Qed.

Lemma bind_run {A B} P (m : M A) (f : A → M B) tr :
  emits P m →
  (m ≫= f) tr = match value_of m with
                | Ret a => f a (tr ++ events_of m)
                | Panic msg => (Panic msg, tr ++ events_of m)
                end.
Proof.
  intros [Hm _]. unfold mbind, M_bind. rewrite (Hm tr). by destruct (value_of m).
Qed.

(** ** Get: the lookup phase in terms of the buckets' reports *)

Lemma lookupChunks_recv_value s D cfg h u name ms arrivals rs :
  Forall2 (λ b r, bucketLookup s D cfg h u name ms b = Ret r) arrivals rs →
  ∀ chunks lastErr total tr,
    ∃ total' tr',
      lookupChunks_recv s D cfg h u name ms arrivals chunks lastErr total tr
      = (Ret (mergeLookups D rs chunks, lastError lastErr (snd <$> rs), total'), tr').
Proof.
  induction 1 as [|b [[incoming lookups] err] arrivals rs Hb _ IH];
    intros chunks lastErr total tr.
  - exists total, tr. reflexivity.
  - cbn [lookupChunks_recv].
    rewrite (bind_run _ _ _ _ (lookupChunksFor_emits s D cfg h u b name ms)).
    unfold bucketLookup in Hb. rewrite Hb.
    rewrite fmap_cons, lastError_cons. cbn [snd mergeLookups].
    destruct err as [e|]; apply IH.
Qed.

Lemma lookupChunks_value s D cfg h u from through ms ex buckets rs :
  extractMetricName h ms = Ret ex → ex_err ex = None →
  bigBuckets cfg from through = Ret buckets →
  Forall2 (λ b r, bucketLookup s D cfg h u (ex_metricName ex) (ex_matchers ex) b = Ret r)
          (bucket_sched s bucketSpec buckets) rs →
  value_of (lookupChunks s D cfg h u from through ms)
  = Ret (match filterByTime D from through (mergeLookups D rs []) [] with
         | Ok filtered => (filtered, lastError None (snd <$> rs), ex_array ex)
         | Err e => ([], Some e, ex_array ex)
         end).
Proof.
  intros Hex Herr Hbs Hrs. unfold value_of, lookupChunks.
  rewrite (bind_run _ _ _ _ (emits_lift_res isLookupEvent _)).
  unfold value_of at 1. cbn [lift_res fst]. rewrite Hex, Herr.
  rewrite (bind_run _ _ _ _ (emits_lift_res isLookupEvent _)).
  unfold value_of at 1. cbn [lift_res fst]. rewrite Hbs.
  unfold mbind at 1, M_bind at 1.
  match goal with
  | |- context [lookupChunks_recv _ _ _ _ _ _ _ _ _ _ _ ?tr] =>
      destruct (lookupChunks_recv_value _ _ _ _ _ _ _ _ _ Hrs [] None 0 tr)
        as (total' & tr' & ->)
  end.
  by destruct (filterByTime _ _ _ _ _).
Qed.

(** With a tenant, a lookup phase that reports an error ends [Get]: no
    chunks, that error, and the events of the lookup phase only. *)
Lemma Get_after_failed_lookup s D cfg h ctx u from through ms cs e arr :
  ctx_userID ctx = Some u →
  value_of (lookupChunks s D cfg h u from through ms) = Ret (cs, Some e, arr) →
  value_of (Get s D cfg h ctx from through ms) = Ret (mkGetResult [] (Some e) arr) ∧
  Forall isLookupEvent (events_of (Get s D cfg h ctx from through ms)).
Proof.
  intros Hu Hv. unfold Get, user_GetID. rewrite Hu.
  pose proof (lookupChunks_emits s D cfg h u from through ms) as [Hm HP].
  unfold value_of at 1, events_of, mbind, M_bind. rewrite (Hm []), Hv. cbn.
  split; [done|]. exact HP.
Qed.

Lemma lookup_not_fetch evs :
  Forall isLookupEvent evs → Forall (λ ev, ¬ isFetchEvent ev) evs.
Proof. intros H. eapply Forall_impl; [exact H|]. intros ev Hl Hf. by destruct ev. Qed.

(** C4 (as amended).  When the lookup of at least one bucket fails, [Get]
    returns no chunks and an error, and issues no cache or blob fetch: the
    chunk sets of the successful buckets are merged and time-filtered, then
    dropped.  The error is the last lookup error to arrive, unless a
    merged chunk's ID does not parse, in which case it is the parse
    error. *)
Theorem Get_discards_on_lookup_error s D cfg h ctx u from through ms ex buckets rs e :
  ctx_userID ctx = Some u →
  extractMetricName h ms = Ret ex → ex_err ex = None →
  bigBuckets cfg from through = Ret buckets →
  Forall2 (λ b r, bucketLookup s D cfg h u (ex_metricName ex) (ex_matchers ex) b = Ret r)
          (bucket_sched s bucketSpec buckets) rs →
  last (omap snd rs) = Some e →
  value_of (Get s D cfg h ctx from through ms)
  = Ret (mkGetResult []
           (Some (match filterByTime D from through (mergeLookups D rs []) [] with
                  | Ok _ => e
                  | Err parseErr => parseErr
                  end))
           (ex_array ex)) ∧
  Forall (λ ev, ¬ isFetchEvent ev) (events_of (Get s D cfg h ctx from through ms)).
Proof.
  intros Hu Hex Herr Hbs Hrs Hlast.
  pose proof (lookupChunks_value s D cfg h u from through ms ex buckets rs Hex Herr Hbs Hrs)
    as Hv.
  assert (lastError None (snd <$> rs) = Some e) as HlastE.
  { unfold lastError. by rewrite omap_id_fmap, Hlast. }
  rewrite HlastE in Hv.
  destruct (filterByTime D from through (mergeLookups D rs []) []) as [filtered|pe];
    destruct (Get_after_failed_lookup s D cfg h ctx u from through ms _ _ _ Hu Hv) as [-> HP];
    (split; [done|by apply lookup_not_fetch]).
Qed.

Lemma Get_discards_on_lookup_error_witness :
  ctx_userID ctx_u1 = Some "u1" ∧
  extractMetricName heap_sample [Some 1%nat]
    = Ret (mkExtracted "up" [] None [Some 1%nat]) ∧
  bigBuckets cfg_flaky 0 3600000 = Ret [hour0; hour1] ∧
  Forall2 (λ b r, bucketLookup scheds_rev deps_sample cfg_flaky heap_sample "u1" "up" [] b = Ret r)
          (bucket_sched scheds_rev bucketSpec [hour0; hour1])
          [([], 1, Some "throttled"); ([indexed_a], 1, None)] ∧
  value_of (Get scheds_rev deps_sample cfg_flaky heap_sample ctx_u1 0 3600000 [Some 1%nat])
    = Ret (mkGetResult [] (Some "throttled") [Some 1%nat]) ∧
  Forall (λ ev, ¬ isFetchEvent ev)
    (events_of (Get scheds_rev deps_sample cfg_flaky heap_sample ctx_u1 0 3600000 [Some 1%nat])).
Proof.
  assert (Forall2
            (λ b r, bucketLookup scheds_rev deps_sample cfg_flaky heap_sample "u1" "up" [] b = Ret r)
            (bucket_sched scheds_rev bucketSpec [hour0; hour1])
            [([], 1, Some "throttled"); ([indexed_a], 1, None)]) as Hrs.
  { repeat constructor. }
  split; [reflexivity|]. split; [reflexivity|]. split; [reflexivity|]. split; [exact Hrs|].
  apply (Get_discards_on_lookup_error scheds_rev deps_sample cfg_flaky heap_sample ctx_u1 "u1"
           0 3600000 [Some 1%nat] (mkExtracted "up" [] None [Some 1%nat]) [hour0; hour1]
           [([], 1, Some "throttled"); ([indexed_a], 1, None)] "throttled");
    [reflexivity|reflexivity|reflexivity|reflexivity|exact Hrs|reflexivity].
Defined.

(** C4, as stated, fails: the lookup of hour 0 succeeds and yields chunk
    [a], which overlaps the query range; the lookup of hour 1 fails.
    [Get] returns the lookup error, but nothing else: chunk [a] is
    neither fetched nor returned. *)
Lemma Get_drops_successful_buckets :
  bucketLookup scheds_id deps_sample cfg_flaky heap_sample "u1" "up" [] hour0
    = Ret ([indexed_a], 1, None) ∧
  bucketLookup scheds_id deps_sample cfg_flaky heap_sample "u1" "up" [] hour1
    = Ret ([], 1, Some "throttled") ∧
  overlaps deps_sample 0 3600000 indexed_a ∧
  value_of (Get scheds_id deps_sample cfg_flaky heap_sample ctx_u1 0 3600000 [Some 1%nat])
    = Ret (mkGetResult [] (Some "throttled") [Some 1%nat]) ∧
  Forall (λ ev, ¬ isFetchEvent ev)
    (events_of (Get scheds_id deps_sample cfg_flaky heap_sample ctx_u1 0 3600000 [Some 1%nat])).
Proof.
  split; [reflexivity|]. split; [reflexivity|]. split.
  { exists 1, 0, 64000. split; [reflexivity|lia]. }
  split; [reflexivity|].
  vm_compute. repeat (constructor; [intros H; exact H|]). constructor.
Qed.

(** ** Get: the time filter and the fetch phase *)

Lemma filterByTime_overlaps D from through chunks : ∀ acc filtered,
  filterByTime D from through chunks acc = Ok filtered →
  Forall (overlaps D from through) acc →
  Forall (overlaps D from through) filtered.
Proof.
  induction chunks as [|c rest IH]; intros acc filtered Hrun Hacc; cbn [filterByTime] in Hrun.
  - by injection Hrun as <-.
  - destruct (parseChunkID D (ID c)) as [[[fp chunkFrom] chunkThrough]|e] eqn:Hparse; [|done].
    destruct (bool_decide (chunkThrough < from) || bool_decide (through < chunkFrom)) eqn:Hout.
    + by apply (IH acc).
    + apply (IH (acc ++ [c])); [done|].
      apply Forall_app. split; [done|]. constructor; [|constructor].
      apply orb_false_iff in Hout as [H1 H2].
      apply bool_decide_eq_false in H1, H2.
      exists fp, chunkFrom, chunkThrough. split; [done|lia].
Qed.

Lemma fetchChunk_runs D cfg u c :
  runs (fetchChunk D cfg u c) (Ret (fetchResult D cfg u c))
       [EvS3Get (BucketName cfg) (chunkName u (ID c))].
Proof.
  unfold fetchChunk, fetchResult. cbv zeta.
  apply (runs_bind _ _ tt [_] _ []); [apply runs_emit|].
  destruct (GetObject _ _ _); apply runs_ret.
Qed.

Lemma fetchChunkData_recv_ids D cfg u arrivals :
  decode_keeps_ID D →
  ∀ chunks errors tr cs es tr',
    fetchChunkData_recv D cfg u arrivals chunks errors tr = (Ret (cs, es), tr') →
    ∀ c, c ∈ cs → c ∈ chunks ∨ ∃ c', c' ∈ arrivals ∧ ID c = ID c'.
Proof.
  intros Hdec. induction arrivals as [|a rest IH]; intros chunks errors tr cs es tr' Hrun c Hc.
  - cbn in Hrun. injection Hrun as <- _ _. by left.
  - cbn [fetchChunkData_recv] in Hrun. unfold mbind, M_bind in Hrun.
    rewrite (fetchChunk_runs D cfg u a tr) in Hrun.
    destruct (fetchResult D cfg u a) as [a'|e] eqn:Hres.
    + destruct (IH _ _ _ _ _ _ Hrun c Hc) as [Hin|(c' & Hin & Hid)].
      * apply elem_of_app in Hin as [Hin|Hin%list_elem_of_singleton]; [by left|].
        right. exists a. split; [by left|]. subst c.
        unfold fetchResult in Hres. destruct (GetObject _ _ _) as [body|]; [|done].
        by apply (Hdec a body a').
      * right. exists c'. split; [by right|done].
    + destruct (IH _ _ _ _ _ _ Hrun c Hc) as [Hin|(c' & Hin & Hid)]; [by left|].
      right. exists c'. split; [by right|done].
Qed.

Lemma fetchChunkData_ids s D cfg u chunkSet tr cs tr' :
  decode_keeps_ID D → fair (fetch_sched s) →
  fetchChunkData s D cfg u chunkSet tr = (Ret (cs, None), tr') →
  ∀ c, c ∈ cs → ∃ c', c' ∈ chunkSet ∧ ID c = ID c'.
Proof.
  intros Hdec Hfair Hrun c Hc. unfold fetchChunkData, mbind, M_bind in Hrun.
  destruct (fetchChunkData_recv D cfg u (fetch_sched s Chunk chunkSet) [] [] tr)
    as [[[cs0 es]|msg] tr0] eqn:Hrecv; [|done].
  destruct es as [|e es]; [|done]. injection Hrun as <- _.
  destruct (fetchChunkData_recv_ids D cfg u _ Hdec _ _ _ _ _ _ Hrecv c Hc)
    as [Hin|(c' & Hin & Hid)]; [by apply elem_of_nil in Hin|].
  exists c'. split; [|done]. by rewrite <- (Hfair Chunk chunkSet).
Qed.

(** A [Get] that returns without error went through all its phases. *)
Lemma Get_success_inv s D cfg h ctx from through ms res :
  value_of (Get s D cfg h ctx from through ms) = Ret res → got_err res = None →
  ∃ u missing arr fromS3 tr tr',
    ctx_userID ctx = Some u ∧
    value_of (lookupChunks s D cfg h u from through ms) = Ret (missing, None, arr) ∧
    fetchChunkData s D cfg u (cacheSplit cfg u missing).2 tr = (Ret (fromS3, None), tr') ∧
    got res = sortByID ((cacheSplit cfg u missing).1 ++ fromS3).
Proof.
  unfold value_of at 1, Get, user_GetID.
  destruct (ctx_userID ctx) as [u|]; [|by intros [= <-]].
  rewrite (bind_run _ _ _ _ (lookupChunks_emits s D cfg h u from through ms)).
  destruct (value_of (lookupChunks s D cfg h u from through ms))
    as [[[missing [e|]] arr]|msg] eqn:Hlookup; [by intros [= <-]| |done].
  unfold mbind, M_bind, emit, mret, M_ret, cacheSplit.
  intros Hrun Herr. exists u, missing, arr.
  destruct (ChunkCache cfg) as [cache|].
  - destruct (FetchChunkData cache u missing) as [[found missing'] cerr]. cbn [fst snd] in *.
    match type of Hrun with
    | context [fetchChunkData s D cfg u missing' ?tr] =>
        destruct (fetchChunkData s D cfg u missing' tr) as [[[fromS3 [e|]]|msg] tr'] eqn:Hfetch
    end; cbn in Hrun; try done.
    + injection Hrun as <-. done.
    + injection Hrun as <-. eauto 10.
  - cbn [fst snd] in *.
    match type of Hrun with
    | context [fetchChunkData s D cfg u missing ?tr] =>
        destruct (fetchChunkData s D cfg u missing tr) as [[[fromS3 [e|]]|msg] tr'] eqn:Hfetch
    end; cbn in Hrun; try done.
    + injection Hrun as <-. done.
    + injection Hrun as <-. eauto 10.
Qed.

Lemma lookupChunks_filtered s D cfg h u from through ms missing arr :
  value_of (lookupChunks s D cfg h u from through ms) = Ret (missing, None, arr) →
  Forall (overlaps D from through) missing.
Proof.
  unfold value_of, lookupChunks.
  rewrite (bind_run _ _ _ _ (emits_lift_res isLookupEvent _)).
  unfold value_of at 1. cbn [lift_res fst].
  destruct (extractMetricName h ms) as [ex|msg]; [|done].
  destruct (ex_err ex); [done|].
  rewrite (bind_run _ _ _ _ (emits_lift_res isLookupEvent _)).
  unfold value_of at 1. cbn [lift_res fst].
  destruct (bigBuckets cfg from through) as [buckets|msg]; [|done].
  unfold mbind at 1, M_bind at 1.
  match goal with
  | |- context [lookupChunks_recv ?a1 ?a2 ?a3 ?a4 ?a5 ?a6 ?a7 ?a8 ?a9 ?a10 ?a11 ?tr] =>
      destruct (lookupChunks_recv a1 a2 a3 a4 a5 a6 a7 a8 a9 a10 a11 tr)
        as [[[[chunks lastErr] total]|msg] tr']
  end; [|done].
  destruct (filterByTime D from through chunks []) as [filtered|e] eqn:Hfilter; [|done].
  cbn. intros [= <- _ _].
  by apply (filterByTime_overlaps D from through chunks [] filtered).
Qed.

Lemma overlaps_same_ID D from through c c' :
  ID c = ID c' → overlaps D from through c' → overlaps D from through c.
Proof. intros Hid (fp & f & t & ?). exists fp, f, t. by rewrite Hid. Qed.

(** C6.  Provided decoding a body keeps the chunk's ID and the cache
    answers with chunks it was asked for, every chunk of a [Get] that
    returns without error overlaps the query range, by the bounds parsed
    from its ID; so no chunk whose parsed range ends before [from] or
    starts after [through] is returned. *)
Theorem Get_results_overlap s D cfg h ctx from through ms res :
  decode_keeps_ID D → cache_answers_request cfg → fair (fetch_sched s) →
  value_of (Get s D cfg h ctx from through ms) = Ret res → got_err res = None →
  (∀ c, c ∈ got res → overlaps D from through c) ∧
  (∀ c fp chunkFrom chunkThrough,
     parseChunkID D (ID c) = Ok (fp, chunkFrom, chunkThrough) →
     chunkThrough < from ∨ through < chunkFrom → c ∉ got res).
Proof.
  intros Hdec Hcache Hfair Hrun Herr.
  assert (∀ c, c ∈ got res → overlaps D from through c) as Hall.
  { destruct (Get_success_inv s D cfg h ctx from through ms res Hrun Herr)
      as (u & missing & arr & fromS3 & tr & tr' & Hu & Hlookup & Hfetch & ->).
    pose proof (lookupChunks_filtered _ _ _ _ _ _ _ _ _ _ Hlookup) as Hmissing.
    rewrite Forall_forall in Hmissing.
    assert (∀ c, c ∈ (cacheSplit cfg u missing).1 ++ (cacheSplit cfg u missing).2 →
                 ∃ c', c' ∈ missing ∧ ID c = ID c') as Hsplit.
    { unfold cacheSplit. destruct (ChunkCache cfg) as [cache|] eqn:Hc.
      - destruct (FetchChunkData cache u missing) as [[found missing'] cerr] eqn:Hf.
        cbn [fst snd]. by apply (Hcache cache u missing found missing' cerr).
      - cbn [fst snd app]. eauto. }
    intros c Hc. unfold sortByID in Hc. rewrite merge_sort_Permutation in Hc.
    apply elem_of_app in Hc as [Hc|Hc].
    - destruct (Hsplit c) as (c' & Hin & Hid); [apply elem_of_app; by left|].
      eapply overlaps_same_ID; [exact Hid|by apply Hmissing].
    - destruct (fetchChunkData_ids _ _ _ _ _ _ _ _ Hdec Hfair Hfetch c Hc) as (c1 & Hin1 & Hid1).
      destruct (Hsplit c1) as (c' & Hin & Hid); [apply elem_of_app; by right|].
      eapply overlaps_same_ID; [by rewrite Hid1|by apply Hmissing]. }
  split; [exact Hall|].
  intros c fp chunkFrom chunkThrough Hparse Hout Hin.
  destruct (Hall c Hin) as (fp' & f & t & Hparse' & ? & ?).
  rewrite Hparse in Hparse'. injection Hparse' as _ <- <-. lia.
Qed.

Lemma decode_keeps_ID_sample : decode_keeps_ID deps_sample.
Proof. intros c body c' [= <-]. reflexivity. Qed.

Lemma cache_cold_answers : cache_answers_request cfg_cached.
Proof.
  intros cache u req found missing err [= <-] [= <- <- _] c Hc. exists c. split; [|done].
  by rewrite app_nil_l in Hc.
Qed.

Lemma Get_results_overlap_witness :
  decode_keeps_ID deps_sample ∧ cache_answers_request cfg_cached ∧
  fair (fetch_sched scheds_rev) ∧
  ∃ res,
    value_of (Get scheds_rev deps_sample cfg_cached heap_sample ctx_u1 0 64000
                [Some 1%nat; Some 2%nat]) = Ret res ∧
    got_err res = None ∧
    (∀ c, c ∈ got res → overlaps deps_sample 0 64000 c) ∧
    (∀ c fp chunkFrom chunkThrough,
       parseChunkID deps_sample (ID c) = Ok (fp, chunkFrom, chunkThrough) →
       chunkThrough < 0 ∨ 64000 < chunkFrom → c ∉ got res).
Proof.
  split; [exact decode_keeps_ID_sample|]. split; [exact cache_cold_answers|].
  split; [apply fair_rev|].
  eexists. split; [vm_compute; reflexivity|]. split; [reflexivity|].
  apply (Get_results_overlap scheds_rev deps_sample cfg_cached heap_sample ctx_u1 0 64000
           [Some 1%nat; Some 2%nat]);
    [exact decode_keeps_ID_sample|exact cache_cold_answers|apply fair_rev
    |vm_compute; reflexivity|reflexivity].
Defined.

(** ** Pagination *)

Lemma pageVisitor_stops_on_success D matcher st resp lastPage st' shouldContinue :
  pageVisitor D matcher st resp lastPage = Ret (st', shouldContinue) →
  processingError st' = None → shouldContinue = false.
Proof.
  unfold pageVisitor.
  destruct (processResponse D resp (chunkSet st) matcher) as [[[dropped perr] cs]|msg];
    [|done].
  cbn. intros [= <- <-]. cbn. by intros ->.
Qed.

(** C5 fails on the code.  Whatever pages follow a first page whose rows
    all process without error, the lookup by metric name asks for that one
    page only and returns the chunks of that page only: the visitor
    answers "stop" exactly when processing succeeded. *)
Theorem lookup_reads_first_page_only D cfg u b name page1 rest dropped cs :
  Query (DynamoDB cfg) (metricNameQuery u b name) = Ok page1 :: rest →
  processResponse D page1 [] None = Ret (dropped, None, cs) →
  (∀ lastPage, pageVisitor D None (mkLookupState [] None 0 0) page1 lastPage
                 = Ret (mkLookupState cs None 1 dropped, false)) ∧
  lookupChunksForMetricName D cfg u b name []
    = (Ret (unique D (sortByID cs), 1, None),
       [EvQuery (metricNameQuery u b name);
        EvObserve "cortex_query_dynamo_request_pages" 1;
        EvObserve "cortex_query_dynamo_dropped_matches_total" dropped]).
Proof.
  intros Hquery Hproc. split.
  - intros lastPage. unfold pageVisitor. cbn [chunkSet]. rewrite Hproc. reflexivity.
  - unfold lookupChunksForMetricName, queryPages. cbv zeta.
    fold (metricNameQuery u b name). rewrite Hquery.
    cbn [queryPages_from]. unfold pageVisitor. cbn [chunkSet].
    unfold mbind, M_bind, emit, lift_res, mret, M_ret, res_bind. rewrite Hproc.
    reflexivity.
Qed.

Lemma lookup_reads_first_page_only_witness :
  Query (DynamoDB cfg_two_pages) (metricNameQuery "u1" hour0 "up")
    = [Ok (mkQueryOutput [row "job" "api" "a"]); Ok (mkQueryOutput [row "job" "db" "b"])] ∧
  processResponse deps_sample (mkQueryOutput [row "job" "api" "a"]) [] None
    = Ret (0, None, [indexed_a]) ∧
  (∀ lastPage,
     pageVisitor deps_sample None (mkLookupState [] None 0 0)
       (mkQueryOutput [row "job" "api" "a"]) lastPage
     = Ret (mkLookupState [indexed_a] None 1 0, false)) ∧
  lookupChunksForMetricName deps_sample cfg_two_pages "u1" hour0 "up" []
    = (Ret (unique deps_sample (sortByID [indexed_a]), 1, None),
       [EvQuery (metricNameQuery "u1" hour0 "up");
        EvObserve "cortex_query_dynamo_request_pages" 1;
        EvObserve "cortex_query_dynamo_dropped_matches_total" 0]).
Proof.
  split; [reflexivity|]. split; [reflexivity|].
  apply (lookup_reads_first_page_only deps_sample cfg_two_pages "u1" hour0 "up"
           (mkQueryOutput [row "job" "api" "a"]) [Ok (mkQueryOutput [row "job" "db" "b"])]
           0 [indexed_a]); reflexivity.
Defined.

(** ** The caller's matchers *)

Lemma last_cons_default {A} (x : A) l : last (x :: l) = Some (default x (last l)).
Proof.
  destruct l as [|y l]; [done|]. rewrite last_cons_cons.
  destruct (last (y :: l)) eqn:E; [done|]. by apply last_None in E.
Qed.

Lemma drop_length_cons {A} (l : list A) : ∀ x, drop (length l) (x :: l) = [default x (last l)].
Proof.
  induction l as [|y l IH]; intros x; [done|].
  cbn [length drop]. rewrite IH, last_cons_default. done.
Qed.

Lemma go_copy_cut {A} (pre : list A) p post :
  go_copy (pre ++ p :: post) (length pre) (S (length pre))
  = (pre ++ post ++ [default p (last post)], length post).
Proof.
  unfold go_copy.
  replace (drop (S (length pre)) (pre ++ p :: post)) with post.
  2:{ replace (S (length pre)) with (length pre + 1)%nat by lia.
      by rewrite drop_app_add. }
  rewrite drop_app_length. cbn [length].
  rewrite Nat.min_r by lia.
  rewrite take_app_length, firstn_all.
  rewrite drop_app_add. by rewrite drop_length_cons.
Qed.

Lemma extractMetricName_from_cut h post p m : ∀ pre seen,
  Forall (isOtherMatcher h) pre →
  deref h p = Ret m → m_Name m = MetricNameLabel → m_Type m = Equal →
  extractMetricName_from h (seen ++ pre ++ p :: post) (length seen) (pre ++ p :: post)
  = Ret (mkExtracted (m_Value m) (seen ++ pre ++ post) None (shifted (seen ++ pre) p post)).
Proof.
  induction pre as [|q pre IH]; intros seen Hpre Hp Hname Htype.
  - cbn [app extractMetricName_from]. rewrite Hp, bind_Ret.
    rewrite bool_decide_eq_false_2 by (intros Hne; by apply Hne).
    rewrite bool_decide_eq_false_2 by (intros Hne; by apply Hne).
    rewrite go_copy_cut. rewrite app_nil_r. unfold shifted.
    f_equal. f_equal.
    rewrite app_assoc.
    by rewrite take_app_length' by (rewrite length_app; lia).
  - apply Forall_cons in Hpre as [(mq & Hq & Hqname) Hpre].
    cbn [app extractMetricName_from]. rewrite Hq, bind_Ret.
    rewrite bool_decide_eq_true_2 by done.
    specialize (IH (seen ++ [q]) Hpre Hp Hname Htype).
    rewrite length_app in IH. cbn [length] in IH.
    replace (length seen + 1)%nat with (S (length seen)) in IH by lia.
    rewrite <- !app_assoc in IH. cbn [app] in IH.
    rewrite IH. unfold shifted. by rewrite <- !app_assoc.
Qed.

Lemma extractMetricName_cut h pre p post m :
  Forall (isOtherMatcher h) pre →
  deref h p = Ret m → m_Name m = MetricNameLabel → m_Type m = Equal →
  extractMetricName h (pre ++ p :: post)
  = Ret (mkExtracted (m_Value m) (pre ++ post) None (shifted pre p post)).
Proof.
  intros. unfold extractMetricName.
  by apply (extractMetricName_from_cut h post p m pre []).
Qed.

(** Whenever [lookupChunks] returns, the array it hands back is the one
    [extractMetricName] left. *)
Lemma lookupChunks_array s D cfg h u from through ms cs err arr :
  value_of (lookupChunks s D cfg h u from through ms) = Ret (cs, err, arr) →
  ∃ ex, extractMetricName h ms = Ret ex ∧ arr = ex_array ex.
Proof.
  unfold value_of, lookupChunks.
  rewrite (bind_run _ _ _ _ (emits_lift_res isLookupEvent _)).
  unfold value_of at 1. cbn [lift_res fst].
  destruct (extractMetricName h ms) as [ex|msg]; [|done].
  destruct (ex_err ex); [cbn; intros [= _ _ <-]; eauto|].
  rewrite (bind_run _ _ _ _ (emits_lift_res isLookupEvent _)).
  unfold value_of at 1. cbn [lift_res fst].
  destruct (bigBuckets cfg from through) as [buckets|msg]; [|done].
  unfold mbind at 1, M_bind at 1.
  match goal with
  | |- context [lookupChunks_recv ?a1 ?a2 ?a3 ?a4 ?a5 ?a6 ?a7 ?a8 ?a9 ?a10 ?a11 ?tr] =>
      destruct (lookupChunks_recv a1 a2 a3 a4 a5 a6 a7 a8 a9 a10 a11 tr)
        as [[[[chunks lastErr] total]|msg] tr']
  end; [|done].
  destruct (filterByTime D from through chunks []); cbn; intros [= _ _ <-]; eauto.
Qed.

(** With a tenant, the slice [Get] hands back is the array of its lookup
    phase, on every path on which it returns. *)
Lemma Get_caller_matchers s D cfg h ctx u from through ms res :
  ctx_userID ctx = Some u →
  value_of (Get s D cfg h ctx from through ms) = Ret res →
  ∃ ex, extractMetricName h ms = Ret ex ∧ caller_matchers res = ex_array ex.
Proof.
  intros Hu. unfold value_of at 1, Get, user_GetID. rewrite Hu.
  rewrite (bind_run _ _ _ _ (lookupChunks_emits s D cfg h u from through ms)).
  destruct (value_of (lookupChunks s D cfg h u from through ms))
    as [[[missing err] arr]|msg] eqn:Hlookup; [|done].
  destruct (lookupChunks_array _ _ _ _ _ _ _ _ _ _ _ Hlookup) as (ex & Hex & ->).
  exists ex. split; [done|].
  destruct err as [e|]; [by injection H as <-|].
  revert H. unfold mbind, M_bind, emit, mret, M_ret.
  destruct (ChunkCache cfg) as [cache|].
  - destruct (FetchChunkData cache u missing) as [[found missing'] cerr].
    match goal with
    | |- context [fetchChunkData s D cfg u missing' ?tr] =>
        destruct (fetchChunkData s D cfg u missing' tr) as [[[fromS3 [e|]]|msg] tr']
    end; cbn; try done; by intros [= <-].
  - match goal with
    | |- context [fetchChunkData s D cfg u missing ?tr] =>
        destruct (fetchChunkData s D cfg u missing tr) as [[[fromS3 [e|]]|msg] tr']
    end; cbn; try done; by intros [= <-].
Qed.

(** C10 (as amended).  With a tenant in the context, a [Get] that returns
    leaves the caller's slice as follows when its first [__name__] matcher
    is an equality matcher: the matchers before it stay, the matchers
    after it have moved one place to the left, and the last slot keeps
    its old element.  When the [__name__] matcher is the last element the
    slice is as the caller passed it. *)
Theorem Get_shifts_callers_matchers s D cfg h ctx u from through pre p post m res :
  ctx_userID ctx = Some u →
  Forall (isOtherMatcher h) pre →
  deref h p = Ret m → m_Name m = MetricNameLabel → m_Type m = Equal →
  value_of (Get s D cfg h ctx from through (pre ++ p :: post)) = Ret res →
  caller_matchers res = shifted pre p post ∧
  (post = [] → caller_matchers res = pre ++ p :: post).
Proof.
  intros Hu Hpre Hp Hname Htype Hrun.
  destruct (Get_caller_matchers _ _ _ _ _ _ _ _ _ _ Hu Hrun) as (ex & Hex & ->).
  rewrite (extractMetricName_cut h pre p post m Hpre Hp Hname Htype) in Hex.
  injection Hex as <-. split; [done|]. by intros ->.
Qed.

Lemma Get_shifts_callers_matchers_witness :
  ctx_userID ctx_u1 = Some "u1" ∧
  Forall (isOtherMatcher heap_sample) [Some 2%nat] ∧
  deref heap_sample (Some 1%nat) = Ret name_up ∧
  m_Name name_up = MetricNameLabel ∧ m_Type name_up = Equal ∧
  ∃ res,
    value_of (Get scheds_rev deps_sample cfg_hour0 heap_sample ctx_u1 0 64000
                ([Some 2%nat] ++ Some 1%nat :: [Some 3%nat; Some 2%nat])) = Ret res ∧
    caller_matchers res = shifted [Some 2%nat] (Some 1%nat) [Some 3%nat; Some 2%nat] ∧
    ([Some 3%nat; Some 2%nat] = [] →
       caller_matchers res = [Some 2%nat] ++ Some 1%nat :: [Some 3%nat; Some 2%nat]).
Proof.
  assert (Forall (isOtherMatcher heap_sample) [Some 2%nat]) as Hpre.
  { constructor; [|constructor]. exists job_api. split; [reflexivity|discriminate]. }
  split; [reflexivity|]. split; [exact Hpre|]. split; [reflexivity|].
  split; [reflexivity|]. split; [reflexivity|].
  eexists. split; [vm_compute; reflexivity|].
  apply (Get_shifts_callers_matchers scheds_rev deps_sample cfg_hour0 heap_sample ctx_u1 "u1"
           0 64000 [Some 2%nat] (Some 1%nat) [Some 3%nat; Some 2%nat] name_up);
    [reflexivity|exact Hpre|reflexivity|reflexivity|reflexivity|vm_compute; reflexivity].
Defined.

(** C10, as stated, fails: a [Get] whose [__name__] equality matcher is
    the last (or the only) element of the caller's slice returns with the
    slice as it was; so does a [Get] without a tenant. *)
Lemma Get_leaves_matchers_when_name_is_last :
  deref heap_sample (Some 1%nat) = Ret name_up ∧
  (∃ res,
     value_of (Get scheds_id deps_sample cfg_hour0 heap_sample ctx_u1 0 64000
                 [Some 2%nat; Some 1%nat]) = Ret res ∧
     got_err res = None ∧ caller_matchers res = [Some 2%nat; Some 1%nat]) ∧
  value_of (Get scheds_id deps_sample cfg_hour0 heap_sample ctx_u1 0 64000 [Some 1%nat])
    = Ret (mkGetResult [mkChunk "a" 0 0 ∅ "" false] None [Some 1%nat]) ∧
  value_of (Get scheds_id deps_sample cfg_hour0 heap_sample ctx_anonymous 0 64000
              [Some 1%nat; Some 2%nat])
    = Ret (mkGetResult [] (Some "ErrNoTenant") [Some 1%nat; Some 2%nat]).
Proof.
  split; [reflexivity|]. split; [|split; vm_compute; reflexivity].
  eexists. split; [vm_compute; reflexivity|]. split; reflexivity.
Qed.

(** ** The ruler *)

Lemma Stop_workers_nil_done ws σ :
  ws ≠ [] → Forall (λ w, done w = None) ws →
  Ruler.Stop_workers ws σ = (Panicked "close of nil channel", σ).
Proof.
  intros Hne Hall. destruct ws as [|w ws]; [done|].
  apply Forall_cons in Hall as [Hw _].
  cbn [Ruler.Stop_workers]. unfold Ruler.worker_Stop. by rewrite Hw.
Qed.

(** C7 fails on the code.  [newWorker] leaves [done] and [terminated]
    nil, so on every server that [NewServer] builds, [Stop] panics at the
    [close(w.done)] of its first worker: it closes nothing, waits for no
    worker and never reaches the scheduler. *)
Theorem Stop_panics_on_nil_channel url_Parse cfg σ :
  url_Parse (ConfigsAPIURL cfg) = None → 0 < NumWorkers cfg →
  ∃ srv,
    Ruler.NewServer url_Parse cfg = Ok srv ∧
    Ruler.workers srv = replicate (Z.to_nat (NumWorkers cfg)) (mkWorker None None) ∧
    Ruler.Stop srv σ = (Panicked "close of nil channel", σ, []).
Proof.
  intros Hurl Hn. unfold Ruler.NewServer. rewrite Hurl.
  rewrite bool_decide_eq_false_2 by lia.
  eexists. split; [reflexivity|]. split; [reflexivity|].
  unfold Ruler.Stop. cbn [Ruler.workers].
  rewrite Stop_workers_nil_done; [done| |].
  - destruct (Z.to_nat (NumWorkers cfg)) eqn:E; [lia|done].
  - apply Forall_replicate. reflexivity.
Qed.

Lemma Stop_panics_on_nil_channel_witness :
  (λ _ : string, @None error) (ConfigsAPIURL cfg_two_workers) = None ∧
  0 < NumWorkers cfg_two_workers ∧
  ∃ srv,
    Ruler.NewServer (λ _, None) cfg_two_workers = Ok srv ∧
    Ruler.workers srv
      = replicate (Z.to_nat (NumWorkers cfg_two_workers)) (mkWorker None None) ∧
    Ruler.Stop srv ∅ = (Panicked "close of nil channel", ∅, []).
Proof.
  split; [reflexivity|]. split; [reflexivity|].
  apply (Stop_panics_on_nil_channel (λ _, None) cfg_two_workers ∅); reflexivity.
Defined.

Lemma Run_trace_no_ack w turns : ∀ σ tr,
  Forall (λ e, ¬ isAck e) tr → Forall (λ e, ¬ isAck e) (Ruler.Run w turns σ tr).2.
Proof.
  induction turns as [|t rest IH]; intros σ tr Htr; cbn [Ruler.Run]; [done|].
  destruct (done_selected w t).
  - unfold run_exit. by destruct (go_close (terminated w) σ).
  - destruct (next t) as [item|].
    + apply IH. apply Forall_app. split; [done|].
      repeat constructor; by intros [].
    + unfold run_exit.
      assert (Forall (λ e, ¬ isAck e) (tr ++ [EvNextWorkItem None])) as H.
      { apply Forall_app. split; [done|]. repeat constructor. by intros []. }
      by destruct (go_close (terminated w) σ).
Qed.

(** The older copy of the worker, [src/ruler/ruler.go], has no ack yet:
    whatever the scheduler hands out, its loop goes from [Evaluate]
    straight to the next [nextWorkItem] and its trace never holds a
    [workItemDone].  On the items [A], [B] and then a closed queue it
    reads as shown. *)
Lemma Run_never_acks :
  (∀ w turns σ item, EvWorkItemDone item ∉ (Ruler.Run w turns σ []).2) ∧
  Ruler.Run Ruler.newWorker turns_A_B_closed ∅ []
  = (Panicked "close of nil channel", ∅,
     [EvNextWorkItem (Some item_A); EvEvaluate "A" ["rule-1"; "rule-2"]; EvRulesProcessed 2;
      EvNextWorkItem (Some item_B); EvEvaluate "B" ["rule-3"]; EvRulesProcessed 1;
      EvNextWorkItem None]).
Proof.
  split; [|reflexivity].
  intros w turns σ item Hin.
  pose proof (Run_trace_no_ack w turns σ [] ltac:(constructor)) as H.
  rewrite Forall_forall in H. by apply (H _ Hin).
Qed.

Lemma RunRev_trace w turns : ∀ σ tr,
  ∃ served rest items tail,
    turns = served ++ rest ∧
    Forall (λ t, done_selected w t = false) served ∧
    next <$> served = Some <$> items ∧
    match rest with
    | [] => tail = []
    | t :: _ =>
        if done_selected w t then tail = []
        else next t = None ∧ tail = [EvNextWorkItem None]
    end ∧
    (RulerRev.Run w turns σ tr).2 = tr ++ concat (ackedTurn <$> items) ++ tail.
Proof.
  induction turns as [|t turns IH]; intros σ tr.
  - exists [], [], [], []. cbn. by rewrite app_nil_r.
  - cbn [RulerRev.Run]. destruct (done_selected w t) eqn:Hsel.
    + exists [], (t :: turns), [], []. rewrite Hsel. cbn.
      split; [done|]. split; [done|]. split; [done|]. split; [done|].
      unfold run_exit. destruct (go_close (terminated w) σ); cbn; by rewrite app_nil_r.
    + destruct (next t) as [item|] eqn:Hnext.
      * destruct (IH σ (tr ++ [EvNextWorkItem (Some item)]
                          ++ Evaluate (userID item) (rules item) ++ [EvWorkItemDone item]))
          as (served & rest & items & tail & -> & Hserved & Hitems & Hrest & ->).
        exists (t :: served), rest, (item :: items), tail.
        split; [done|]. split; [by constructor|].
        split; [by rewrite !fmap_cons, Hnext, Hitems|]. split; [done|].
        rewrite fmap_cons. cbn [concat]. unfold ackedTurn at 2, Evaluate.
        by rewrite <- !app_assoc.
      * exists [], (t :: turns), [], [EvNextWorkItem None]. rewrite Hsel. cbn.
        split; [done|]. split; [done|]. split; [done|]. split; [done|].
        unfold run_exit. by destruct (go_close (terminated w) σ).
Qed.

(** C8.  In [worker.Run] as the spec describes it (the copy with
    [workItemDone], [chunk_store.go] lines 777-796), for any worker, any
    answers of the scheduler and any state of the channels: the worker
    serves the turns up to the first one at which [done] is selected or
    the queue is reported closed, and its trace is, for each item
    obtained and in the order obtained, [nextWorkItem] giving the item,
    the evaluation of the item's rules under the item's tenant, the
    counter update and then [workItemDone] of that same item, each ack
    coming after the evaluation and before the next [nextWorkItem];
    nothing else is in the trace but the final closed-queue answer, if
    that is how the loop ended.  On the items [A], [B] and then a closed
    queue it reads as shown. *)
Theorem Run_acks_before_next_item w turns σ :
  (∃ served rest items tail,
     turns = served ++ rest ∧
     Forall (λ t, done_selected w t = false) served ∧
     next <$> served = Some <$> items ∧
     match rest with
     | [] => tail = []
     | t :: _ =>
         if done_selected w t then tail = []
         else next t = None ∧ tail = [EvNextWorkItem None]
     end ∧
     (RulerRev.Run w turns σ []).2 = concat (ackedTurn <$> items) ++ tail) ∧
  RulerRev.Run RulerRev.newWorker turns_A_B_closed ∅ []
  = (Panicked "close of nil channel", ∅,
     [EvNextWorkItem (Some item_A); EvEvaluate "A" ["rule-1"; "rule-2"]; EvRulesProcessed 2;
      EvWorkItemDone item_A;
      EvNextWorkItem (Some item_B); EvEvaluate "B" ["rule-3"]; EvRulesProcessed 1;
      EvWorkItemDone item_B;
      EvNextWorkItem None]).
Proof.
  split; [|reflexivity].
  destruct (RunRev_trace w turns σ []) as (served & rest & items & tail & H).
  exists served, rest, items, tail. exact H.
Qed.

(** * Further properties of the code *)

(** ** The bucket planner: what readers and writers can rely on *)

Lemma Forall2_elem_r {A B} (R : A → B → Prop) l k y :
  Forall2 R l k → y ∈ k → ∃ x, x ∈ l ∧ R x y.
Proof.
  induction 1 as [|x y' l k Hxy _ IH]; intros Hin; [by apply elem_of_nil in Hin|].
  apply elem_of_cons in Hin as [->|Hin].
  - exists x. split; [by left|done].
  - destruct (IH Hin) as (x' & ? & ?). exists x'. split; [by right|done].
Qed.

Lemma isHourly_functional cfg b b' h : isHourly cfg b h → isHourly cfg b' h → b = b'.
Proof.
  intros [Hb Ht] [Hb' Ht']. destruct b, b'. cbn in *. rewrite Ht in Ht'.
  injection Ht' as ->. by subst.
Qed.

Lemma isDaily_functional cfg b b' d : isDaily cfg b d → isDaily cfg b' d → b = b'.
Proof.
  intros [Hb Ht] [Hb' Ht']. destruct b, b'. cbn in *. rewrite Ht in Ht'.
  injection Ht' as ->. by subst.
Qed.

(** An instant whose day lies below the cutover has its hour below the
    cutover too, on either side of the epoch. *)
Lemma below_cutover (t fd : Z) : dayOf t < fd → hourOf t < fd * 24.
Proof.
  unfold hourOf, dayOf, secondsInHour, secondsInDay. generalize (Time_Unix t). intros u H.
  Z.to_euclidean_division_equations. lia.
Qed.

Lemma instant_hourly_elem cfg from through t :
  from <= t <= through → dayOf t < firstDailyBucket cfg →
  hourOf t ∈ hourlyRange cfg from through.
Proof.
  intros [Hlo Hhi] Hd. unfold hourlyRange.
  apply list_elem_of_filter. split.
  - unfold lastHourlyBucket. by apply below_cutover.
  - apply elem_of_seqZ. pose proof (hourOf_mono _ _ Hlo). pose proof (hourOf_mono _ _ Hhi). lia.
Qed.

Lemma instant_daily_elem cfg from through t :
  from <= t <= through → firstDailyBucket cfg <= dayOf t →
  dayOf t ∈ dailyRange cfg from through.
Proof.
  intros [Hlo Hhi] Hd. unfold dailyRange.
  apply list_elem_of_filter. split; [done|].
  apply elem_of_seqZ. pose proof (dayOf_mono _ _ Hlo). pose proof (dayOf_mono _ _ Hhi). lia.
Qed.

Lemma shared_bucket cfg from1 through1 from2 through2 t :
  periodOK cfg → from1 <= t <= through1 → from2 <= t <= through2 →
  ∃ out1 out2 b,
    bigBuckets cfg from1 through1 = Ret out1 ∧
    bigBuckets cfg from2 through2 = Ret out2 ∧
    b ∈ out1 ∧ b ∈ out2 ∧
    (isHourly cfg b (hourOf t) ∨ isDaily cfg b (dayOf t)).
Proof.
  intros Hok H1 H2.
  destruct (bigBuckets_shape cfg from1 through1 Hok) as (h1 & d1 & -> & Hh1 & Hd1).
  destruct (bigBuckets_shape cfg from2 through2 Hok) as (h2 & d2 & -> & Hh2 & Hd2).
  exists (h1 ++ d1), (h2 ++ d2).
  destruct (decide (dayOf t < firstDailyBucket cfg)) as [Hbelow|Habove].
  - destruct (Forall2_elem_r _ _ _ _ Hh1 (instant_hourly_elem cfg _ _ t H1 Hbelow))
      as (b & Hb1 & Hb).
    destruct (Forall2_elem_r _ _ _ _ Hh2 (instant_hourly_elem cfg _ _ t H2 Hbelow))
      as (b' & Hb2 & Hb').
    rewrite <- (isHourly_functional cfg b b' _ Hb Hb') in Hb2.
    exists b. repeat split; try done; [apply elem_of_app; by left..|by left].
  - assert (firstDailyBucket cfg <= dayOf t) as Hd by lia.
    destruct (Forall2_elem_r _ _ _ _ Hd1 (instant_daily_elem cfg _ _ t H1 Hd))
      as (b & Hb1 & Hb).
    destruct (Forall2_elem_r _ _ _ _ Hd2 (instant_daily_elem cfg _ _ t H2 Hd))
      as (b' & Hb2 & Hb').
    rewrite <- (isDaily_functional cfg b b' _ Hb Hb') in Hb2.
    exists b. repeat split; try done; [apply elem_of_app; by right..|by right].
Qed.

(** X1.  Read/write agreement of the planner: two ranges that share an
    instant share a bucket, with the same table and the same bucket ID,
    namely the hourly or the daily bucket of that instant.  So a chunk is
    indexed in at least one bucket that every query overlapping it
    reads. *)
Theorem bigBuckets_overlap_shares_bucket cfg from1 through1 from2 through2 t :
  periodOK cfg → from1 <= t <= through1 → from2 <= t <= through2 →
  ∃ out1 out2 b,
    bigBuckets cfg from1 through1 = Ret out1 ∧
    bigBuckets cfg from2 through2 = Ret out2 ∧
    b ∈ out1 ∧ b ∈ out2 ∧
    (isHourly cfg b (hourOf t) ∨ isDaily cfg b (dayOf t)).
Proof. apply shared_bucket. Qed.

Lemma bigBuckets_overlap_shares_bucket_witness :
  periodOK cfg_weekly ∧ 0 <= 62000 <= 64000 ∧ 60000 <= 62000 <= 7200000 ∧
  ∃ out1 out2 b,
    bigBuckets cfg_weekly 0 64000 = Ret out1 ∧
    bigBuckets cfg_weekly 60000 7200000 = Ret out2 ∧
    b ∈ out1 ∧ b ∈ out2 ∧
    (isHourly cfg_weekly b (hourOf 62000) ∨ isDaily cfg_weekly b (dayOf 62000)).
Proof.
  assert (periodOK cfg_weekly) as Hok by (intros _; vm_compute; discriminate).
  split; [exact Hok|]. split; [lia|]. split; [lia|].
  apply (bigBuckets_overlap_shares_bucket cfg_weekly 0 64000 60000 7200000 62000);
    [exact Hok|lia|lia].
Defined.

Lemma filter_all {A} (P : A → Prop) `{∀ x, Decision (P x)} (l : list A) :
  Forall P l → filter P l = l.
Proof.
  induction 1 as [|x l Hx _ IH]; [done|]. by rewrite filter_cons_True, IH.
Qed.

(** X2.  One scheme on either side of the cutover, for a configuration
    whose table period is usable ([periodOK]): a range that ends
    before the first daily bucket is planned in hourly buckets only, one
    for each hour from [fromHour] to [throughHour]; a range that starts
    neither before the epoch nor before the first daily bucket is planned
    in daily buckets only, one for each day from [fromDay] to
    [throughDay]. *)
Theorem bigBuckets_single_scheme cfg from through :
  periodOK cfg →
  ∃ out,
    bigBuckets cfg from through = Ret out ∧
    (dayOf through < firstDailyBucket cfg →
       Forall2 (isHourly cfg) out (seqZ (hourOf from) (hourOf through - hourOf from + 1))) ∧
    (0 <= from → firstDailyBucket cfg <= dayOf from →
       Forall2 (isDaily cfg) out (seqZ (dayOf from) (dayOf through - dayOf from + 1))).
Proof.
  intros Hok.
  destruct (bigBuckets_shape cfg from through Hok) as (hs & ds & -> & Hh & Hd).
  exists (hs ++ ds). split; [done|]. split.
  - intros Hbefore.
    pose proof (below_cutover through _ Hbefore) as Hlast.
    unfold hourlyRange in Hh. unfold dailyRange in Hd.
    rewrite filter_all in Hh.
    2:{ apply Forall_forall. intros h Hin%elem_of_seqZ. unfold lastHourlyBucket. lia. }
    rewrite filter_none in Hd.
    2:{ apply Forall_forall. intros d Hin%elem_of_seqZ. lia. }
    apply Forall2_nil_inv_r in Hd as ->. by rewrite app_nil_r.
  - intros Hfrom Hafter.
    pose proof (proj2 (cutover_aligned from (firstDailyBucket cfg) Hfrom)) as Hlast.
    unfold hourlyRange in Hh. unfold dailyRange in Hd.
    rewrite filter_none in Hh.
    2:{ apply Forall_forall. intros h Hin%elem_of_seqZ. unfold lastHourlyBucket.
        intros Hlt. assert (hourOf from < firstDailyBucket cfg * 24) as Hc by lia.
        apply cutover_aligned in Hc; [lia|done]. }
    rewrite filter_all in Hd.
    2:{ apply Forall_forall. intros d Hin%elem_of_seqZ. lia. }
    apply Forall2_nil_inv_r in Hh as ->. done.
Qed.

Lemma bigBuckets_single_scheme_witness :
  periodOK cfg_weekly ∧
  ∃ out,
    bigBuckets cfg_weekly 172800000 400000000 = Ret out ∧
    (dayOf 400000000 < firstDailyBucket cfg_weekly →
       Forall2 (isHourly cfg_weekly) out
         (seqZ (hourOf 172800000) (hourOf 400000000 - hourOf 172800000 + 1))) ∧
    (0 <= 172800000 → firstDailyBucket cfg_weekly <= dayOf 172800000 →
       Forall2 (isDaily cfg_weekly) out
         (seqZ (dayOf 172800000) (dayOf 400000000 - dayOf 172800000 + 1))).
Proof.
  split; [intros _; vm_compute; discriminate|].
  apply (bigBuckets_single_scheme cfg_weekly 172800000 400000000).
  intros _; vm_compute; discriminate.
Defined.

(** X3.  For a configuration whose table period is usable
    ([periodOK]), the planner never emits a bucket ID twice, so no index
    row of a chunk is written twice and no bucket is queried twice. *)
Theorem bigBuckets_no_duplicates cfg from through :
  periodOK cfg →
  ∃ out, bigBuckets cfg from through = Ret out ∧ NoDup (bucket <$> out).
Proof.
  intros Hok.
  destruct (bigBuckets_shape cfg from through Hok) as (hs & ds & -> & Hh & Hd).
  exists (hs ++ ds). split; [done|].
  rewrite fmap_app, (hourly_names _ _ _ Hh), (daily_names _ _ _ Hd).
  apply NoDup_app. split; [|split].
  - apply NoDup_fmap_2_strong.
    + intros x y _ _ E. by apply pretty_Z_inj in E.
    + apply NoDup_filter, NoDup_seqZ.
  - intros x Hx Hd'. apply list_elem_of_fmap in Hx as (h & -> & _).
    apply list_elem_of_fmap in Hd' as (d & E & _). by apply pretty_Z_ne_d in E.
  - apply NoDup_fmap_2_strong.
    + intros x y _ _ E. injection E as E. simpl in E. by apply pretty_Z_inj in E.
    + apply NoDup_filter, NoDup_seqZ.
Qed.

Lemma bigBuckets_no_duplicates_witness :
  periodOK cfg_weekly ∧
  ∃ out, bigBuckets cfg_weekly 0 400000000 = Ret out ∧ NoDup (bucket <$> out).
Proof.
  split; [intros _; vm_compute; discriminate|].
  apply (bigBuckets_no_duplicates cfg_weekly 0 400000000).
  intros _; vm_compute; discriminate.
Defined.

(** ** The bucket planner: when it panics *)

Lemma tableForBucket_panic_iff cfg st :
  (∃ msg, tableForBucket cfg st = Panic msg) ↔
  UsePeriodicTables (periodic cfg) = true ∧
  PeriodicTableStartAt (periodic cfg) <= st ∧
  Z.quot (TablePeriod (periodic cfg)) time_Second = 0.
Proof.
  unfold tableForBucket, go_div.
  destruct (UsePeriodicTables (periodic cfg)); cbn [negb orb].
  2:{ split; [by intros [? ?]|by intros [? _]]. }
  case_bool_decide as Hlt.
  { split; [by intros [? ?]|]. intros (_ & ? & _). lia. }
  destruct (decide _) as [Hz|Hz]; cbn.
  - split; [|by eauto]. intros _. repeat split; [lia|done].
  - split; [by intros [? ?]|]. by intros (_ & _ & ?).
Qed.

Lemma tableForBucket_outcome cfg st :
  (∃ t, tableForBucket cfg st = Ret t) ∨ (∃ msg, tableForBucket cfg st = Panic msg).
Proof. destruct (tableForBucket cfg st); eauto. Qed.

Lemma hourlyLoop_outcome cfg thr last n : ∀ i acc,
  Z.of_nat n = Z.max 0 (thr - i + 1) →
  let planned := filter (λ h, h < last) (seqZ i (Z.of_nat n)) in
  (Exists (λ h, ∃ msg, tableForBucket cfg (h * secondsInHour) = Panic msg) planned →
     ∃ msg, hourlyLoop cfg n i thr last acc = Panic msg) ∧
  (Forall (λ h, ∃ t, tableForBucket cfg (h * secondsInHour) = Ret t) planned →
     ∃ out, hourlyLoop cfg n i thr last acc = Ret out).
Proof.
  induction n as [|n IH]; intros i acc Hn planned; subst planned.
  - cbn. split; [by intros ?%Exists_nil|eauto].
  - cbn [hourlyLoop]. rewrite bool_decide_eq_true_2 by lia. rewrite seqZ_step.
    case_bool_decide as Hbreak.
    + rewrite filter_none.
      2:{ apply Forall_cons. split; [lia|].
          apply Forall_forall. intros x Hx%elem_of_seqZ. lia. }
      split; [by intros ?%Exists_nil|eauto].
    + rewrite filter_cons_True by lia.
      destruct (tableForBucket cfg (i * secondsInHour)) as [t|msg] eqn:Ht.
      * destruct (IH (i + 1) (acc ++ [mkBucketSpec t (pretty i)]) ltac:(lia)) as [IHp IHr].
        rewrite bind_Ret. split.
        -- intros [[? Hp]|Hex]%Exists_cons; [congruence|by apply IHp].
        -- intros [_ Hall]%Forall_cons. by apply IHr.
      * split; [by eauto|]. intros [[? Hr] _]%Forall_cons. congruence.
Qed.

Lemma dailyLoop_outcome cfg thr first n : ∀ i acc,
  Z.of_nat n = Z.max 0 (thr - i + 1) →
  let planned := filter (λ d, first <= d) (seqZ i (Z.of_nat n)) in
  (Exists (λ d, ∃ msg, tableForBucket cfg (d * secondsInDay) = Panic msg) planned →
     ∃ msg, dailyLoop cfg n i thr first acc = Panic msg) ∧
  (Forall (λ d, ∃ t, tableForBucket cfg (d * secondsInDay) = Ret t) planned →
     ∃ out, dailyLoop cfg n i thr first acc = Ret out).
Proof.
  induction n as [|n IH]; intros i acc Hn planned; subst planned.
  - cbn. split; [by intros ?%Exists_nil|eauto].
  - cbn [dailyLoop]. rewrite bool_decide_eq_true_2 by lia. rewrite seqZ_step.
    case_bool_decide as Hskip.
    + rewrite filter_cons_False by lia. apply IH. lia.
    + rewrite filter_cons_True by lia.
      destruct (tableForBucket cfg (i * secondsInDay)) as [t|msg] eqn:Ht.
      * destruct (IH (i + 1) (acc ++ [mkBucketSpec t ("d" +:+ pretty i)]) ltac:(lia))
          as [IHp IHr].
        rewrite bind_Ret. split.
        -- intros [[? Hp]|Hex]%Exists_cons; [congruence|by apply IHp].
        -- intros [_ Hall]%Forall_cons. by apply IHr.
      * split; [by eauto|]. intros [[? Hr] _]%Forall_cons. congruence.
Qed.

Lemma Exists_or_Forall_tables cfg (starts : list Z) :
  Exists (λ st, ∃ msg, tableForBucket cfg st = Panic msg) starts ∨
  Forall (λ st, ∃ t, tableForBucket cfg st = Ret t) starts.
Proof.
  induction starts as [|st starts [IH|IH]]; [right; constructor|left; by right|].
  destruct (tableForBucket_outcome cfg st) as [Hr|Hp]; [right; by constructor|left; by left].
Qed.

(** X4.  The planner panics exactly when periodic tables are switched on
    with a table period that rounds to zero seconds and one of the
    buckets it plans starts at or after [PeriodicTableStartAt]: the
    division in [tableForBucket] is reached for that bucket.  In every
    other case it returns. *)
Theorem bigBuckets_panics_iff cfg from through :
  (∃ msg, bigBuckets cfg from through = Panic msg) ↔
  UsePeriodicTables (periodic cfg) = true ∧
  Z.quot (TablePeriod (periodic cfg)) time_Second = 0 ∧
  ∃ st, st ∈ plannedStarts cfg from through ∧ PeriodicTableStartAt (periodic cfg) <= st.
Proof.
  change (bigBuckets cfg from through) with
    (hourlyLoop cfg (trips (hourOf from) (hourOf through)) (hourOf from) (hourOf through)
       (lastHourlyBucket cfg) [] ≫= λ result,
     dailyLoop cfg (trips (dayOf from) (dayOf through)) (dayOf from) (dayOf through)
       (firstDailyBucket cfg) result).
  pose proof (hourlyLoop_outcome cfg (hourOf through) (lastHourlyBucket cfg)
                (trips (hourOf from) (hourOf through)) (hourOf from) []
                ltac:(unfold trips; lia)) as [Hhp Hhr].
  rewrite seqZ_trips in Hhp, Hhr. fold (hourlyRange cfg from through) in Hhp, Hhr.
  assert (∀ acc,
    (Exists (λ d, ∃ msg, tableForBucket cfg (d * secondsInDay) = Panic msg)
            (dailyRange cfg from through) →
       ∃ msg, dailyLoop cfg (trips (dayOf from) (dayOf through)) (dayOf from) (dayOf through)
                (firstDailyBucket cfg) acc = Panic msg) ∧
    (Forall (λ d, ∃ t, tableForBucket cfg (d * secondsInDay) = Ret t)
            (dailyRange cfg from through) →
       ∃ out, dailyLoop cfg (trips (dayOf from) (dayOf through)) (dayOf from) (dayOf through)
                (firstDailyBucket cfg) acc = Ret out)) as Hd.
  { intros acc.
    pose proof (dailyLoop_outcome cfg (dayOf through) (firstDailyBucket cfg)
                  (trips (dayOf from) (dayOf through)) (dayOf from) acc
                  ltac:(unfold trips; lia)) as H.
    cbv zeta in H. by rewrite seqZ_trips in H. }
  assert ((∃ st, st ∈ plannedStarts cfg from through ∧
             ∃ msg, tableForBucket cfg st = Panic msg) ↔
          Exists (λ h, ∃ msg, tableForBucket cfg (h * secondsInHour) = Panic msg)
                 (hourlyRange cfg from through) ∨
          Exists (λ d, ∃ msg, tableForBucket cfg (d * secondsInDay) = Panic msg)
                 (dailyRange cfg from through)) as Hstarts.
  { unfold plannedStarts. rewrite !Exists_exists. split.
    - intros (st & Hin & Hp). apply elem_of_app in Hin as [Hin|Hin];
        apply list_elem_of_fmap in Hin as (x & -> & Hx); eauto.
    - intros [(h & Hin & Hp)|(d & Hin & Hp)].
      + exists (h * secondsInHour). split; [|done]. apply elem_of_app. left.
        apply list_elem_of_fmap. eauto.
      + exists (d * secondsInDay). split; [|done]. apply elem_of_app. right.
        apply list_elem_of_fmap. eauto. }
  assert ((∃ msg, hourlyLoop cfg (trips (hourOf from) (hourOf through)) (hourOf from)
                    (hourOf through) (lastHourlyBucket cfg) [] ≫= (λ result,
                  dailyLoop cfg (trips (dayOf from) (dayOf through)) (dayOf from)
                    (dayOf through) (firstDailyBucket cfg) result) = Panic msg) ↔
          ∃ st, st ∈ plannedStarts cfg from through ∧
            ∃ msg, tableForBucket cfg st = Panic msg) as Hpanic.
  { rewrite Hstarts. split.
    - intros [msg Hrun].
      destruct (Exists_or_Forall_tables cfg
                  ((λ h, h * secondsInHour) <$> hourlyRange cfg from through)) as [He|Hf].
      { left. by rewrite Exists_fmap in He. }
      rewrite Forall_fmap in Hf. destruct (Hhr Hf) as [out Hout].
      rewrite Hout, bind_Ret in Hrun. right.
      destruct (Exists_or_Forall_tables cfg
                  ((λ d, d * secondsInDay) <$> dailyRange cfg from through)) as [He|Hf'].
      { by rewrite Exists_fmap in He. }
      rewrite Forall_fmap in Hf'. destruct (proj2 (Hd out) Hf') as [out' Hout'].
      congruence.
    - intros [He|He].
      + destruct (Hhp He) as [msg ->]. by exists msg.
      + destruct (hourlyLoop cfg _ _ _ _ _) as [out|msg]; [|by exists msg].
        rewrite bind_Ret. by apply (Hd out). }
  rewrite Hpanic. split.
  - intros (st & Hin & Hp). apply tableForBucket_panic_iff in Hp as (? & ? & ?). eauto 10.
  - intros (Hu & Hz & st & Hin & Hst). exists st. split; [done|].
    by apply tableForBucket_panic_iff.
Qed.

(** ** Keys *)

Lemma split_at_separator (c : ascii) (u : string) : ∀ u' rest rest',
  contains c u = false → contains c u' = false →
  u +:+ String c rest = u' +:+ String c rest' → u = u' ∧ rest = rest'.
Proof.
  induction u as [|a u IH]; intros u' rest rest' Hu Hu' E.
  - destruct u' as [|a' u']; cbn in E; [by injection E|].
    injection E as <- _. cbn in Hu'. by rewrite bool_decide_eq_true_2 in Hu'.
  - destruct u' as [|a' u']; cbn in E.
    + injection E as -> _. cbn in Hu. by rewrite bool_decide_eq_true_2 in Hu.
    + injection E as <- E. cbn in Hu, Hu'.
      apply orb_false_iff in Hu as [_ Hu]. apply orb_false_iff in Hu' as [_ Hu'].
      destruct (IH u' rest rest' Hu Hu' E) as [-> ->]. done.
Qed.

Lemma pretty_N_go_no_colon x s :
  contains ":" s = false → contains ":" (pretty_N_go x s) = false.
Proof.
  revert s. induction (N.lt_wf_0 x) as [x _ IH]. intros s Hs.
  destruct (decide (x = 0%N)) as [->|Hx]; [by rewrite pretty_N_go_0|].
  rewrite pretty_N_go_step by lia.
  apply IH; [apply N.div_lt; lia|].
  cbn. rewrite Hs. unfold pretty_N_char. by repeat case_match.
Qed.

Lemma pretty_Z_no_colon (z : Z) : contains ":" (pretty z) = false.
Proof.
  assert (∀ p : positive, contains ":" (pretty p) = false) as Hp.
  { intros p. unfold pretty, pretty_positive, pretty, pretty_N.
    case_decide; [done|]. by apply pretty_N_go_no_colon. }
  unfold pretty, pretty_Z. destruct z as [|p|p]; [done|apply Hp|].
  cbn. apply Hp.
Qed.

Lemma planned_bucket_no_colon cfg from through out b :
  periodOK cfg → bigBuckets cfg from through = Ret out → b ∈ out →
  contains ":" (bucket b) = false.
Proof.
  intros Hok Hrun Hin.
  destruct (bigBuckets_shape cfg from through Hok) as (hs & ds & Hrun' & Hh & Hd).
  rewrite Hrun in Hrun'. injection Hrun' as ->.
  apply (list_elem_of_fmap_2 bucket) in Hin.
  rewrite fmap_app, (hourly_names _ _ _ Hh), (daily_names _ _ _ Hd) in Hin.
  apply elem_of_app in Hin as [Hin|Hin]; apply list_elem_of_fmap in Hin as (z & -> & _).
  - apply pretty_Z_no_colon.
  - cbn. apply pretty_Z_no_colon.
Qed.

(** X5.  Index hash keys do not collide: for tenants whose ID holds no
    colon and buckets that come out of the planner (under a
    configuration whose table period is usable), two hash keys are
    equal only if tenant, bucket and metric name are all equal.  (A colon
    in the metric name does no harm; one in the tenant ID would.) *)
Theorem hashValue_injective cfg from through from' through' out out' b b' u u' name name' :
  periodOK cfg →
  bigBuckets cfg from through = Ret out → b ∈ out →
  bigBuckets cfg from' through' = Ret out' → b' ∈ out' →
  contains ":" u = false → contains ":" u' = false →
  hashValue u (bucket b) name = hashValue u' (bucket b') name' →
  u = u' ∧ bucket b = bucket b' ∧ name = name'.
Proof.
  intros Hok Hout Hb Hout' Hb' Hu Hu' E.
  pose proof (planned_bucket_no_colon _ _ _ _ _ Hok Hout Hb) as Hc.
  pose proof (planned_bucket_no_colon _ _ _ _ _ Hok Hout' Hb') as Hc'.
  unfold hashValue in E.
  change (u +:+ String ":" (bucket b +:+ ":" +:+ name)
          = u' +:+ String ":" (bucket b' +:+ ":" +:+ name')) in E.
  apply split_at_separator in E as [-> E]; [|done..].
  change (bucket b +:+ String ":" name = bucket b' +:+ String ":" name') in E.
  apply split_at_separator in E as [-> ->]; done.
Qed.

Lemma hashValue_injective_witness :
  periodOK cfg_weekly ∧
  bigBuckets cfg_weekly 0 0 = Ret [mkBucketSpec "week0" "0"] ∧
  mkBucketSpec "week0" "0" ∈ [mkBucketSpec "week0" "0"] ∧
  contains ":" "u1" = false ∧
  hashValue "u1" (bucket (mkBucketSpec "week0" "0")) "job:up"
    = hashValue "u1" (bucket (mkBucketSpec "week0" "0")) "job:up" ∧
  "u1" = "u1" ∧
  bucket (mkBucketSpec "week0" "0") = bucket (mkBucketSpec "week0" "0") ∧ "job:up" = "job:up".
Proof.
  assert (periodOK cfg_weekly) as Hok by (intros _; vm_compute; discriminate).
  assert (mkBucketSpec "week0" "0" ∈ [mkBucketSpec "week0" "0"]) as Hin by (by left).
  split; [exact Hok|]. split; [vm_compute; reflexivity|]. split; [exact Hin|].
  split; [reflexivity|]. split; [reflexivity|].
  apply (hashValue_injective cfg_weekly 0 0 0 0 [mkBucketSpec "week0" "0"]
           [mkBucketSpec "week0" "0"] (mkBucketSpec "week0" "0") (mkBucketSpec "week0" "0")
           "u1" "u1" "job:up" "job:up");
    [exact Hok|vm_compute; reflexivity|exact Hin|vm_compute; reflexivity|exact Hin
    |reflexivity|reflexivity|reflexivity].
Defined.

(** X6.  Blob keys do not collide across tenants: for tenant IDs without
    a slash, [chunkName] determines both the tenant and the chunk ID. *)
Theorem chunkName_injective u u' id id' :
  contains "/" u = false → contains "/" u' = false →
  chunkName u id = chunkName u' id' → u = u' ∧ id = id'.
Proof.
  intros Hu Hu' E. unfold chunkName in E.
  change (u +:+ String "/" id = u' +:+ String "/" id') in E.
  by apply split_at_separator in E.
Qed.

Lemma chunkName_injective_witness :
  contains "/" "u1" = false ∧ chunkName "u1" "abc/0/64" = chunkName "u1" "abc/0/64" ∧
  "u1" = "u1" ∧ "abc/0/64" = "abc/0/64".
Proof.
  split; [reflexivity|]. split; [reflexivity|].
  apply (chunkName_injective "u1" "u1" "abc/0/64" "abc/0/64"); reflexivity.
Defined.

(** ** Put: what it returns and what it leaves in the trace *)

Lemma Put_value s D cfg ctx chunks :
  value_of (Put s D cfg ctx chunks)
  = match ctx_userID ctx with
    | None => Ret (Some "ErrNoTenant")
    | Some u =>
        match lastError None (blobResult D cfg u <$> put_sched s Chunk chunks) with
        | Some e => Ret (Some e)
        | None =>
            match value_of (calculateDynamoWrites D cfg u chunks) with
            | Panic msg => Panic msg
            | Ret (Err e) => Ret (Some e)
            | Ret (Ok w) => Ret (BatchWriteItem (DynamoDB cfg) w)
            end
        end
    end.
Proof.
  pose proof (Put_cases s D cfg ctx chunks) as Hc. unfold value_of at 1.
  destruct (ctx_userID ctx) as [u|]; [|by rewrite (runs_nil _ _ _ Hc)].
  cbv zeta in Hc. destruct (lastError None _) as [e|]; [by rewrite (runs_nil _ _ _ Hc)|].
  destruct Hc as (rc & O & Hrc & _ & Hput).
  unfold value_of. rewrite (runs_nil _ _ _ Hrc). cbn [fst].
  destruct rc as [[w|e]|msg]; by rewrite (runs_nil _ _ _ Hput).
Qed.

Lemma Put_events s D cfg ctx u chunks :
  ctx_userID ctx = Some u →
  ∃ O, Forall (λ e, isObserve e ∨ isBatchWrite e) O ∧
    events_of (Put s D cfg ctx chunks)
    = concat (blobEvents D cfg u <$> put_sched s Chunk chunks) ++ O.
Proof.
  intros Hu. pose proof (Put_cases s D cfg ctx chunks) as Hc. rewrite Hu in Hc.
  cbv zeta in Hc. unfold events_of.
  destruct (lastError None _) as [e|].
  { exists []. split; [constructor|]. by rewrite (runs_nil _ _ _ Hc), app_nil_r. }
  destruct Hc as (rc & O & Hrc & HO & Hput).
  assert (Forall (λ e, isObserve e ∨ isBatchWrite e) O) as HO'.
  { eapply Forall_impl; [exact HO|]. by left. }
  destruct rc as [[w|e]|msg]; rewrite (runs_nil _ _ _ Hput); cbn [snd].
  - exists (O ++ [EvBatchWrite w]). split; [|done].
    apply Forall_app. split; [done|]. apply Forall_singleton. by right.
  - by exists O.
  - by exists O.
Qed.

Lemma s3Puts_app tr tr' : s3Puts (tr ++ tr') = s3Puts tr ++ s3Puts tr'.
Proof. apply omap_app. Qed.

Lemma cacheStores_app tr tr' : cacheStores (tr ++ tr') = cacheStores tr ++ cacheStores tr'.
Proof. apply omap_app. Qed.

Lemma s3Puts_index_phase O :
  Forall (λ e, isObserve e ∨ isBatchWrite e) O → s3Puts O = [] ∧ cacheStores O = [].
Proof.
  induction 1 as [|e O He _ [IH1 IH2]]; [done|].
  destruct e; cbn in He; try (exfalso; tauto); split; assumption.
Qed.

Lemma s3Puts_blob_phase D cfg u cs :
  s3Puts (concat (blobEvents D cfg u <$> cs)) = omap (expectedPut D cfg u) cs.
Proof.
  induction cs as [|c cs IH]; [done|].
  rewrite fmap_cons. cbn [concat]. rewrite s3Puts_app, IH.
  unfold blobEvents, expectedPut at 2. cbn [omap list_omap].
  destruct (reader D c) as [body|e]; [|done].
  destruct (PutObject _ _ _ _), (ChunkCache cfg); done.
Qed.

(** X7.  With a tenant in the context, [Put] issues exactly one S3 PUT
    for every chunk whose body can be read, to the key [tenant/chunkID]
    of the configured bucket and with that body, whether or not other
    PUTs fail and whatever else happens in the call: the PUTs of the
    call are, up to their order, those of the chunks given. *)
Theorem Put_one_PUT_per_chunk s D cfg ctx u chunks :
  fair (put_sched s) → ctx_userID ctx = Some u →
  s3Puts (events_of (Put s D cfg ctx chunks)) ≡ₚ omap (expectedPut D cfg u) chunks.
Proof.
  intros Hfair Hu.
  destruct (Put_events s D cfg ctx u chunks Hu) as (O & HO & ->).
  rewrite s3Puts_app, s3Puts_blob_phase, (proj1 (s3Puts_index_phase O HO)), app_nil_r.
  by rewrite (Hfair Chunk chunks).
Qed.

Lemma Put_one_PUT_per_chunk_witness :
  fair (put_sched scheds_rev) ∧ ctx_userID ctx_u1 = Some "u1" ∧
  s3Puts (events_of (Put scheds_rev deps_sample cfg_refusing ctx_u1 [chunk_a; chunk_b]))
    ≡ₚ omap (expectedPut deps_sample cfg_refusing "u1") [chunk_a; chunk_b].
Proof.
  split; [apply fair_rev|]. split; [reflexivity|].
  apply (Put_one_PUT_per_chunk scheds_rev deps_sample cfg_refusing ctx_u1 "u1"
           [chunk_a; chunk_b]); [apply fair_rev|reflexivity].
Defined.

Lemma chunkLoop_withCache D cfg cache u chunks : ∀ w tr,
  chunkLoop D (withCache cfg cache) u chunks w tr = chunkLoop D cfg u chunks w tr.
Proof.
  induction chunks as [|c rest IH]; intros w tr; [done|].
  cbn [chunkLoop]. destruct (Metric c !! MetricNameLabel) as [name|]; [|done].
  rewrite (bigBuckets_scheme cfg (withCache cfg cache)) by done.
  unfold mbind, M_bind, lift_res.
  destruct (bigBuckets cfg (From c) (Through c)) as [bs|msg]; [|done].
  destruct (bucketLoop D u name c bs w 0) as [[w' n]|e]; [|done].
  unfold emit. apply IH.
Qed.

Lemma cacheStores_blob_phase D cfg u cs :
  cacheStores (concat (blobEvents D cfg u <$> cs))
  = match ChunkCache cfg with
    | Some _ => (λ c, (u, c)) <$> filter (λ c, blobResult D cfg u c = None) cs
    | None => []
    end.
Proof.
  induction cs as [|c cs IH]; [by destruct (ChunkCache cfg)|].
  rewrite fmap_cons. cbn [concat]. rewrite cacheStores_app, IH.
  rewrite filter_cons. unfold blobEvents.
  destruct (reader D c) as [body|e] eqn:Hr.
  - destruct (PutObject (S3 cfg) (BucketName cfg) (chunkName u (ID c)) body) as [e'|] eqn:Hp;
      (destruct (decide (blobResult D cfg u c = None)) as [Hn|Hn];
       unfold blobResult in Hn; rewrite Hr, Hp in Hn; try congruence);
      by destruct (ChunkCache cfg).
  - destruct (decide (blobResult D cfg u c = None)) as [Hn|Hn];
      unfold blobResult in Hn; rewrite Hr in Hn; try congruence.
    by destruct (ChunkCache cfg).
Qed.

(** X8.  The chunk cache cannot fail a [Put]: what [Put] returns is the
    same with any cache and with none.  With a cache configured, the
    chunks stored in it are, up to their order, exactly the chunks whose
    S3 PUT was accepted, each stored once; without one, nothing is
    stored. *)
Theorem Put_cache_is_best_effort s D cfg ctx chunks cache :
  value_of (Put s D (withCache cfg cache) ctx chunks) = value_of (Put s D cfg ctx chunks) ∧
  (∀ u, fair (put_sched s) → ctx_userID ctx = Some u →
     cacheStores (events_of (Put s D cfg ctx chunks))
     ≡ₚ match ChunkCache cfg with
        | Some _ => (λ c, (u, c)) <$> filter (λ c, blobResult D cfg u c = None) chunks
        | None => []
        end).
Proof.
  split.
  - rewrite !Put_value. destruct (ctx_userID ctx) as [u|]; [|done].
    change (blobResult D (withCache cfg cache) u) with (blobResult D cfg u).
    destruct (lastError None _); [done|].
    unfold value_of, calculateDynamoWrites. by rewrite chunkLoop_withCache.
  - intros u Hfair Hu. destruct (Put_events s D cfg ctx u chunks Hu) as (O & HO & ->).
    rewrite cacheStores_app, cacheStores_blob_phase, (proj2 (s3Puts_index_phase O HO)).
    rewrite app_nil_r. destruct (ChunkCache cfg); [|done].
    by rewrite (Hfair Chunk chunks).
Qed.

(** ** The index entries of a Put *)

(** X9.  The index entries [calculateDynamoWrites] computes are exactly
    what the data model asks for: a request is filed under a table if and
    only if it is the row (hash key [tenant:bucket:metric name], range
    key of label, value and chunk ID) of a label other than [__name__]
    of one of the chunks, in one of that chunk's buckets of that table. *)
Theorem calculateDynamoWrites_rows D cfg u chunks w :
  value_of (calculateDynamoWrites D cfg u chunks) = Ret (Ok w) →
  ∀ t req, req ∈ rowsOf w t ↔ indexed D cfg u chunks t req.
Proof.
  unfold value_of, calculateDynamoWrites. intros Hrun t req.
  destruct (chunkLoop D cfg u chunks ∅ []) as [r tr'] eqn:E. cbn in Hrun. subst r.
  destruct (chunkLoop_rows _ _ _ _ _ _ _ _ E) as [Hrows _].
  rewrite Hrows, rowsOf_empty. split; [|by right].
  intros [Hin|?]; [by apply elem_of_nil in Hin|done].
Qed.

Lemma calculateDynamoWrites_rows_witness :
  ∃ w,
    value_of (calculateDynamoWrites deps_sample cfg_weekly "u1" [chunk_a; chunk_b])
      = Ret (Ok w) ∧
    ∀ t req, req ∈ rowsOf w t ↔ indexed deps_sample cfg_weekly "u1" [chunk_a; chunk_b] t req.
Proof.
  eexists. split; [vm_compute; reflexivity|].
  apply (calculateDynamoWrites_rows deps_sample cfg_weekly "u1" [chunk_a; chunk_b]).
  vm_compute; reflexivity.
Defined.

(** X10.  When the index computation succeeds it has observed, chunk by
    chunk and in the order of the call, the number of that chunk's index
    entries: its number of buckets times its number of labels other than
    [__name__]; and it has done nothing else. *)
Theorem calculateDynamoWrites_observes D cfg u chunks w tr :
  calculateDynamoWrites D cfg u chunks [] = (Ret (Ok w), tr) →
  tr = entriesObserved cfg <$> chunks.
Proof.
  unfold calculateDynamoWrites. intros Hrun.
  by destruct (chunkLoop_rows _ _ _ _ _ _ _ _ Hrun) as [_ ->].
Qed.

Lemma calculateDynamoWrites_observes_witness :
  ∃ w tr,
    calculateDynamoWrites deps_sample cfg_weekly "u1" [chunk_a; chunk_b] [] = (Ret (Ok w), tr) ∧
    tr = entriesObserved cfg_weekly <$> [chunk_a; chunk_b].
Proof.
  eexists _, _. split; [vm_compute; reflexivity|].
  eapply (calculateDynamoWrites_observes deps_sample cfg_weekly "u1" [chunk_a; chunk_b]).
  vm_compute; reflexivity.
Defined.

Lemma labelLoop_encodes D hv b c labels : ∀ w n w' n',
  labelLoop D hv b c labels w n = Ok (w', n') →
  ∀ label value, (label, value) ∈ labels → label ≠ MetricNameLabel →
    ∃ rv, rangeValue D label value (ID c) = Ok rv.
Proof.
  induction labels as [|[l v] rest IH]; intros w n w' n' Hrun label value Hin Hne;
    [by apply elem_of_nil in Hin|].
  cbn [labelLoop] in Hrun.
  destruct (decide (l = MetricNameLabel)) as [->|Hl].
  - apply elem_of_cons in Hin as [[= -> ->]|Hin]; [done|]. by eapply IH.
  - destruct (rangeValue D l v (ID c)) as [rv|e] eqn:Hrv; [|done].
    apply elem_of_cons in Hin as [[= -> ->]|Hin]; [eauto|]. by eapply IH.
Qed.

Lemma bucketLoop_encodes D u name c buckets : ∀ w n w' n',
  bucketLoop D u name c buckets w n = Ok (w', n') → buckets ≠ [] →
  ∀ label value, Metric c !! label = Some value → label ≠ MetricNameLabel →
    ∃ rv, rangeValue D label value (ID c) = Ok rv.
Proof.
  destruct buckets as [|b rest]; intros w n w' n' Hrun Hne label value Hl Hname; [done|].
  cbn [bucketLoop] in Hrun.
  destruct (labelLoop D _ b c _ w n) as [[w1 n1]|e] eqn:Hlabels; [|done].
  eapply labelLoop_encodes; [exact Hlabels| |done]. by apply elem_of_map_to_list.
Qed.

Lemma chunkLoop_encodes D cfg u chunks : ∀ w tr w' tr',
  chunkLoop D cfg u chunks w tr = (Ret (Ok w'), tr') →
  ∀ c, c ∈ chunks →
    ∃ name buckets,
      Metric c !! MetricNameLabel = Some name ∧
      bigBuckets cfg (From c) (Through c) = Ret buckets ∧
      (buckets ≠ [] → ∀ label value,
         Metric c !! label = Some value → label ≠ MetricNameLabel →
         ∃ rv, rangeValue D label value (ID c) = Ok rv).
Proof.
  induction chunks as [|c0 rest IH]; intros w tr w' tr' Hrun c Hin;
    [by apply elem_of_nil in Hin|].
  cbn [chunkLoop] in Hrun.
  destruct (Metric c0 !! MetricNameLabel) as [name|] eqn:Hname; [|done].
  unfold mbind, M_bind, lift_res, emit in Hrun.
  destruct (bigBuckets cfg (From c0) (Through c0)) as [bs|msg] eqn:Hbs; [|done].
  destruct (bucketLoop D u name c0 bs w 0) as [[w1 n1]|e] eqn:Hbuckets; [|done].
  apply elem_of_cons in Hin as [->|Hin]; [|by eapply IH].
  exists name, bs. split; [done|]. split; [done|].
  intros Hne. by eapply bucketLoop_encodes.
Qed.

(** X11.  What is written can be found: after a [Put] that returned nil,
    every label other than [__name__] of every chunk of the call has a
    row in the batch that was written, under the hash key of a bucket
    that any query whose range shares an instant with the chunk's
    [From, Through] plans to read, and in that bucket's table. *)
Theorem Put_index_reaches_overlapping_query s D cfg ctx u chunks c label value
    from through t :
  periodOK cfg → ctx_userID ctx = Some u →
  value_of (Put s D cfg ctx chunks) = Ret None →
  c ∈ chunks → Metric c !! label = Some value → label ≠ MetricNameLabel →
  From c <= t <= Through c → from <= t <= through →
  ∃ w name queried b rv,
    EvBatchWrite w ∈ events_of (Put s D cfg ctx chunks) ∧
    Metric c !! MetricNameLabel = Some name ∧
    bigBuckets cfg from through = Ret queried ∧ b ∈ queried ∧
    rangeValue D label value (ID c) = Ok rv ∧
    indexRow (hashValue u (bucket b) name) rv ∈ rowsOf w (tableName b).
Proof.
  intros Hok Hu Hnil Hc Hlabel Hne Hchunk Hquery.
  pose proof (Put_cases s D cfg ctx chunks) as Hcases. rewrite Hu in Hcases.
  cbv zeta in Hcases. unfold value_of in Hnil. unfold events_of.
  destruct (lastError None _) as [e|]; [by rewrite (runs_nil _ _ _ Hcases) in Hnil|].
  destruct Hcases as (rc & O & Hrc & _ & Hput).
  destruct rc as [[w|e]|msg]; rewrite (runs_nil _ _ _ Hput) in Hnil |- *; try done.
  pose proof (runs_nil _ _ _ Hrc) as Hcalc. unfold calculateDynamoWrites in Hcalc.
  destruct (chunkLoop_encodes _ _ _ _ _ _ _ _ Hcalc c Hc) as (name & bs & Hname & Hbs & Henc).
  destruct (shared_bucket cfg (From c) (Through c) from through t Hok Hchunk Hquery)
    as (out1 & queried & b & Hout1 & Hqueried & Hb1 & Hb2 & _).
  rewrite Hbs in Hout1. injection Hout1 as <-.
  destruct (Henc ltac:(by intros ->; apply elem_of_nil in Hb1) label value Hlabel Hne)
    as [rv Hrv].
  exists w, name, queried, b, rv.
  split; [cbn; rewrite !elem_of_app; right; right; by left|].
  split; [done|]. split; [done|]. split; [done|]. split; [done|].
  apply (proj1 (chunkLoop_rows _ _ _ _ _ _ _ _ Hcalc)). right.
  exists c, name, b, label, value, rv. unfold bucketsOf. rewrite Hbs. done.
Qed.

Lemma Put_index_reaches_overlapping_query_witness :
  periodOK cfg_weekly ∧ ctx_userID ctx_u1 = Some "u1" ∧
  value_of (Put scheds_rev deps_sample cfg_weekly ctx_u1 [chunk_a; chunk_b]) = Ret None ∧
  chunk_b ∈ [chunk_a; chunk_b] ∧ Metric chunk_b !! "job" = Some "db" ∧
  "job" ≠ MetricNameLabel ∧
  From chunk_b <= 62000 <= Through chunk_b ∧ 60000 <= 62000 <= 7200000 ∧
  ∃ w name queried b rv,
    EvBatchWrite w
      ∈ events_of (Put scheds_rev deps_sample cfg_weekly ctx_u1 [chunk_a; chunk_b]) ∧
    Metric chunk_b !! MetricNameLabel = Some name ∧
    bigBuckets cfg_weekly 60000 7200000 = Ret queried ∧ b ∈ queried ∧
    rangeValue deps_sample "job" "db" (ID chunk_b) = Ok rv ∧
    indexRow (hashValue "u1" (bucket b) name) rv ∈ rowsOf w (tableName b).
Proof.
  assert (periodOK cfg_weekly) as Hok by (intros _; vm_compute; discriminate).
  assert (chunk_b ∈ [chunk_a; chunk_b]) as Hin by (right; left).
  split; [exact Hok|]. split; [reflexivity|].
  split; [vm_compute; reflexivity|]. split; [exact Hin|]. split; [reflexivity|].
  split; [discriminate|]. split; [cbn; lia|]. split; [lia|].
  apply (Put_index_reaches_overlapping_query scheds_rev deps_sample cfg_weekly ctx_u1 "u1"
           [chunk_a; chunk_b] chunk_b "job" "db" 60000 7200000 62000);
    [exact Hok|reflexivity|vm_compute; reflexivity|exact Hin|reflexivity
    |discriminate|cbn; lia|lia].
Defined.

(** X12.  A [Put] of no chunks, with a tenant in the context, issues no
    S3 PUT but still submits one batch write, of the empty set of
    requests, and returns its verdict. *)
Theorem Put_of_nothing s D cfg ctx u :
  fair (put_sched s) → ctx_userID ctx = Some u →
  Put s D cfg ctx [] [] = (Ret (BatchWriteItem (DynamoDB cfg) ∅), [EvBatchWrite ∅]).
Proof.
  intros Hfair Hu. unfold Put, user_GetID, putChunks. rewrite Hu.
  assert (put_sched s Chunk [] = []) as ->.
  { apply Permutation_nil_r. apply (Hfair Chunk []). }
  reflexivity.
Qed.

Lemma Put_of_nothing_witness :
  fair (put_sched scheds_rev) ∧ ctx_userID ctx_u1 = Some "u1" ∧
  Put scheds_rev deps_sample cfg_weekly ctx_u1 [] []
    = (Ret (BatchWriteItem (DynamoDB cfg_weekly) ∅), [EvBatchWrite ∅]).
Proof.
  split; [apply fair_rev|]. split; [reflexivity|].
  apply (Put_of_nothing scheds_rev deps_sample cfg_weekly ctx_u1 "u1");
    [apply fair_rev|reflexivity].
Defined.

(** ** Which path touches what *)

Lemma emits_mono {A} (P Q : event → Prop) (m : M A) :
  (∀ e, P e → Q e) → emits P m → emits Q m.
Proof. intros HPQ [Hm HP]. split; [done|]. eapply Forall_impl; [exact HP|done]. Qed.

Lemma fetchChunkData_recv_emits D cfg u arrivals : ∀ chunks errors,
  emits readPathEvent (fetchChunkData_recv D cfg u arrivals chunks errors).
Proof.
  induction arrivals as [|c rest IH]; intros chunks errors; cbn [fetchChunkData_recv];
    [apply emits_ret|].
  apply emits_bind.
  - unfold fetchChunk. emits_steps.
  - intros [c'|e]; apply IH.
Qed.

Lemma fetchChunkData_emits s D cfg u chunkSet :
  emits readPathEvent (fetchChunkData s D cfg u chunkSet).
Proof.
  unfold fetchChunkData.
  apply emits_bind; [apply fetchChunkData_recv_emits|intros [chunks errors]].
  destruct errors; apply emits_ret.
Qed.

Lemma Get_emits s D cfg h ctx from through ms :
  emits readPathEvent (Get s D cfg h ctx from through ms).
Proof.
  unfold Get. destruct (user_GetID ctx) as [u|e]; [|apply emits_ret].
  apply emits_bind.
  { eapply emits_mono; [|apply lookupChunks_emits]. by intros []. }
  intros [[missing [e|]] arr]; [apply emits_ret|].
  apply emits_bind; [by apply emits_emit|intros _].
  apply emits_bind.
  { destruct (ChunkCache cfg) as [cache|]; [|apply emits_ret].
    apply emits_bind; [by apply emits_emit|intros _].
    destruct (FetchChunkData cache u missing) as [[found missing'] cerr]. apply emits_ret. }
  intros [fromCache missing'].
  apply emits_bind; [apply fetchChunkData_emits|intros [fromS3 [e|]]]; [apply emits_ret|].
  apply emits_bind; [|intros _; apply emits_ret].
  destruct (ChunkCache cfg); [by apply emits_emit|apply emits_ret].
Qed.

Lemma blobEvents_write_path D cfg u c : Forall writePathEvent (blobEvents D cfg u c).
Proof.
  unfold blobEvents. destruct (reader D c); [|constructor].
  constructor; [done|]. destruct (PutObject _ _ _ _), (ChunkCache cfg); by repeat constructor.
Qed.

(** X13.  The two paths keep to their side: whatever the inputs, [Put]
    issues no S3 GET, no index query and no cache fetch, and [Get] issues
    no S3 PUT and no batch write (its one write is the cache store of the
    chunks it fetched). *)
Theorem paths_keep_to_their_side s D cfg h ctx chunks from through ms :
  Forall writePathEvent (events_of (Put s D cfg ctx chunks)) ∧
  Forall readPathEvent (events_of (Get s D cfg h ctx from through ms)).
Proof.
  split; [|apply Get_emits].
  destruct (ctx_userID ctx) as [u|] eqn:Hu.
  - destruct (Put_events s D cfg ctx u chunks Hu) as (O & HO & ->).
    apply Forall_app. split.
    + induction (put_sched s Chunk chunks) as [|c cs IH]; [constructor|].
      rewrite fmap_cons. cbn [concat]. apply Forall_app. split; [|done].
      apply blobEvents_write_path.
    + eapply Forall_impl; [exact HO|]. intros e [He|He]; by destruct e.
  - unfold events_of, Put, user_GetID. rewrite Hu. constructor.
Qed.

(** ** Get: the metric name *)

Lemma extractMetricName_from_none h a : ∀ rest i,
  Forall (isOtherMatcher h) rest →
  extractMetricName_from h a i rest
  = Ret (mkExtracted "" [] (Some "no matcher for MetricNameLabel") a).
Proof.
  induction rest as [|p rest IH]; intros i Hall; [done|].
  apply Forall_cons in Hall as [(m & Hp & Hname) Hall].
  cbn [extractMetricName_from]. rewrite Hp, bind_Ret.
  rewrite bool_decide_eq_true_2 by done. by apply IH.
Qed.

Lemma extractMetricName_from_not_equal h a p post m : ∀ pre i,
  Forall (isOtherMatcher h) pre →
  deref h p = Ret m → m_Name m = MetricNameLabel → m_Type m ≠ Equal →
  extractMetricName_from h a i (pre ++ p :: post)
  = Ret (mkExtracted "" [] (Some "must have equality matcher for MetricNameLabel") a).
Proof.
  induction pre as [|q pre IH]; intros i Hall Hp Hname Htype.
  - cbn [app extractMetricName_from]. rewrite Hp, bind_Ret.
    rewrite bool_decide_eq_false_2 by (intros Hne; by apply Hne).
    by rewrite bool_decide_eq_true_2.
  - apply Forall_cons in Hall as [(mq & Hq & Hqname) Hall].
    cbn [app extractMetricName_from]. rewrite Hq, bind_Ret.
    rewrite bool_decide_eq_true_2 by done. by apply IH.
Qed.

Lemma Get_extract_error s D cfg h ctx u from through ms ex e :
  ctx_userID ctx = Some u →
  extractMetricName h ms = Ret ex → ex_err ex = Some e →
  Get s D cfg h ctx from through ms [] = (Ret (mkGetResult [] (Some e) (ex_array ex)), []).
Proof.
  intros Hu Hex Herr. unfold Get, user_GetID, lookupChunks. rewrite Hu.
  unfold mbind, M_bind, lift_res. by rewrite Hex, Herr.
Qed.

(** X14.  [Get] insists on a metric name before it looks anything up:
    with a tenant in the context (the tenant check comes first) and no
    [__name__] matcher among the matchers, or with a first
    [__name__] matcher that is not an equality matcher (even if an
    equality matcher on [__name__] follows), it returns the
    corresponding error without any query, fetch or cache access, and
    the caller's matchers are as they were. *)
Theorem Get_requires_metric_name s D cfg h ctx u from through :
  ctx_userID ctx = Some u →
  (∀ ms, Forall (isOtherMatcher h) ms →
     Get s D cfg h ctx from through ms []
     = (Ret (mkGetResult [] (Some "no matcher for MetricNameLabel") ms), [])) ∧
  (∀ pre p post m,
     Forall (isOtherMatcher h) pre →
     deref h p = Ret m → m_Name m = MetricNameLabel → m_Type m ≠ Equal →
     Get s D cfg h ctx from through (pre ++ p :: post) []
     = (Ret (mkGetResult [] (Some "must have equality matcher for MetricNameLabel")
               (pre ++ p :: post)), [])).
Proof.
  intros Hu. split.
  - intros ms Hall.
    apply (Get_extract_error s D cfg h ctx u from through ms
             (mkExtracted "" [] (Some "no matcher for MetricNameLabel") ms)); [done| |done].
    by apply extractMetricName_from_none.
  - intros pre p post m Hall Hp Hname Htype.
    apply (Get_extract_error s D cfg h ctx u from through (pre ++ p :: post)
             (mkExtracted "" [] (Some "must have equality matcher for MetricNameLabel")
                (pre ++ p :: post))); [done| |done].
    by apply (extractMetricName_from_not_equal h _ p post m).
Qed.

Lemma Get_requires_metric_name_witness :
  ctx_userID ctx_u1 = Some "u1" ∧
  Forall (isOtherMatcher heap_regex) [Some 2%nat; Some 3%nat] ∧
  deref heap_regex (Some 4%nat) = Ret name_regex ∧
  Get scheds_id deps_sample cfg_hour0 heap_regex ctx_u1 0 64000 [Some 2%nat; Some 3%nat] []
    = (Ret (mkGetResult [] (Some "no matcher for MetricNameLabel") [Some 2%nat; Some 3%nat]),
       []) ∧
  Get scheds_id deps_sample cfg_hour0 heap_regex ctx_u1 0 64000
      ([Some 2%nat] ++ Some 4%nat :: [Some 1%nat]) []
    = (Ret (mkGetResult [] (Some "must have equality matcher for MetricNameLabel")
              ([Some 2%nat] ++ Some 4%nat :: [Some 1%nat])), []).
Proof.
  assert (∀ l m, heap_regex !! l = Some m → m_Name m ≠ MetricNameLabel →
                 isOtherMatcher heap_regex (Some l)) as Hother.
  { intros l m Hl Hm. exists m. split; [|done]. cbn. by rewrite Hl. }
  assert (Forall (isOtherMatcher heap_regex) [Some 2%nat; Some 3%nat]) as H23.
  { repeat constructor; [apply (Hother _ job_api)|apply (Hother _ job_not_db)];
      (reflexivity || discriminate). }
  assert (Forall (isOtherMatcher heap_regex) [Some 2%nat]) as H2.
  { repeat constructor. apply (Hother _ job_api); (reflexivity || discriminate). }
  split; [reflexivity|]. split; [exact H23|]. split; [reflexivity|].
  destruct (Get_requires_metric_name scheds_id deps_sample cfg_hour0 heap_regex ctx_u1 "u1"
              0 64000 eq_refl) as [Hnone Hregex].
  split; [exact (Hnone _ H23)|].
  apply (Hregex [Some 2%nat] (Some 4%nat) [Some 1%nat] name_regex H2);
    [reflexivity|reflexivity|discriminate].
Defined.

(** X15.  The metric name of a [Get] is the value of its first
    [__name__] matcher, provided that one is an equality matcher; every
    other matcher, a later matcher on [__name__] included, is passed on
    to the label lookups, in the order given. *)
Theorem extractMetricName_takes_first h pre p post m :
  Forall (isOtherMatcher h) pre →
  deref h p = Ret m → m_Name m = MetricNameLabel → m_Type m = Equal →
  ∃ ex,
    extractMetricName h (pre ++ p :: post) = Ret ex ∧
    ex_metricName ex = m_Value m ∧ ex_matchers ex = pre ++ post ∧ ex_err ex = None.
Proof.
  intros Hpre Hp Hname Htype. eexists. split; [by apply extractMetricName_cut|done].
Qed.

Lemma extractMetricName_takes_first_witness :
  Forall (isOtherMatcher heap_regex) [Some 2%nat] ∧
  deref heap_regex (Some 1%nat) = Ret name_up ∧
  m_Name name_up = MetricNameLabel ∧ m_Type name_up = Equal ∧
  ∃ ex,
    extractMetricName heap_regex ([Some 2%nat] ++ Some 1%nat :: [Some 4%nat; Some 3%nat])
      = Ret ex ∧
    ex_metricName ex = m_Value name_up ∧
    ex_matchers ex = [Some 2%nat] ++ [Some 4%nat; Some 3%nat] ∧ ex_err ex = None.
Proof.
  assert (Forall (isOtherMatcher heap_regex) [Some 2%nat]) as H2.
  { repeat constructor. exists job_api. split; [reflexivity|discriminate]. }
  split; [exact H2|]. split; [reflexivity|]. split; [reflexivity|]. split; [reflexivity|].
  apply (extractMetricName_takes_first heap_regex [Some 2%nat] (Some 1%nat)
           [Some 4%nat; Some 3%nat] name_up H2); reflexivity.
Defined.

(** ** Get: rows, filter and fetch *)

Lemma processResponse_items_accounting D matcher items : ∀ cs d d' err cs',
  processResponse_items D items cs matcher d = Ret (d', err, cs') →
  ∃ kept,
    cs' = cs ++ kept ∧ d <= d' ∧
    (err = None → Z.of_nat (length kept) + (d' - d) = Z.of_nat (length items)) ∧
    (err ≠ None → Z.of_nat (length kept) + (d' - d) < Z.of_nat (length items)) ∧
    (matcher = None → d' = d).
Proof.
  induction items as [|item rest IH]; intros cs d d' err cs' Hrun;
    cbn [processResponse_items] in Hrun.
  - injection Hrun as <- <- <-. exists []. rewrite app_nil_r. cbn. repeat split; try done; lia.
  - assert (∀ e, Ret (d, Some e, cs) = Ret (d', err, cs') →
        ∃ kept, cs' = cs ++ kept ∧ d <= d' ∧
          (err = None → Z.of_nat (length kept) + (d' - d) = Z.of_nat (length (item :: rest))) ∧
          (err ≠ None → Z.of_nat (length kept) + (d' - d) < Z.of_nat (length (item :: rest))) ∧
          (matcher = None → d' = d)) as Hfail.
    { intros e [= <- <- <-]. exists []. rewrite app_nil_r. cbn [length].
      repeat split; try done; lia. }
    destruct (item !! rangeKey) as [rv|]; [|done].
    destruct (attr_B rv) as [rangeValue|]; [|by eapply Hfail].
    destruct (parseRangeValue D rangeValue) as [[[label value] chunkID]|e]; [|by eapply Hfail].
    destruct (match inlinedChunk item with
              | Some b => _
              | None => _
              end) as [chunk|e]; [|by eapply Hfail].
    assert (∀ kept0 d0,
        processResponse_items D rest (cs ++ kept0) matcher d0 = Ret (d', err, cs') →
        Z.of_nat (length kept0) + (d0 - d) = 1 → d <= d0 → (matcher = None → d0 = d) →
        ∃ kept, cs' = cs ++ kept ∧ d <= d' ∧
          (err = None → Z.of_nat (length kept) + (d' - d) = Z.of_nat (length (item :: rest))) ∧
          (err ≠ None → Z.of_nat (length kept) + (d' - d) < Z.of_nat (length (item :: rest))) ∧
          (matcher = None → d' = d)) as Hstep.
    { intros kept0 d0 Hrest Hone Hle Hnone.
      destruct (IH _ _ _ _ _ Hrest) as (kept & -> & Hd & Hok & Herr & Hm).
      exists (kept0 ++ kept). rewrite app_assoc, length_app. cbn [length].
      split; [done|]. split; [lia|]. split; [intros ?; specialize (Hok ltac:(done)); lia|].
      split; [intros ?; specialize (Herr ltac:(done)); lia|].
      intros ?. rewrite Hm, Hnone by done. done. }
    destruct matcher as [m|].
    + destruct (bool_decide (label ≠ m_Name m) || negb (Match D m value)).
      * apply (Hstep [] (d + 1)); [by rewrite app_nil_r|cbn; lia|lia|done].
      * apply (Hstep [chunk] d); [done|cbn; lia|lia|done].
    + apply (Hstep [chunk] d); [done|cbn; lia|lia|done].
Qed.

(** X16.  Row accounting of [processResponse]: whenever it returns, the
    chunk set it was given is a prefix of the one it hands back; the
    number of chunks added plus the number of rows dropped is the number
    of rows of the page if it reports no error and is smaller if it
    does (the rows before the faulty one stay added); and without a
    matcher no row is dropped. *)
Theorem processResponse_accounting D resp cs matcher dropped err cs' :
  processResponse D resp cs matcher = Ret (dropped, err, cs') →
  ∃ kept,
    cs' = cs ++ kept ∧ 0 <= dropped ∧
    (err = None → Z.of_nat (length kept) + dropped = Z.of_nat (length (Items resp))) ∧
    (err ≠ None → Z.of_nat (length kept) + dropped < Z.of_nat (length (Items resp))) ∧
    (matcher = None → dropped = 0).
Proof.
  unfold processResponse. intros Hrun.
  destruct (processResponse_items_accounting _ _ _ _ _ _ _ _ Hrun)
    as (kept & -> & Hd & Hok & Herr & Hm).
  exists kept. split; [done|]. split; [done|].
  split; [intros ?; specialize (Hok ltac:(done)); lia|].
  split; [intros ?; specialize (Herr ltac:(done)); lia|done].
Qed.

Lemma processResponse_accounting_witness :
  ∃ dropped err cs',
    processResponse deps_sample
      (mkQueryOutput [row "job" "api" "a"; row "job" "db" "b"; row "job" "api" "late"])
      [indexed_a] (Some job_not_db) = Ret (dropped, err, cs') ∧
    ∃ kept,
      cs' = [indexed_a] ++ kept ∧ 0 <= dropped ∧
      (err = None → Z.of_nat (length kept) + dropped = Z.of_nat (length
         (Items (mkQueryOutput [row "job" "api" "a"; row "job" "db" "b";
                                row "job" "api" "late"])))) ∧
      (err ≠ None → Z.of_nat (length kept) + dropped < Z.of_nat (length
         (Items (mkQueryOutput [row "job" "api" "a"; row "job" "db" "b";
                                row "job" "api" "late"])))) ∧
      (Some job_not_db = None → dropped = 0).
Proof.
  eexists _, _, _. split; [vm_compute; reflexivity|].
  apply (processResponse_accounting deps_sample
           (mkQueryOutput [row "job" "api" "a"; row "job" "db" "b"; row "job" "api" "late"])
           [indexed_a] (Some job_not_db)).
  vm_compute; reflexivity.
Defined.

Lemma inRangeb_overlaps D from through c :
  inRangeb D from through c = true ↔ overlaps D from through c.
Proof.
  unfold inRangeb, overlaps.
  destruct (parseChunkID D (ID c)) as [[[fp f] t]|e].
  - rewrite negb_true_iff, orb_false_iff, !bool_decide_eq_false. split.
    + intros [? ?]. exists fp, f, t. split; [done|lia].
    + intros (? & ? & ? & [= <- <- <-] & ? & ?). lia.
  - split; [done|]. by intros (? & ? & ? & ? & _).
Qed.

Lemma filterByTime_filter D from through chunks : ∀ acc,
  Forall (parses D) chunks →
  filterByTime D from through chunks acc
  = Ok (acc ++ filter (λ c, inRangeb D from through c = true) chunks).
Proof.
  induction chunks as [|c rest IH]; intros acc Hall; cbn [filterByTime].
  - by rewrite app_nil_r.
  - apply Forall_cons in Hall as [[[[fp f] t] Hc] Hall]. rewrite Hc.
    destruct (bool_decide (t < from) || bool_decide (through < f)) eqn:Hout.
    + rewrite filter_cons_False; [by apply IH|].
      unfold inRangeb. rewrite Hc, Hout. done.
    + rewrite filter_cons_True by (unfold inRangeb; by rewrite Hc, Hout).
      rewrite IH by done. by rewrite <- app_assoc.
Qed.

Lemma filterByTime_first_error D from through pre c post e : ∀ acc,
  Forall (parses D) pre → parseChunkID D (ID c) = Err e →
  filterByTime D from through (pre ++ c :: post) acc = Err e.
Proof.
  induction pre as [|c0 pre IH]; intros acc Hall Hc; cbn [app filterByTime].
  - by rewrite Hc.
  - apply Forall_cons in Hall as [[[[fp f] t] Hc0] Hall]. rewrite Hc0.
    destruct (_ || _); by apply IH.
Qed.

(** X17.  The time filter of [lookupChunks] is exact and keeps order:
    if the ID of every chunk found in the index parses, it keeps
    precisely the chunks whose bounds overlap [from, through], bounds
    included, in the order found; and it fails with the parse error of
    the first chunk whose ID does not parse, wherever that chunk's data
    may lie. *)
Theorem filterByTime_exact D from through :
  (∀ chunks, Forall (parses D) chunks →
     filterByTime D from through chunks []
     = Ok (filter (λ c, inRangeb D from through c = true) chunks)) ∧
  (∀ c, inRangeb D from through c = true ↔ overlaps D from through c) ∧
  (∀ pre c post e, Forall (parses D) pre → parseChunkID D (ID c) = Err e →
     filterByTime D from through (pre ++ c :: post) [] = Err e).
Proof.
  split; [|split].
  - intros chunks Hall. by rewrite filterByTime_filter.
  - intros c. apply inRangeb_overlaps.
  - intros pre c post e. apply filterByTime_first_error.
Qed.

Lemma fetchChunkData_recv_runs D cfg u arrivals : ∀ chunks errors,
  runs (fetchChunkData_recv D cfg u arrivals chunks errors)
       (Ret (chunks ++ valuesOf (fetchResult D cfg u <$> arrivals),
             errors ++ errorsOf (fetchResult D cfg u <$> arrivals)))
       (getOf cfg u <$> arrivals).
Proof.
  induction arrivals as [|c rest IH]; intros chunks errors.
  - cbn. rewrite !app_nil_r. apply runs_ret.
  - cbn [fetchChunkData_recv]. rewrite !fmap_cons.
    change (getOf cfg u c :: (getOf cfg u <$> rest))
      with ([EvS3Get (BucketName cfg) (chunkName u (ID c))] ++ (getOf cfg u <$> rest)).
    eapply runs_bind; [apply fetchChunk_runs|].
    unfold valuesOf, errorsOf. cbn [omap list_omap].
    destruct (fetchResult D cfg u c) as [c'|e].
    + pose proof (IH (chunks ++ [c']) errors) as H. rewrite <- app_assoc in H. exact H.
    + pose proof (IH chunks (errors ++ [e])) as H. rewrite <- app_assoc in H. exact H.
Qed.

Lemma fetchChunkData_runs s D cfg u chunkSet :
  runs (fetchChunkData s D cfg u chunkSet)
       (Ret (match errorsOf (fetchResult D cfg u <$> fetch_sched s Chunk chunkSet) with
             | e :: _ => ([], Some e)
             | [] => (valuesOf (fetchResult D cfg u <$> fetch_sched s Chunk chunkSet), None)
             end))
       (getOf cfg u <$> fetch_sched s Chunk chunkSet).
Proof.
  unfold fetchChunkData.
  rewrite <- (app_nil_r (getOf cfg u <$> _)).
  eapply runs_bind; [apply fetchChunkData_recv_runs|]. cbn [app].
  destruct (errorsOf _); apply runs_ret.
Qed.

(** X18.  [fetchChunkData] asks S3 for every chunk of its argument,
    once each and whatever the other answers are, and does nothing else:
    its S3 GETs are, up to their order, those of the chunks given.  If
    any fetch or decode fails it returns no chunks and the first error
    to arrive; otherwise it returns the decoded chunks in their order
    of arrival. *)
Theorem fetchChunkData_all_or_first_error s D cfg u chunkSet :
  fair (fetch_sched s) →
  let reports := fetchResult D cfg u <$> fetch_sched s Chunk chunkSet in
  value_of (fetchChunkData s D cfg u chunkSet)
  = Ret (match errorsOf reports with
         | e :: _ => ([], Some e)
         | [] => (valuesOf reports, None)
         end) ∧
  events_of (fetchChunkData s D cfg u chunkSet) ≡ₚ (getOf cfg u <$> chunkSet).
Proof.
  intros Hfair. cbv zeta. unfold value_of, events_of.
  rewrite (runs_nil _ _ _ (fetchChunkData_runs s D cfg u chunkSet)). cbn [fst snd].
  split; [done|]. by rewrite (Hfair Chunk chunkSet).
Qed.

Lemma fetchChunkData_all_or_first_error_witness :
  fair (fetch_sched scheds_rev) ∧
  let reports :=
    fetchResult deps_sample cfg_refusing "u1"
      <$> fetch_sched scheds_rev Chunk [chunk_a; chunk_b] in
  value_of (fetchChunkData scheds_rev deps_sample cfg_refusing "u1" [chunk_a; chunk_b])
  = Ret (match errorsOf reports with
         | e :: _ => ([], Some e)
         | [] => (valuesOf reports, None)
         end) ∧
  events_of (fetchChunkData scheds_rev deps_sample cfg_refusing "u1" [chunk_a; chunk_b])
    ≡ₚ (getOf cfg_refusing "u1" <$> [chunk_a; chunk_b]).
Proof.
  split; [apply fair_rev|].
  apply (fetchChunkData_all_or_first_error scheds_rev deps_sample cfg_refusing "u1"
           [chunk_a; chunk_b]). apply fair_rev.
Defined.

Lemma Get_after_lookup_trace s D cfg h ctx u from through ms missing arr :
  ctx_userID ctx = Some u →
  value_of (lookupChunks s D cfg h u from through ms) = Ret (missing, None, arr) →
  let found := (cacheSplit cfg u missing).1 in
  let arrivals := fetch_sched s Chunk (cacheSplit cfg u missing).2 in
  let reports := fetchResult D cfg u <$> arrivals in
  let ifCache (evs : trace) := match ChunkCache cfg with Some _ => evs | None => [] end in
  Get s D cfg h ctx from through ms []
  = (Ret (match errorsOf reports with
          | e :: _ => mkGetResult [] (Some e) arr
          | [] => mkGetResult (sortByID (found ++ valuesOf reports)) None arr
          end),
     events_of (lookupChunks s D cfg h u from through ms)
       ++ [EvObserve "cortex_query_chunks" (Z.of_nat (length missing))]
       ++ ifCache [EvCacheFetch u missing]
       ++ (getOf cfg u <$> arrivals)
       ++ match errorsOf reports with
          | [] => ifCache [EvCacheStore u (valuesOf reports)]
          | _ => []
          end).
Proof.
  intros Hu Hlookup. cbv zeta. unfold Get, user_GetID. rewrite Hu.
  rewrite (bind_run _ _ _ _ (lookupChunks_emits s D cfg h u from through ms)), Hlookup.
  cbn [app]. unfold cacheSplit.
  unfold mbind, M_bind, emit, mret, M_ret.
  destruct (ChunkCache cfg) as [cache|].
  - destruct (FetchChunkData cache u missing) as [[found missing'] cerr]. cbn [fst snd].
    rewrite (fetchChunkData_runs s D cfg u missing' _).
    destruct (errorsOf _) as [|e es]; cbn; f_equal; rewrite <- !app_assoc; cbn [app];
      by rewrite ?app_nil_r.
  - cbn [fst snd].
    rewrite (fetchChunkData_runs s D cfg u missing _).
    destruct (errorsOf _) as [|e es]; cbn; f_equal; rewrite <- ?app_assoc; cbn [app];
      by rewrite ?app_nil_r.
Qed.

(** X19.  The second half of [Get].  Once the lookup phase has returned
    chunks without error, [Get] observes their number, asks the cache
    (if one is configured) once for all of them, then fetches from S3
    exactly the chunks the cache reports missing, once each and in
    whatever order, and only after all of them either returns the first
    fetch error to arrive, storing nothing, or stores the fetched chunks
    back in the cache and returns the hits and the fetched chunks sorted
    by ID.  An error of the cache lookup changes nothing. *)
Theorem Get_after_lookup s D cfg h ctx u from through ms missing arr :
  fair (fetch_sched s) →
  ctx_userID ctx = Some u →
  value_of (lookupChunks s D cfg h u from through ms) = Ret (missing, None, arr) →
  let found := (cacheSplit cfg u missing).1 in
  let reports := fetchResult D cfg u <$> fetch_sched s Chunk (cacheSplit cfg u missing).2 in
  let ifCache (evs : trace) := match ChunkCache cfg with Some _ => evs | None => [] end in
  ∃ gets,
    gets ≡ₚ (getOf cfg u <$> (cacheSplit cfg u missing).2) ∧
    Get s D cfg h ctx from through ms []
    = (Ret (match errorsOf reports with
            | e :: _ => mkGetResult [] (Some e) arr
            | [] => mkGetResult (sortByID (found ++ valuesOf reports)) None arr
            end),
       events_of (lookupChunks s D cfg h u from through ms)
         ++ [EvObserve "cortex_query_chunks" (Z.of_nat (length missing))]
         ++ ifCache [EvCacheFetch u missing]
         ++ gets
         ++ match errorsOf reports with
            | [] => ifCache [EvCacheStore u (valuesOf reports)]
            | _ => []
            end).
Proof.
  intros Hfair Hu Hlookup. cbv zeta.
  exists (getOf cfg u <$> fetch_sched s Chunk (cacheSplit cfg u missing).2).
  split; [by rewrite (Hfair Chunk _)|].
  by apply Get_after_lookup_trace.
Qed.

Lemma Get_after_lookup_witness :
  fair (fetch_sched scheds_rev) ∧
  ctx_userID ctx_u1 = Some "u1" ∧
  value_of (lookupChunks scheds_rev deps_sample cfg_cached heap_sample "u1" 0 64000
              [Some 1%nat; Some 2%nat])
    = Ret ([indexed_a], None, [Some 2%nat; Some 2%nat]) ∧
  let found := (cacheSplit cfg_cached "u1" [indexed_a]).1 in
  let reports :=
    fetchResult deps_sample cfg_cached "u1"
      <$> fetch_sched scheds_rev Chunk (cacheSplit cfg_cached "u1" [indexed_a]).2 in
  let ifCache (evs : trace) :=
    match ChunkCache cfg_cached with Some _ => evs | None => [] end in
  ∃ gets,
    gets ≡ₚ (getOf cfg_cached "u1" <$> (cacheSplit cfg_cached "u1" [indexed_a]).2) ∧
    Get scheds_rev deps_sample cfg_cached heap_sample ctx_u1 0 64000
      [Some 1%nat; Some 2%nat] []
    = (Ret (match errorsOf reports with
            | e :: _ => mkGetResult [] (Some e) [Some 2%nat; Some 2%nat]
            | [] => mkGetResult (sortByID (found ++ valuesOf reports)) None
                      [Some 2%nat; Some 2%nat]
            end),
       events_of (lookupChunks scheds_rev deps_sample cfg_cached heap_sample "u1" 0 64000
                    [Some 1%nat; Some 2%nat])
         ++ [EvObserve "cortex_query_chunks" (Z.of_nat (length [indexed_a]))]
         ++ ifCache [EvCacheFetch "u1" [indexed_a]]
         ++ gets
         ++ match errorsOf reports with
            | [] => ifCache [EvCacheStore "u1" (valuesOf reports)]
            | _ => []
            end).
Proof.
  split; [apply fair_rev|]. split; [reflexivity|]. split; [vm_compute; reflexivity|].
  apply (Get_after_lookup scheds_rev deps_sample cfg_cached heap_sample ctx_u1 "u1" 0 64000
           [Some 1%nat; Some 2%nat] [indexed_a] [Some 2%nat; Some 2%nat]);
    [apply fair_rev|reflexivity|vm_compute; reflexivity].
Defined.

(** ** Pagination after a faulty page *)

(** X20.  A processing error on a page that is not the last does not
    end the lookup: the visitor answers "continue", the next page is
    requested and processed on top of the rows already collected, and
    its outcome replaces the error.  So when a faulty first page is
    followed by a sound last page, the lookup by metric name returns
    without error, with the rows of both pages that were collected. *)
Theorem lookup_overwrites_page_error D cfg u b name page1 page2 d1 e1 cs1 d2 cs2 :
  Query (DynamoDB cfg) (metricNameQuery u b name) = [Ok page1; Ok page2] →
  processResponse D page1 [] None = Ret (d1, Some e1, cs1) →
  processResponse D page2 cs1 None = Ret (d2, None, cs2) →
  lookupChunksForMetricName D cfg u b name []
  = (Ret (unique D (sortByID cs2), 1, None),
     [EvQuery (metricNameQuery u b name); EvQuery (metricNameQuery u b name);
      EvObserve "cortex_query_dynamo_request_pages" 2;
      EvObserve "cortex_query_dynamo_dropped_matches_total" (d1 + d2)]).
Proof.
  intros Hquery H1 H2.
  unfold lookupChunksForMetricName, queryPages. cbv zeta.
  fold (metricNameQuery u b name). rewrite Hquery.
  cbn [queryPages_from]. unfold pageVisitor. cbn [chunkSet].
  unfold mbind, M_bind, emit, lift_res, mret, M_ret, res_bind. rewrite H1.
  cbn. rewrite H2. cbn. reflexivity.
Qed.

Lemma lookup_overwrites_page_error_witness :
  Query (DynamoDB cfg_fault_then_ok) (metricNameQuery "u1" hour0 "up")
    = [Ok (mkQueryOutput [row "job" "api" "a"; row_invalid]);
       Ok (mkQueryOutput [row "job" "db" "b"])] ∧
  processResponse deps_sample (mkQueryOutput [row "job" "api" "a"; row_invalid]) [] None
    = Ret (0, Some "invalid item", [indexed_a]) ∧
  processResponse deps_sample (mkQueryOutput [row "job" "db" "b"]) [indexed_a] None
    = Ret (0, None, [indexed_a; mkChunk "b" 0 0 ∅ "" false]) ∧
  lookupChunksForMetricName deps_sample cfg_fault_then_ok "u1" hour0 "up" []
  = (Ret (unique deps_sample (sortByID [indexed_a; mkChunk "b" 0 0 ∅ "" false]), 1, None),
     [EvQuery (metricNameQuery "u1" hour0 "up"); EvQuery (metricNameQuery "u1" hour0 "up");
      EvObserve "cortex_query_dynamo_request_pages" 2;
      EvObserve "cortex_query_dynamo_dropped_matches_total" (0 + 0)]).
Proof.
  split; [reflexivity|]. split; [reflexivity|]. split; [reflexivity|].
  apply (lookup_overwrites_page_error deps_sample cfg_fault_then_ok "u1" hour0 "up"
           (mkQueryOutput [row "job" "api" "a"; row_invalid])
           (mkQueryOutput [row "job" "db" "b"]) 0 "invalid item" [indexed_a] 0
           [indexed_a; mkChunk "b" 0 0 ∅ "" false]); reflexivity.
Defined.

(** ** The ruler's workers *)

Lemma omap_app_events {A B} (f : A → option B) (l k : list A) :
  omap f (l ++ k) = omap f l ++ omap f k.
Proof.
  induction l as [|x l IH]; [done|]. cbn. destruct (f x); cbn; by rewrite IH.
Qed.

Lemma Run_newWorker_outcome turns : ∀ σ tr,
  (Ruler.Run Ruler.newWorker turns σ tr).1
  = (if decide (Forall (λ t, next t ≠ None) turns)
     then InLoop else Panicked "close of nil channel", σ).
Proof.
  induction turns as [|t rest IH]; intros σ tr; cbn [Ruler.Run].
  - by rewrite decide_True.
  - cbn. destruct (next t) as [item|] eqn:E.
    + rewrite IH. destruct (decide (Forall _ rest)) as [Hr|Hr].
      * rewrite decide_True; [done|]. constructor; [by rewrite E|done].
      * rewrite decide_False; [done|]. intros H. by inversion H.
    + rewrite decide_False; [done|]. intros H. inversion H; congruence.
Qed.

Lemma RunRev_newWorker_outcome turns : ∀ σ tr,
  (RulerRev.Run RulerRev.newWorker turns σ tr).1
  = (if decide (Forall (λ t, next t ≠ None) turns)
     then InLoop else Panicked "close of nil channel", σ).
Proof.
  induction turns as [|t rest IH]; intros σ tr; cbn [RulerRev.Run].
  - by rewrite decide_True.
  - cbn. destruct (next t) as [item|] eqn:E.
    + rewrite IH. destruct (decide (Forall _ rest)) as [Hr|Hr].
      * rewrite decide_True; [done|]. constructor; [by rewrite E|done].
      * rewrite decide_False; [done|]. intros H. by inversion H.
    + rewrite decide_False; [done|]. intros H. inversion H; congruence.
Qed.

(** X21.  A worker as [newWorker] builds it never returns from [Run]
    and cannot be stopped through [done]: whatever the state of the
    channels and whether or not somebody tried to close [done], the
    worker stays in its loop as long as the scheduler hands out items,
    and at the first closed-queue answer its deferred
    [close(w.terminated)] panics on the nil channel.  No channel is
    touched.  This holds for [ruler.go] and for its revision. *)
Theorem Run_of_newWorker_never_returns turns σ tr :
  let answered := Forall (λ t, next t ≠ None) turns in
  (answered → (Ruler.Run Ruler.newWorker turns σ tr).1 = (InLoop, σ)) ∧
  (¬ answered →
     (Ruler.Run Ruler.newWorker turns σ tr).1 = (Panicked "close of nil channel", σ)) ∧
  (answered → (RulerRev.Run RulerRev.newWorker turns σ tr).1 = (InLoop, σ)) ∧
  (¬ answered →
     (RulerRev.Run RulerRev.newWorker turns σ tr).1
     = (Panicked "close of nil channel", σ)) ∧
  (Ruler.Run Ruler.newWorker turns σ tr).1.1 ≠ Returned ∧
  (RulerRev.Run RulerRev.newWorker turns σ tr).1.1 ≠ Returned.
Proof.
  cbv zeta. rewrite Run_newWorker_outcome, RunRev_newWorker_outcome.
  destruct (decide (Forall (λ t, next t ≠ None) turns)); cbn; naive_solver.
Qed.

(** X22.  With both channels made, distinct and open, and nobody else
    touching them, the handshake of [Stop] and [Run] works.  The select
    at the head of each turn reads [done] from the channel store: while
    [done] is open the worker takes the item the scheduler offers and
    evaluates it; [Stop] closes [done] and waits; from the store [Stop]
    leaves behind, the worker sees [done] closed before it asks the
    scheduler, returns without popping or evaluating anything and closes
    [terminated], which releases the waiting [Stop].  A second [Stop] of
    the same worker then panics on the closed [done]. *)
Theorem Stop_Run_handshake w d t σ item answers tr :
  done w = Some d → terminated w = Some t → d ≠ t →
  σ !! d = Some false → σ !! t = Some false →
  let σ1 := <[d := true]> σ in
  let σ2 := <[t := true]> σ1 in
  Ruler.Run w (turnsFrom w σ [Some item]) σ tr
    = (InLoop, σ, tr ++ [EvNextWorkItem (Some item)] ++ Evaluate (userID item) (rules item)) ∧
  Ruler.worker_Stop w σ = (Parked, σ1) ∧
  Ruler.Run w (turnsFrom w σ1 (Some item :: answers)) σ1 tr = (Returned, σ2, tr) ∧
  RulerRev.Run w (turnsFrom w σ1 (Some item :: answers)) σ1 tr = (Returned, σ2, tr) ∧
  recv_ready (terminated w) σ2 = true ∧
  Ruler.worker_Stop w σ2 = (Panicked "close of closed channel", σ2).
Proof.
  intros Hd Ht Hne Hσd Hσt. cbv zeta. unfold chanStore in *.
  assert ((<[d := true]> σ) !! t = Some false) as Ht1
    by by rewrite lookup_insert_ne.
  assert ((<[t := true]> (<[d := true]> σ)) !! d = Some true) as Hd2
    by (rewrite lookup_insert_ne by done; by rewrite lookup_insert_eq).
  assert (recv_ready (done w) σ = false) as Hopen.
  { unfold recv_ready. rewrite Hd. apply bool_decide_eq_false_2.
    unfold chanStore. rewrite Hσd. congruence. }
  assert (recv_ready (done w) (<[d := true]> σ) = true) as Hclosed.
  { unfold recv_ready. rewrite Hd. apply bool_decide_eq_true_2.
    unfold chanStore. by rewrite lookup_insert_eq. }
  repeat split.
  - unfold turnsFrom. rewrite Hopen. cbn. unfold done_selected. rewrite Hd. done.
  - unfold Ruler.worker_Stop, go_close, recv_ready, chanStore. rewrite Hd, Ht, Hσd.
    by rewrite bool_decide_eq_false_2 by (rewrite Ht1; congruence).
  - unfold turnsFrom. rewrite Hclosed, fmap_cons. cbn [Ruler.Run].
    unfold done_selected, run_exit, go_close, chanStore. cbn [done_closed].
    by rewrite Hd, Ht, Ht1.
  - unfold turnsFrom. rewrite Hclosed, fmap_cons. cbn [RulerRev.Run].
    unfold done_selected, run_exit, go_close, chanStore. cbn [done_closed].
    by rewrite Hd, Ht, Ht1.
  - unfold recv_ready, chanStore. rewrite Ht. apply bool_decide_eq_true_2.
    by rewrite lookup_insert_eq.
  - unfold Ruler.worker_Stop, go_close, chanStore. by rewrite Hd, Hd2.
Qed.

Lemma Stop_Run_handshake_witness :
  done worker_made = Some 0%nat ∧ terminated worker_made = Some 1%nat ∧
  let σ1 := <[0%nat := true]> chans_open in
  let σ2 := <[1%nat := true]> σ1 in
  Ruler.Run worker_made (turnsFrom worker_made chans_open [Some item_A]) chans_open []
    = (InLoop, chans_open,
       [] ++ [EvNextWorkItem (Some item_A)] ++ Evaluate (userID item_A) (rules item_A)) ∧
  Ruler.worker_Stop worker_made chans_open = (Parked, σ1) ∧
  Ruler.Run worker_made (turnsFrom worker_made σ1 [Some item_A; Some item_B]) σ1 []
    = (Returned, σ2, []) ∧
  RulerRev.Run worker_made (turnsFrom worker_made σ1 [Some item_A; Some item_B]) σ1 []
    = (Returned, σ2, []) ∧
  recv_ready (terminated worker_made) σ2 = true ∧
  Ruler.worker_Stop worker_made σ2 = (Panicked "close of closed channel", σ2).
Proof.
  split; [reflexivity|]. split; [reflexivity|].
  apply (Stop_Run_handshake worker_made 0%nat 1%nat chans_open item_A [Some item_B] []);
    try reflexivity. lia.
Defined.

Lemma Run_trace_pairs w turns : ∀ σ tr,
  evaluated tr = popped tr →
  evaluated (Ruler.Run w turns σ tr).2 = popped (Ruler.Run w turns σ tr).2.
Proof.
  induction turns as [|t rest IH]; intros σ tr Htr; cbn [Ruler.Run]; [done|].
  destruct (done_selected w t).
  - unfold run_exit. by destruct (go_close (terminated w) σ).
  - destruct (next t) as [item|].
    + apply IH. unfold evaluated, popped in *.
      rewrite !omap_app_events, Htr. reflexivity.
    + unfold run_exit.
      assert (evaluated (tr ++ [EvNextWorkItem None])
              = popped (tr ++ [EvNextWorkItem None])) as H.
      { unfold evaluated, popped in *. rewrite !omap_app_events, Htr. reflexivity. }
      by destruct (go_close (terminated w) σ).
Qed.

Lemma RunRev_trace_pairs w turns : ∀ σ tr,
  evaluated tr = popped tr →
  evaluated (RulerRev.Run w turns σ tr).2 = popped (RulerRev.Run w turns σ tr).2.
Proof.
  induction turns as [|t rest IH]; intros σ tr Htr; cbn [RulerRev.Run]; [done|].
  destruct (done_selected w t).
  - unfold run_exit. by destruct (go_close (terminated w) σ).
  - destruct (next t) as [item|].
    + apply IH. unfold evaluated, popped in *.
      rewrite !omap_app_events, Htr. reflexivity.
    + unfold run_exit.
      assert (evaluated (tr ++ [EvNextWorkItem None])
              = popped (tr ++ [EvNextWorkItem None])) as H.
      { unfold evaluated, popped in *. rewrite !omap_app_events, Htr. reflexivity. }
      by destruct (go_close (terminated w) σ).
Qed.

(** X23.  However a worker's [Run] ends (return, panic, or still
    looping), the rule groups it evaluated are exactly the items it
    took from the scheduler: each one once, in the order taken, under
    the tenant ID and with the rules of that item.  This holds for any
    worker, any answers of the scheduler and any channel state, in
    [ruler.go] and in its revision. *)
Theorem Run_evaluates_what_it_pops w turns σ :
  evaluated (Ruler.Run w turns σ []).2 = popped (Ruler.Run w turns σ []).2 ∧
  evaluated (RulerRev.Run w turns σ []).2 = popped (RulerRev.Run w turns σ []).2.
Proof.
  split; [by apply Run_trace_pairs|by apply RunRev_trace_pairs].
Qed.
